(** * Revelação de Hoje: the audio pipeline, the playback transport and the
      generation orchestrator of [src/App.tsx], embedded in Rocq.

    The development follows the source file from top to bottom:
    - [decodePcmData] (lines 28-45), the PCM decoder;
    - [useAudioPlayer] (lines 47-117), the playback transport;
    - [pcmToWav] (lines 120-165), the WAV encoder;
    - [getGeminiResponse], the theme tables and the two handlers of [App]
      (lines 194-234 and 445-520), the generation orchestrator.

    JavaScript numbers that hold counts and byte values are integers ([nat],
    [Z]); numbers that hold times, rates and samples are rationals ([Q]).
    Every sample the decoder produces is an int16 divided by 2^15, which a
    Float32Array element holds exactly, so no rounding is lost by this choice.
    Where the program takes the floor of a product or of a quotient, or
    shows one, the product or quotient is rounded to binary64 as the
    machine does ([fl64]): [Math.random() * 18], [time / 60] and the width
    of the progress bar. Typed arrays are read in little-endian order, as on
    every platform the application runs on. *)

From Stdlib Require Import ZArith QArith Qround Qminmax Qpower Lqa Lia List String Ascii.
From Stdlib.Strings Require Import Byte.
From Stdlib Require Import DecimalString DecimalZ.
From stdpp Require Import base option list gmap strings.

Close Scope Q_scope.
Open Scope nat_scope.

(* ===================================================================== *)
(** * Part I: definitions                                                 *)
(* ===================================================================== *)

(** ** JavaScript exceptions and fallible results *)

Inductive JsError : Type :=
  | RangeError          (* typed-array and DataView bounds *)
  | NotSupportedError   (* Web Audio argument outside its nominal range *)
  | Error (msg : string).

Inductive result (A : Type) : Type :=
  | Ok (a : A)
  | Throw (e : JsError).
Arguments Ok {A} a.
Arguments Throw {A} e.

#[global] Instance result_ret : MRet result := fun A a => Ok a.
#[global] Instance result_bind : MBind result := fun A B k r =>
  match r with
  | Ok a => k a
  | Throw e => Throw e
  end.

(** ** Byte buffers and typed-array views *)

Definition ArrayBuffer := list byte.

(** [new Uint8Array(arrayBuffer)] and the fields of the view the code reads. *)
Record Uint8Array : Type := mkUint8Array {
  u8_buffer : ArrayBuffer;
  u8_byteOffset : nat;
  u8_length : nat
}.

Definition new_Uint8Array (b : ArrayBuffer) : Uint8Array :=
  mkUint8Array b 0 (length b).

Definition byte_val (b : byte) : Z := Z.of_N (Byte.to_N b).

(** One element of an [Int16Array]: two bytes, low byte first, read as a
    two's-complement number. *)
Definition int16_of_bytes (lo hi : byte) : Z :=
  let u := (byte_val lo + 256 * byte_val hi)%Z in
  if (u <? 32768)%Z then u else (u - 65536)%Z.

Fixpoint int16_elements (buf : ArrayBuffer) : list Z :=
  match buf with
  | lo :: hi :: rest => int16_of_bytes lo hi :: int16_elements rest
  | _ => []
  end.

(** [new Int16Array(buffer)] views the whole buffer and throws a RangeError
    when its byte length is not a multiple of 2. *)
Definition new_Int16Array (buf : ArrayBuffer) : result (list Z) :=
  if Nat.even (length buf) then Ok (int16_elements buf) else Throw RangeError.

(** ** Web Audio buffers *)

(** An element of a [Float32Array]. *)
Inductive float32 : Type :=
  | F32 (q : Q)
  | F32NaN.

(** [x / 32768.0] where [x] was read from an [Int16Array]: reading past the
    end gives [undefined], and [undefined / 32768.0] is NaN. Rationals are
    kept in lowest terms. *)
Definition div_32768 (x : option Z) : float32 :=
  match x with
  | Some z => F32 (Qred (inject_Z z / 32768))
  | None => F32NaN
  end.

Record AudioBuffer : Type := mkAudioBuffer {
  numberOfChannels : nat;
  ab_length : nat;
  ab_sampleRate : Q;
  channels : list (list float32)
}.

Definition ab_duration (b : AudioBuffer) : Q :=
  (inject_Z (Z.of_nat (ab_length b)) / ab_sampleRate b)%Q.

Definition getChannelData (b : AudioBuffer) (channel : nat) : option (list float32) :=
  channels b !! channel.

(** [channelData[i] = v] on the Float32Array of one channel, which aliases
    the buffer. A typed array ignores a write past its end. *)
Definition setSample (b : AudioBuffer) (channel i : nat) (v : float32) : AudioBuffer :=
  mkAudioBuffer (numberOfChannels b) (ab_length b) (ab_sampleRate b)
                (alter (fun ch => <[i := v]> ch) channel (channels b)).

(** The part of an [AudioContext] the code depends on: its clock rate and
    the nominal ranges of [createBuffer]. *)
Record AudioContext : Type := mkAudioContext {
  ctx_sampleRate : Q;
  maxNumberOfChannels : nat;
  minSampleRate : Q;
  maxSampleRate : Q
}.

(** Line 26: the one context of the application, created at 24000 Hz. Web
    Audio guarantees at least 32 channels and the rates 8000 to 96000 Hz. *)
Definition AudioCTX : AudioContext := mkAudioContext 24000 32 8000 96000.

(** WebIDL conversion of a number to [unsigned long]: drop the fraction,
    reduce modulo 2^32. *)
Definition Qtrunc (x : Q) : Z :=
  if Qle_bool 0 x then Qfloor x else Qceiling x.

Definition ToUint32 (x : Q) : Z := (Qtrunc x mod 2 ^ 32)%Z.
Definition ToUint16 (x : Q) : Z := (Qtrunc x mod 2 ^ 16)%Z.
Definition ToUint8 (x : Q) : Z := (Qtrunc x mod 2 ^ 8)%Z.

(** *** Binary64

    A JavaScript number is an IEEE 754 binary64, and [*] and [/] give the
    binary64 nearest to the exact result, ties to even. [fl64 x] is that
    binary64 for a real [x] of size below 2^1024: 53 significant bits, and
    never a digit below 2^-1074. *)
Definition pow2 (k : Z) : Q := (2 ^ k)%Q.

(** [floor (log2 x)] for [x > 0]. *)
Definition Qlog2 (x : Q) : Z :=
  let k := (Z.log2 (Qnum x) - Z.log2 (Zpos (Qden x)))%Z in
  if Qle_bool (pow2 k) x then k else (k - 1)%Z.

(** The nearest integer, the even one of two that are equally near. *)
Definition roundEven (x : Q) : Z :=
  let f := Qfloor x in
  match Qcompare (x - inject_Z f) (1 # 2) with
  | Lt => f
  | Gt => (f + 1)%Z
  | Eq => if Z.even f then f else (f + 1)%Z
  end.

(** The exponent of the unit in the last place of the binary64 numbers
    around [x > 0]. *)
Definition exponent64 (x : Q) : Z := Z.max (Qlog2 x - 52) (-1074).

Definition fl64_pos (x : Q) : Q :=
  (inject_Z (roundEven (x / pow2 (exponent64 x))) * pow2 (exponent64 x))%Q.

Definition fl64 (x : Q) : Q :=
  match Qcompare x 0 with
  | Eq => 0%Q
  | Gt => fl64_pos x
  | Lt => (- fl64_pos (- x))%Q
  end.

(** The reals a JavaScript number can hold. *)
Definition isDouble (x : Q) : Prop := (fl64 x == x)%Q.

(** [ctx.createBuffer(numberOfChannels, length, sampleRate)]: a
    NotSupportedError when an argument is zero or outside its nominal range,
    otherwise a buffer of silence. *)
Definition createBuffer (ctx : AudioContext) (numChannels : nat) (len : Q) (rate : Q)
  : result AudioBuffer :=
  let n := Z.to_nat (ToUint32 len) in
  if (numChannels =? 0) || (maxNumberOfChannels ctx <? numChannels) then Throw NotSupportedError
  else if n =? 0 then Throw NotSupportedError
  else if negb (Qle_bool (minSampleRate ctx) rate && Qle_bool rate (maxSampleRate ctx))
       then Throw NotSupportedError
  else Ok (mkAudioBuffer numChannels n rate (replicate numChannels (replicate n (F32 0)))).

(** ** The PCM decoder (lines 28-45) *)

(** The indices [i = 0, 1, ...] with [i < frameCount]: for an integer [i]
    that is [i < ceiling frameCount]. *)
Definition loop_indices (bound : Q) : list nat := seq 0 (Z.to_nat (Qceiling bound)).

Definition decodePcmData (data : Uint8Array) (ctx : AudioContext)
    (sampleRate : Q) (numChannels : nat) : result AudioBuffer :=
  dataInt16 ← new_Int16Array (u8_buffer data);
  let frameCount :=
    (inject_Z (Z.of_nat (length dataInt16)) / inject_Z (Z.of_nat numChannels))%Q in
  buffer ← createBuffer ctx numChannels frameCount sampleRate;
  Ok (foldl (fun buffer channel =>
        foldl (fun buffer i =>
                 setSample buffer channel i
                   (div_32768 (dataInt16 !! (i * numChannels + channel))))
              buffer (loop_indices frameCount))
      buffer (seq 0 numChannels)).

(** ** The playback transport (lines 47-117) *)

Record Blob : Type := mkBlob {
  blob_bytes : list byte;
  blob_type : string
}.

(** An [AudioBufferSourceNode] made by [play]. The [onended] closure of line
    93 captures the [duration] of the render in which [play] ran. *)
Record SourceNode : Type := mkSourceNode {
  nd_buffer : AudioBuffer;
  nd_offset : Q;          (* second argument of [start] *)
  nd_duration : Q;        (* [duration] captured by [onended] *)
  nd_started : bool;
  nd_stopped : bool;      (* [stop()] was called *)
  nd_connected : bool;
  nd_ended : bool         (* the [ended] event was delivered *)
}.

(** A timer made by [setInterval] at line 101; its closure captures
    [duration] as well. *)
Record Interval : Type := mkInterval {
  iv_duration : Q;
  iv_live : bool
}.

(** The state of one [useAudioPlayer] instance: the three React state
    variables, the four refs, the [audioBlob] the effect last ran for, and
    the nodes and timers the hook has created, named by their index. *)
Record Player : Type := mkPlayer {
  isPlaying : bool;
  duration : Q;
  currentTime : Q;
  audioBufferRef : option AudioBuffer;
  sourceRef : option nat;
  timerRef : option nat;
  startTimeRef : Q;
  audioBlob : option Blob;
  nodes : list SourceNode;
  intervals : list Interval
}.

Definition initialPlayer : Player :=
  mkPlayer false 0 0 None None None 0 None [] [].

Definition stopNode (nd : SourceNode) : SourceNode :=
  mkSourceNode (nd_buffer nd) (nd_offset nd) (nd_duration nd) (nd_started nd)
               true (nd_connected nd) (nd_ended nd).

Definition disconnectNode (nd : SourceNode) : SourceNode :=
  mkSourceNode (nd_buffer nd) (nd_offset nd) (nd_duration nd) (nd_started nd)
               (nd_stopped nd) false (nd_ended nd).

Definition endNode (nd : SourceNode) : SourceNode :=
  mkSourceNode (nd_buffer nd) (nd_offset nd) (nd_duration nd) (nd_started nd)
               (nd_stopped nd) (nd_connected nd) true.

Definition killInterval (iv : Interval) : Interval := mkInterval (iv_duration iv) false.

(** [if (timerRef.current) clearInterval(timerRef.current)] *)
Definition clearTimer (ref : option nat) (ivs : list Interval) : list Interval :=
  match ref with
  | Some tid => alter killInterval tid ivs
  | None => ivs
  end.

(** Lines 81-105. [now] is [AudioCTX.currentTime]. [start(0, offset)] throws
    a RangeError on a negative offset, which ends the call after the refs
    were written and before any state is set. *)
Definition play (now : Q) (s : Player) : Player :=
  match audioBufferRef s with
  | None => s
  | Some buf =>
    if isPlaying s then s
    else
      let id := length (nodes s) in
      let offset := currentTime s in
      let startTime := (now - offset)%Q in
      if Qle_bool 0 offset then
        mkPlayer true (duration s) (currentTime s) (audioBufferRef s)
                 (Some id) (Some (length (intervals s))) startTime (audioBlob s)
                 (nodes s ++ [mkSourceNode buf offset (duration s) true false true false])
                 (intervals s ++ [mkInterval (duration s) true])
      else
        mkPlayer (isPlaying s) (duration s) (currentTime s) (audioBufferRef s)
                 (Some id) (timerRef s) startTime (audioBlob s)
                 (nodes s ++ [mkSourceNode buf offset (duration s) false false true false])
                 (intervals s)
  end.

(** Lines 107-114. [stop()] throws an InvalidStateError on a node that was
    never started. *)
Definition pause (s : Player) : Player :=
  if negb (isPlaying s) then s
  else
    match sourceRef s with
    | None => s
    | Some id =>
      match nodes s !! id with
      | Some nd =>
        if nd_started nd then
          mkPlayer false (duration s) (currentTime s) (audioBufferRef s)
                   None (timerRef s) (startTimeRef s) (audioBlob s)
                   (alter (fun nd => disconnectNode (stopNode nd)) id (nodes s))
                   (clearTimer (timerRef s) (intervals s))
        else s
      | None => s
      end
    end.

(** Lines 101-104, one firing of the interval [tid]. *)
Definition tick (tid : nat) (now : Q) (s : Player) : option Player :=
  match intervals s !! tid with
  | Some iv =>
    if iv_live iv then
      let elapsed := (now - startTimeRef s)%Q in
      Some (mkPlayer (isPlaying s) (duration s) (Qmin elapsed (iv_duration iv))
                     (audioBufferRef s) (sourceRef s) (timerRef s) (startTimeRef s)
                     (audioBlob s) (nodes s) (intervals s))
    else None
  | None => None
  end.

(** Lines 93-99, the [ended] event of node [id]: it is delivered once, to a
    started node, when its audio runs out or after [stop()]. *)
Definition onended (id : nat) (now : Q) (s : Player) : option Player :=
  match nodes s !! id with
  | Some nd =>
    if nd_started nd && negb (nd_ended nd) then
      Some (mkPlayer false (duration s)
                     (if Qle_bool (nd_duration nd) (now - startTimeRef s) then 0%Q
                      else currentTime s)
                     (audioBufferRef s) (sourceRef s) (timerRef s) (startTimeRef s)
                     (audioBlob s)
                     (alter endNode id (nodes s))
                     (clearTimer (timerRef s) (intervals s)))
    else None
  | None => None
  end.

(** Lines 71-78, the cleanup the effect returns. *)
Definition effectCleanup (s : Player) : Player :=
  match sourceRef s with
  | Some id =>
    match nodes s !! id with
    | Some nd =>
      if nd_started nd then
        mkPlayer (isPlaying s) (duration s) (currentTime s) (audioBufferRef s)
                 (sourceRef s) (timerRef s) (startTimeRef s) (audioBlob s)
                 (alter stopNode id (nodes s))
                 (clearTimer (timerRef s) (intervals s))
      else s
    | None => s
    end
  | None =>
    mkPlayer (isPlaying s) (duration s) (currentTime s) (audioBufferRef s)
             (sourceRef s) (timerRef s) (startTimeRef s) (audioBlob s)
             (nodes s) (clearTimer (timerRef s) (intervals s))
  end.

(** Lines 58-69, what [processAudio] does once its two awaits have returned:
    the assignments of lines 62-64, or nothing but a log line when the
    decoder threw. [s] is the state at that moment, not the state in which
    the effect ran. *)
Definition processAudio (blob : Blob) (s : Player) : Player :=
  match decodePcmData (new_Uint8Array (blob_bytes blob)) AudioCTX 24000 1 with
  | Ok audioBuffer =>
    mkPlayer (isPlaying s) (ab_duration audioBuffer) 0 (Some audioBuffer)
             (sourceRef s) (timerRef s) (startTimeRef s) (audioBlob s)
             (nodes s) (intervals s)
  | Throw _ => s
  end.

Definition setAudioBlob (b : option Blob) (s : Player) : Player :=
  mkPlayer (isPlaying s) (duration s) (currentTime s) (audioBufferRef s)
           (sourceRef s) (timerRef s) (startTimeRef s) b (nodes s) (intervals s).

(** Lines 56-79, one run of the effect for a new [audioBlob]: the cleanup of
    the previous run (there is one when that run had a blob), then the call
    of [processAudio] when the new blob is present. The call returns at its
    first await: the assignments of [processAudio] are an event of their
    own, and other events can come before it. *)
Definition runEffect (b : option Blob) (s : Player) : Player :=
  setAudioBlob b (match audioBlob s with
                  | Some _ => effectCleanup s
                  | None => s
                  end).

(** A run of the effect whose decode completes before anything else
    happens: [runEffect] and then [processAudio] at once. *)
Definition loadAudio (b : option Blob) (s : Player) : Player :=
  let s1 := match audioBlob s with
            | Some _ => effectCleanup s
            | None => s
            end in
  let s2 := setAudioBlob b s1 in
  match b with
  | Some blob => processAudio blob s2
  | None => s2
  end.

(** The events of one player and the states they lead to: the effect runs
    for a clip that was given or taken away, a decode that was started
    completes, [play] and [pause] are called, a timer fires, a node ends.
    [pending] holds the clips whose decode was started and has not completed:
    decodes complete in any order, and anything can happen before they do.
    [t] is the reading of the audio clock at the last event, which never runs
    backwards. *)
Inductive trajectory : list Blob -> Q -> Player -> Prop :=
  | traj_init : trajectory [] 0 initialPlayer
  | traj_effect pending t s b :
      trajectory pending t s ->
      trajectory (match b with
                  | Some blob => blob :: pending
                  | None => pending
                  end) t (runEffect b s)
  | traj_decoded pending1 blob pending2 t s :
      trajectory (pending1 ++ blob :: pending2) t s ->
      trajectory (pending1 ++ pending2) t (processAudio blob s)
  | traj_play pending t s now :
      trajectory pending t s -> (t <= now)%Q -> trajectory pending now (play now s)
  | traj_pause pending t s :
      trajectory pending t s -> trajectory pending t (pause s)
  | traj_tick pending t s tid now s' :
      trajectory pending t s -> (t <= now)%Q -> tick tid now s = Some s' ->
      trajectory pending now s'
  | traj_ended pending t s id now s' :
      trajectory pending t s -> (t <= now)%Q -> onended id now s = Some s' ->
      trajectory pending now s'.

Definition reachable (t : Q) (s : Player) : Prop :=
  exists pending, trajectory pending t s.

(** The life of a player that is given one clip and keeps it: the effect runs
    once, on the initial state; its decode completes once, while there is no
    buffer yet; [play], [pause], ticks and [ended] events come in any order
    and at any time. *)
Inductive session (clip : Blob) : Q -> Player -> Prop :=
  | sess_effect : session clip 0 (runEffect (Some clip) initialPlayer)
  | sess_decoded t s :
      session clip t s -> audioBufferRef s = None -> session clip t (processAudio clip s)
  | sess_play t s now :
      session clip t s -> (t <= now)%Q -> session clip now (play now s)
  | sess_pause t s :
      session clip t s -> session clip t (pause s)
  | sess_tick t s tid now s' :
      session clip t s -> (t <= now)%Q -> tick tid now s = Some s' -> session clip now s'
  | sess_ended t s id now s' :
      session clip t s -> (t <= now)%Q -> onended id now s = Some s' -> session clip now s'.

(** The source behind [sourceRef] has been started and its [ended] event has
    not been delivered; it may have been stopped. *)
Definition pendingSource (s : Player) : Prop :=
  exists id nd, sourceRef s = Some id /\ nodes s !! id = Some nd /\
                nd_started nd = true /\ nd_ended nd = false.

(** An active source behind [sourceRef]: started, not stopped, not ended. *)
Definition activeSource (s : Player) : Prop :=
  exists id nd, sourceRef s = Some id /\ nodes s !! id = Some nd /\
                nd_started nd = true /\ nd_stopped nd = false /\ nd_ended nd = false.


(** What every reachable state of a player satisfies, with the clock at [t]. *)
Record wf (t : Q) (s : Player) : Prop := mkWf {
  wf_time_lo : (0 <= currentTime s)%Q;
  wf_duration : (0 <= duration s)%Q;
  wf_start : (startTimeRef s <= t)%Q;
  wf_playing : isPlaying s = true -> pendingSource s;
  wf_nodes : forall id nd, nodes s !! id = Some nd -> nd_started nd = true;
  wf_source : forall id, sourceRef s = Some id -> id < length (nodes s);
  wf_timer : forall tid iv, intervals s !! tid = Some iv -> iv_live iv = true ->
                            timerRef s = Some tid /\ (0 <= iv_duration iv)%Q;
  wf_idle : isPlaying s = false ->
            forall tid iv, intervals s !! tid = Some iv -> iv_live iv = false
}.

(** What holds in addition while a player keeps its one clip. *)
Record wf_session (s : Player) : Prop := mkWfSession {
  ws_time_hi : (currentTime s <= duration s)%Q;
  ws_playing : isPlaying s = true -> activeSource s;
  ws_timer : forall tid iv, intervals s !! tid = Some iv -> iv_live iv = true ->
                            iv_duration iv = duration s;
  ws_unloaded : audioBufferRef s = None -> isPlaying s = false /\ intervals s = []
}.

(** ** The WAV encoder (lines 120-165) *)

Definition byte_of_Z (z : Z) : byte :=
  match Byte.of_N (Z.to_N (z mod 256)) with
  | Some b => b
  | None => x00
  end.

(** [DataView] writes on the bytes of the viewed buffer; each throws a
    RangeError when the field does not fit. *)
Definition setUint8 (view : list byte) (offset : nat) (value : Q) : result (list byte) :=
  if offset + 1 <=? length view
  then Ok (<[offset := byte_of_Z (ToUint8 value)]> view)
  else Throw RangeError.

Definition setUint16 (view : list byte) (offset : nat) (value : Q) (littleEndian : bool)
  : result (list byte) :=
  if offset + 2 <=? length view then
    let v := ToUint16 value in
    let b0 := byte_of_Z v in
    let b1 := byte_of_Z (v / 2 ^ 8) in
    Ok (if littleEndian
        then <[offset + 1 := b1]> (<[offset := b0]> view)
        else <[offset + 1 := b0]> (<[offset := b1]> view))
  else Throw RangeError.

Definition setUint32 (view : list byte) (offset : nat) (value : Q) (littleEndian : bool)
  : result (list byte) :=
  if offset + 4 <=? length view then
    let v := ToUint32 value in
    let b0 := byte_of_Z v in
    let b1 := byte_of_Z (v / 2 ^ 8) in
    let b2 := byte_of_Z (v / 2 ^ 16) in
    let b3 := byte_of_Z (v / 2 ^ 24) in
    Ok (if littleEndian
        then <[offset + 3 := b3]> (<[offset + 2 := b2]> (<[offset + 1 := b1]> (<[offset := b0]> view)))
        else <[offset + 3 := b0]> (<[offset + 2 := b1]> (<[offset + 1 := b2]> (<[offset := b3]> view))))
  else Throw RangeError.

Definition charCode (c : ascii) : Q := inject_Z (Z.of_N (N_of_ascii c)).

(** Lines 131-135: [view.setUint8(offset + i, string.charCodeAt(i))] for
    [i = 0 .. string.length - 1]. *)
Fixpoint writeString_from (view : list byte) (offset : nat) (cs : list ascii) (i : nat)
  : result (list byte) :=
  match cs with
  | [] => Ok view
  | c :: cs' =>
    view' ← setUint8 view (offset + i) (charCode c);
    writeString_from view' offset cs' (S i)
  end.

Definition writeString (view : list byte) (offset : nat) (str : string) : result (list byte) :=
  writeString_from view offset (list_ascii_of_string str) 0.

(** What the [FileReader] reports for a blob: [onload] with [e.target.result]
    (possibly [null]), or [onerror]. *)
Inductive FileReaderEvent : Type :=
  | onload (target_result : option ArrayBuffer)
  | onerror (e : JsError).

Definition FileReader := Blob -> FileReaderEvent.

(** The promise [pcmToWav] returns, settled: [Ok] when resolved, [Throw] when
    rejected. [sampleRate], [numChannels] and [bitsPerSample] are numbers. *)
Definition pcmToWav (reader : FileReader) (pcmBlob : Blob)
    (sampleRate numChannels bitsPerSample : Q) : result Blob :=
  match reader pcmBlob with
  | onerror e => Throw e
  | onload None => Throw (Error "Failed to read PCM data.")
  | onload (Some pcmData) =>
    let view := replicate 44 x00 in
    let dataSize := inject_Z (Z.of_nat (length pcmData)) in
    let fileSize := (36 + dataSize)%Q in
    (* RIFF chunk *)
    view ← writeString view 0 "RIFF";
    view ← setUint32 view 4 fileSize true;
    view ← writeString view 8 "WAVE";
    (* fmt chunk *)
    view ← writeString view 12 "fmt ";
    view ← setUint32 view 16 16 true;
    view ← setUint16 view 20 1 true;
    view ← setUint16 view 22 numChannels true;
    view ← setUint32 view 24 sampleRate true;
    view ← setUint32 view 28 (sampleRate * numChannels * (bitsPerSample / 8))%Q true;
    view ← setUint16 view 32 (numChannels * (bitsPerSample / 8))%Q true;
    view ← setUint16 view 34 bitsPerSample true;
    (* data chunk *)
    view ← writeString view 36 "data";
    view ← setUint32 view 40 dataSize true;
    Ok (mkBlob (view ++ pcmData) "audio/wav")
  end.

(** The layout a reader of the file sees: the bytes of a string, and an
    unsigned little-endian field of [n] bytes. *)
Definition ascii_bytes (str : string) : list byte :=
  map byte_of_ascii (list_ascii_of_string str).

Fixpoint le_bytes (n : nat) (v : Z) : list byte :=
  match n with
  | 0 => []
  | S n' => byte_of_Z v :: le_bytes n' (v / 256)
  end.

Fixpoint le_value (bs : list byte) : Z :=
  match bs with
  | [] => 0
  | b :: bs' => byte_val b + 256 * le_value bs'
  end.

Definition u16le (v : Q) : list byte := le_bytes 2 (ToUint16 v).
Definition u32le (v : Q) : list byte := le_bytes 4 (ToUint32 v).

(** Bytes [from .. from + n - 1] of a file. *)
Definition field (from n : nat) (file : list byte) : list byte := take n (drop from file).

(** The data chunk of a WAV file with the 44-byte header. *)
Definition dataChunk (file : list byte) : list byte := drop 44 file.

(** ** The generation orchestrator (lines 194-234 and 445-520) *)

(** Strings are sequences of UTF-8 bytes. *)
Definition dquote : string := String (ascii_of_nat 34) EmptyString.

Record Revelation : Type := mkRevelation {
  rev_date : string;
  rev_text : string;
  rev_audio : Blob;
  rev_name : string;
  rev_theme : string
}.

Record Prayer : Type := mkPrayer {
  prayer_text : string;
  prayer_audio : Blob
}.

(** The React state of [App] (lines 446-452). *)
Record AppState : Type := mkAppState {
  todayString : string;
  revelation : option Revelation;
  prayer : option Prayer;
  isLoading : bool;
  isLoadingPrayer : bool;
  error : string;
  playRevelationOnLoad : bool
}.

(** What a handler does, in the order it does it. *)
Inductive Event : Type :=
  | EvSetIsLoading (b : bool)
  | EvSetError (msg : string)
  | EvSetPrayer (p : option Prayer)
  | EvSetRevelation (r : Revelation)
  | EvSetPlayRevelationOnLoad (b : bool)
  | EvSetIsLoadingPrayer (b : bool)
  | EvGenerateContent (model prompt : string)
  | EvConsoleError
  | EvDbPut (r : Revelation).

(** The world outside the handlers during one call: the answers of the two
    generative models, whether IndexedDB accepts a record, and the value
    [Math.random()] returns. The answer of the speech model is given with
    lines 211-217 applied to it: [None] when the first part has no inline
    data or an empty base64 string (both falsy at line 212), [Some bytes]
    with the bytes [atob] makes of a base64 string that is not empty, which
    can be no byte at all (a string of white space), and [Throw] when the
    request or [atob] throws, both inside the [try] of line 197. *)
Record Env : Type := mkEnv {
  api_text : string -> result string;
  api_audio : string -> result (option (list byte));
  idb_put : Revelation -> result unit;
  Math_random : Q
}.

(** The React state, the object store ['revelacoes'] keyed by [date], and
    the events so far. *)
Record Sys : Type := mkSys {
  appState : AppState;
  store : gmap string Revelation;
  trace : list Event
}.

Definition M (A : Type) : Type := Env -> Sys -> result A * Sys.

#[global] Instance M_ret : MRet M := fun A a _ σ => (Ok a, σ).
#[global] Instance M_bind : MBind M := fun A B k m env σ =>
  match m env σ with
  | (Ok a, σ') => k a env σ'
  | (Throw e, σ') => (Throw e, σ')
  end.

Definition throw {A : Type} (e : JsError) : M A := fun _ σ => (Throw e, σ).

(** [try { m } catch (err) { h err }] *)
Definition try_catch {A : Type} (m : M A) (h : JsError -> M A) : M A := fun env σ =>
  match m env σ with
  | (Ok a, σ') => (Ok a, σ')
  | (Throw e, σ') => h e env σ'
  end.

(** [try { m } finally { f }] *)
Definition try_finally {A : Type} (m : M A) (f : M unit) : M A := fun env σ =>
  match m env σ with
  | (r, σ') =>
    match f env σ' with
    | (Ok _, σ'') => (r, σ'')
    | (Throw e, σ'') => (Throw e, σ'')
    end
  end.

Definition update (f : AppState -> AppState) (ev : Event) : M unit := fun _ σ =>
  (Ok tt, mkSys (f (appState σ)) (store σ) (trace σ ++ [ev])).

Definition setIsLoading (b : bool) : M unit :=
  update (fun a => mkAppState (todayString a) (revelation a) (prayer a) b
                              (isLoadingPrayer a) (error a) (playRevelationOnLoad a))
         (EvSetIsLoading b).

Definition setIsLoadingPrayer (b : bool) : M unit :=
  update (fun a => mkAppState (todayString a) (revelation a) (prayer a) (isLoading a)
                              b (error a) (playRevelationOnLoad a))
         (EvSetIsLoadingPrayer b).

Definition setError (msg : string) : M unit :=
  update (fun a => mkAppState (todayString a) (revelation a) (prayer a) (isLoading a)
                              (isLoadingPrayer a) msg (playRevelationOnLoad a))
         (EvSetError msg).

Definition setPrayer (p : option Prayer) : M unit :=
  update (fun a => mkAppState (todayString a) (revelation a) p (isLoading a)
                              (isLoadingPrayer a) (error a) (playRevelationOnLoad a))
         (EvSetPrayer p).

Definition setRevelation (r : Revelation) : M unit :=
  update (fun a => mkAppState (todayString a) (Some r) (prayer a) (isLoading a)
                              (isLoadingPrayer a) (error a) (playRevelationOnLoad a))
         (EvSetRevelation r).

Definition setPlayRevelationOnLoad (b : bool) : M unit :=
  update (fun a => mkAppState (todayString a) (revelation a) (prayer a) (isLoading a)
                              (isLoadingPrayer a) (error a) b)
         (EvSetPlayRevelationOnLoad b).

Definition console_error : M unit := fun _ σ =>
  (Ok tt, mkSys (appState σ) (store σ) (trace σ ++ [EvConsoleError])).

Definition random : M Q := fun env σ => (Ok (Math_random env), σ).

(** [ai.models.generateContent] for the text model and for the speech model. *)
Definition generateContent_text (prompt : string) : M string := fun env σ =>
  (api_text env prompt,
   mkSys (appState σ) (store σ) (trace σ ++ [EvGenerateContent "gemini-2.5-flash" prompt])).

Definition generateContent_audio (prompt : string) : M (option (list byte)) := fun env σ =>
  (api_audio env prompt,
   mkSys (appState σ) (store σ)
         (trace σ ++ [EvGenerateContent "gemini-2.5-flash-preview-tts" prompt])).

(** Lines 20-23: [db.put('revelacoes', revelation)] upserts by [date]. *)
Definition saveRevelationToDB (r : Revelation) : M unit := fun env σ =>
  match idb_put env r with
  | Ok _ => (Ok tt, mkSys (appState σ) (<[rev_date r := r]> (store σ)) (trace σ ++ [EvDbPut r]))
  | Throw e => (Throw e, mkSys (appState σ) (store σ) (trace σ ++ [EvDbPut r]))
  end.

(** Lines 196-230, [getGeminiResponse(prompt)]: the text overload. *)
Definition getGeminiResponse (prompt : string) : M string :=
  try_catch (generateContent_text prompt)
            (fun err => console_error ;; throw err).

(** Lines 196-230, [getGeminiResponse(prompt, true)]: the audio overload.
    Line 212 tests the base64 string and not the bytes it decodes to: only
    absent or empty inline data throws, and inline data that decodes to no
    byte gives a blob of length 0. *)
Definition getGeminiResponse_audio (prompt : string) : M Blob :=
  try_catch
    (data ← generateContent_audio prompt;
     match data with
     | Some bytes => mret (mkBlob bytes "audio/pcm")
     | None => throw (Error "No audio data received.")
     end)
    (fun err => console_error ;; throw err).

(** Lines 233-234. *)
Definition SURPRISE : string := "Surpreenda-me".

Definition VISIBLE_THEMES : list string :=
  ["Perdão"; "Fé"; "Amor"; "Gratidão"; "Propósito"; "Coragem"; "Humildade"; "Surpreenda-me"].

Definition ALL_THEMES : list string :=
  List.filter (fun t => negb (String.eqb t "Surpreenda-me")) VISIBLE_THEMES ++
  ["Esperança"; "Superação"; "Depressão"; "Finanças"; "Casamento"; "Família";
   "Paciência"; "Perseverança"; "Confiança"; "Sabedoria"; "Transformação"].

(** [Math.floor(r * ALL_THEMES.length)] for [r = Math.random()]: the floor
    of the binary64 product. *)
Definition themeIndex (r : Q) : Z :=
  Qfloor (fl64 (r * inject_Z (Z.of_nat (length ALL_THEMES)))).

(** [ALL_THEMES[...]]; an index outside the array reads [undefined], which
    the template of line 486 prints as the word. *)
Definition pickTheme (r : Q) : string :=
  let i := themeIndex r in
  if (i <? 0)%Z then "undefined" else nth (Z.to_nat i) ALL_THEMES "undefined".

(** Line 486. *)
Definition revelationPrompt (name finalTheme : string) : string :=
  "Crie uma reflexão bíblica inspiradora e pessoal para " +:+ name +:+
  " sobre o tema " +:+ dquote +:+ finalTheme +:+ dquote +:+
  ". A mensagem deve ser calorosa, encorajadora, direta e ter no máximo 1 minuto de duração quando lida. Não inclua saudações como " +:+
  dquote +:+ "Olá" +:+ dquote +:+ " ou " +:+ dquote +:+ "Querido(a)" +:+ dquote +:+
  ". Vá direto para a mensagem.".

(** Line 509. *)
Definition prayerPrompt (theme name : string) : string :=
  "Com base na reflexão sobre " +:+ dquote +:+ theme +:+ dquote +:+ " para " +:+ name +:+
  ", crie uma oração curta e inspiradora. A oração deve ter no máximo 1 minuto de duração quando lida.".

Definition REVELATION_ERROR : string :=
  "Não foi possível gerar a revelação. Tente novamente.".

Definition PRAYER_ERROR : string :=
  "Não foi possível gerar a oração. Tente novamente.".

(** Lines 481-484. *)
Definition resolveTheme (theme : string) : M string :=
  if String.eqb theme "Surpreenda-me"
  then r ← random; mret (pickTheme r)
  else mret theme.

(** Lines 476-502. [closure] is the state of the render the handler belongs
    to, from which it reads [todayString]. *)
Definition handleGenerateRevelation (closure : AppState) (name theme : string) : M unit :=
  setIsLoading true ;;
  setError EmptyString ;;
  setPrayer None ;;
  finalTheme ← resolveTheme theme;
  let promptText := revelationPrompt name finalTheme in
  try_finally
    (try_catch
       (text ← getGeminiResponse promptText;
        audio ← getGeminiResponse_audio text;
        let newRevelation := mkRevelation (todayString closure) text audio name finalTheme in
        setRevelation newRevelation ;;
        saveRevelationToDB newRevelation ;;
        setPlayRevelationOnLoad true)
       (fun err => setError REVELATION_ERROR))
    (setIsLoading false).

(** Lines 504-520; the handler reads [revelation] from its render. *)
Definition handleGeneratePrayer (closure : AppState) : M unit :=
  match revelation closure with
  | None => mret tt
  | Some rev =>
    setIsLoadingPrayer true ;;
    setError EmptyString ;;
    let promptText := prayerPrompt (rev_theme rev) (rev_name rev) in
    try_finally
      (try_catch
         (text ← getGeminiResponse promptText;
          audio ← getGeminiResponse_audio text;
          setPrayer (Some (mkPrayer text audio)))
         (fun err => setError PRAYER_ERROR))
      (setIsLoadingPrayer false)
  end.

(** A handler called from the current render, run to completion. *)
Definition invoke (h : AppState -> M unit) (env : Env) (σ : Sys) : Sys :=
  snd (h (appState σ) env σ).

Definition initialApp : Sys :=
  mkSys (mkAppState EmptyString None None false false EmptyString false) ∅ [].

(** [pat] occurs in [s] as a contiguous substring. *)
Definition occurs_in (pat s : string) : Prop :=
  exists l r, list_ascii_of_string s = l ++ list_ascii_of_string pat ++ r.

(** An executable test for [occurs_in] on lists of characters. *)
Fixpoint is_prefix (p s : list ascii) : bool :=
  match p, s with
  | [], _ => true
  | a :: p', b :: s' => Ascii.eqb a b && is_prefix p' s'
  | _ :: _, [] => false
  end.

Fixpoint has_infix (p s : list ascii) : bool :=
  is_prefix p s ||
  match s with
  | [] => false
  | _ :: s' => has_infix p s'
  end.

(** ** The rest of the file: the store, the effects of [App], the progress
       display and sharing *)

(** Lines 15-18: [db.get('revelacoes', date)]. [opened] is what awaiting the
    database gave; a date without a record reads [undefined]. *)
Definition getRevelationFromDB (opened : result unit) (date : string)
  : M (option Revelation) := fun _ σ =>
  match opened with
  | Ok _ => (Ok (store σ !! date), σ)
  | Throw e => (Throw e, σ)
  end.

(** [setTodayString]; [Event] has no entry for it. *)
Definition setTodayString (d : string) : M unit := fun _ σ =>
  (Ok tt,
   mkSys (mkAppState d (revelation (appState σ)) (prayer (appState σ))
                     (isLoading (appState σ)) (isLoadingPrayer (appState σ))
                     (error (appState σ)) (playRevelationOnLoad (appState σ)))
         (store σ) (trace σ)).

(** Lines 457-467, the effect that runs once after the first render. [date]
    is [new Date().toLocaleDateString('pt-BR')]. *)
Definition mountEffect (date : string) (opened : result unit) : M unit :=
  setTodayString date ;;
  savedRevelation ← getRevelationFromDB opened date;
  match savedRevelation with
  | Some r => setRevelation r
  | None => mret tt
  end.

(** A page load: the React state starts afresh, the store is what it was. *)
Definition reload (date : string) (opened : result unit) (env : Env) (σ : Sys) : Sys :=
  snd (mountEffect date opened env (mkSys (appState initialApp) (store σ) [])).

(** [revelation?.audio] and [prayer?.audio], the clips of the two players
    (lines 454-455). *)
Definition revelationClip (a : AppState) : option Blob := option_map rev_audio (revelation a).
Definition prayerClip (a : AppState) : option Blob := option_map prayer_audio (prayer a).

(** Lines 469-474: the effect that starts the revelation once it is set.
    [p] is the revelation player, [now] the audio clock. *)
Definition autoplayEffect (now : Q) (a : AppState) (p : Player) : AppState * Player :=
  if playRevelationOnLoad a && bool_decide (revelationClip a <> None) then
    (mkAppState (todayString a) (revelation a) (prayer a) (isLoading a)
                (isLoadingPrayer a) (error a) false,
     play now p)
  else (a, p).

(** Line 335: the width of the progress bar, in percent. *)
Definition progress (p : Player) : Q :=
  if Qlt_le_dec 0 (duration p)
  then fl64 (fl64 (currentTime p / duration p) * 100)
  else 0%Q.

(** [Number.prototype.toString] on an integer of size at most 2^53: its
    decimal digits, with a minus sign when negative. *)
Definition Number_toString (z : Z) : string := NilZero.string_of_int (Z.to_int z).

(** [x % y]: the remainder has the sign of [x], and is exact. *)
Definition js_rem (x y : Q) : Q := (x - y * inject_Z (Qtrunc (x / y)))%Q.

(** [String.prototype.padStart]: the pad string is repeated and cut to fill
    up to [targetLength]. *)
Definition padStart (targetLength : nat) (padString : string) (str : string) : string :=
  let missing := targetLength - String.length str in
  match padString with
  | EmptyString => str
  | _ =>
    string_of_list_ascii
      (take missing (concat (replicate missing (list_ascii_of_string padString))))
    +:+ str
  end.

(** Lines 329-333. *)
Definition formatTime (time : Q) : string :=
  let minutes := Qfloor (fl64 (time / 60)) in
  let seconds := padStart 2 "0" (Number_toString (Qfloor (js_rem time 60))) in
  Number_toString minutes +:+ ":" +:+ seconds.

(** The reading of an integer in decimal digits. *)
Definition parseDecimal (str : string) : option Z :=
  option_map Z.of_int (NilZero.int_of_string str).

(** [encodeURIComponent] on a well-formed string: the letters, the digits
    and [- _ . ! ~ * ' ( )] stand for themselves, every other byte of the
    UTF-8 form becomes [%XX] with upper-case hexadecimal digits. *)
Definition isUnreserved (c : ascii) : bool :=
  let n := nat_of_ascii c in
  ((65 <=? n) && (n <=? 90)) || ((97 <=? n) && (n <=? 122)) ||
  ((48 <=? n) && (n <=? 57)) ||
  existsb (Ascii.eqb c) (list_ascii_of_string "-_.!~*'()").

Definition hexDigit (n : nat) : ascii :=
  nth n (list_ascii_of_string "0123456789ABCDEF") "0"%char.

Definition percentEncode (c : ascii) : list ascii :=
  if isUnreserved c then [c]
  else ["%"%char; hexDigit (nat_of_ascii c / 16); hexDigit (nat_of_ascii c mod 16)].

Definition encodeURIComponent (str : string) : string :=
  string_of_list_ascii (concat (map percentEncode (list_ascii_of_string str))).

(** The value of a hexadecimal digit, and the reading of a percent-encoded
    string. *)
Definition hexValue (c : ascii) : option nat :=
  let n := nat_of_ascii c in
  if (48 <=? n) && (n <=? 57) then Some (n - 48)
  else if (65 <=? n) && (n <=? 70) then Some (n - 55)
  else None.

Fixpoint percentDecode (cs : list ascii) : option (list ascii) :=
  match cs with
  | [] => Some []
  | c :: rest =>
    if Ascii.eqb c "%" then
      match rest with
      | h :: l :: rest' =>
        match hexValue h, hexValue l, percentDecode rest' with
        | Some a, Some b, Some tl => Some (ascii_of_nat (16 * a + b) :: tl)
        | _, _, _ => None
        end
      | _ => None
      end
    else option_map (cons c) (percentDecode rest)
  end.

(** *** Sharing (lines 522-550) *)

Record File : Type := mkFile {
  file_bytes : list byte;
  file_name : string;
  file_type : string
}.

Record ShareData : Type := mkShareData {
  share_title : string;
  share_text : string;
  share_files : list File
}.

(** [navigator.share] and [navigator.canShare], each absent on a platform
    without it; [share] resolves or rejects. *)
Record Navigator : Type := mkNavigator {
  nav_share : option (ShareData -> result unit);
  nav_canShare : option (list File -> bool)
}.

Inductive ShareEvent : Type :=
  | ShShare (data : ShareData)
  | ShConsoleError
  | ShWindowOpen (url target : string).

Definition newline : string := String (ascii_of_nat 10) EmptyString.

(** Line 526. *)
Definition shareMessage (text : string) : string :=
  "*Revelação de Hoje*" +:+ newline +:+ newline +:+ "_" +:+ text +:+ "_" +:+
  newline +:+ newline +:+ "Receba sua revelação diária também!".

(** Line 548. *)
Definition whatsappUrl (message : string) : string :=
  "https://wa.me/?text=" +:+ encodeURIComponent message.

(** Lines 522-550, by what the handler does to the outside: calls of
    [navigator.share], of [console.error] and of [window.open], in order. A
    revelation and a prayer always carry their audio blob. *)
Definition handleShare (nav : Navigator) (reader : FileReader) (a : AppState)
    (type : string) : list ShareEvent :=
  let content :=
    if String.eqb type "prayer"
    then option_map (fun p => (prayer_text p, prayer_audio p)) (prayer a)
    else option_map (fun r => (rev_text r, rev_audio r)) (revelation a) in
  match content with
  | None => []
  | Some (text, audio) =>
    let message := shareMessage text in
    let fallback := [ShWindowOpen (whatsappUrl message) "_blank"] in
    match nav_share nav with
    | Some share =>
      match pcmToWav reader audio 24000 1 16 with
      | Ok wavBlob =>
        let audioFile := mkFile (blob_bytes wavBlob)
                                ("revelacao-de-hoje-" +:+ type +:+ ".wav") "audio/wav" in
        let data := mkShareData
                      ("Revelação de Hoje: " +:+
                       (if String.eqb type "prayer" then "Oração" else "Reflexão"))
                      message [audioFile] in
        match nav_canShare nav with
        | Some canShare =>
          if canShare [audioFile] then
            match share data with
            | Ok _ => [ShShare data]
            | Throw _ => ShShare data :: ShConsoleError :: fallback
            end
          else fallback
        | None => fallback
        end
      | Throw _ => ShConsoleError :: fallback
      end
    | None => fallback
    end
  end.

(* ===================================================================== *)
(** * Part II: properties                                                 *)
(* ===================================================================== *)

Example decode_three_samples :
  decodePcmData (new_Uint8Array [x00; x00; xff; x7f; x00; x80]) AudioCTX 24000 1
  = Ok (mkAudioBuffer 1 3 24000 [[F32 0; F32 (32767 # 32768); F32 (-1)]]).
Proof. vm_compute. reflexivity. Qed.

(** ** Binary64 rounding *)

Section Binary64.

Lemma pow2_pos (k : Z) : (0 < pow2 k)%Q.
Proof. apply Qpower_0_lt. reflexivity. Qed.

Lemma pow2_add (a b : Z) : (pow2 (a + b) == pow2 a * pow2 b)%Q.
Proof. apply Qpower_plus. discriminate. Qed.

Lemma pow2_le (a b : Z) : (a <= b)%Z -> (pow2 a <= pow2 b)%Q.
Proof. intros H. apply Qpower_le_compat_l; [exact H | discriminate]. Qed.

Lemma pow2_lt (a b : Z) : (a < b)%Z -> (pow2 a < pow2 b)%Q.
Proof. intros H. apply Qpower_lt_compat_l; [exact H | reflexivity]. Qed.

Lemma pow2_lt_inv (a b : Z) : (pow2 a < pow2 b)%Q -> (a < b)%Z.
Proof. intros H. apply (Qpower_lt_compat_l_inv 2); [exact H | reflexivity]. Qed.

Lemma pow2_inject (k : Z) : (0 <= k)%Z -> (pow2 k == inject_Z (2 ^ k))%Q.
Proof. intros H. unfold pow2. rewrite Zpower_Qpower by exact H. reflexivity. Qed.

Lemma pow2_mul_inv (k : Z) : (pow2 k * pow2 (- k) == 1)%Q.
Proof. rewrite <- pow2_add. rewrite Z.add_opp_diag_r. reflexivity. Qed.

Lemma Qlog2_spec (x : Q) :
  (0 < x)%Q -> (pow2 (Qlog2 x) <= x)%Q /\ (x < pow2 (Qlog2 x + 1))%Q.
Proof.
  intros Hx. destruct x as [n d]. unfold Qlog2. cbn [Qnum Qden].
  assert (Hn : (0 < n)%Z) by (unfold Qlt in Hx; cbn in Hx; lia).
  set (a := Z.log2 n). set (b := Z.log2 (Z.pos d)).
  assert (Ha : (2 ^ a <= n < 2 ^ (a + 1))%Z).
  { unfold a. pose proof (Z.log2_spec n Hn). rewrite <- Z.add_1_r in H. exact H. }
  assert (Hb : (2 ^ b <= Z.pos d < 2 ^ (b + 1))%Z).
  { unfold b. pose proof (Z.log2_spec (Z.pos d) ltac:(lia)). rewrite <- Z.add_1_r in H. exact H. }
  assert (Ha0 : (0 <= a)%Z) by apply Z.log2_nonneg.
  assert (Hb0 : (0 <= b)%Z) by apply Z.log2_nonneg.
  assert (Hx' : (n # d == inject_Z n / inject_Z (Z.pos d))%Q).
  { rewrite Qmake_Qdiv. reflexivity. }
  assert (Hd : (0 < inject_Z (Z.pos d))%Q) by (unfold Qlt; cbn; lia).
  (* n / d < 2^(a - b + 1) *)
  assert (Hup : (n # d < pow2 (a - b + 1))%Q).
  { rewrite Hx'. apply Qlt_shift_div_r; [exact Hd|].
    replace (a - b + 1)%Z with ((a + 1) + - b)%Z by lia.
    rewrite pow2_add.
    assert (H1 : (inject_Z n < pow2 (a + 1))%Q).
    { rewrite pow2_inject by lia. rewrite <- Zlt_Qlt. lia. }
    assert (H2 : (pow2 b <= inject_Z (Z.pos d))%Q).
    { rewrite pow2_inject by lia. rewrite <- Zle_Qle. lia. }
    pose proof (pow2_mul_inv b) as Hinv. pose proof (pow2_pos (- b)) as Hp.
    pose proof (pow2_pos (a + 1)) as Hp1.
    assert (H3 : (1 <= pow2 (- b) * inject_Z (Z.pos d))%Q).
    { rewrite <- Hinv. rewrite (Qmult_comm (pow2 b)).
      apply Qmult_le_l; assumption. }
    assert (H4 : (pow2 (a + 1) * 1 <= pow2 (a + 1) * (pow2 (- b) * inject_Z (Z.pos d)))%Q).
    { apply Qmult_le_l; assumption. }
    rewrite Qmult_1_r in H4. rewrite Qmult_assoc in H4. lra. }
  assert (Hlo : (pow2 (a - b - 1) <= n # d)%Q).
  { rewrite Hx'. apply Qle_shift_div_l; [exact Hd|].
    replace (a - b - 1)%Z with (a + - (b + 1))%Z by lia.
    rewrite pow2_add.
    assert (H1 : (pow2 a <= inject_Z n)%Q).
    { rewrite pow2_inject by lia. rewrite <- Zle_Qle. lia. }
    assert (H2 : (inject_Z (Z.pos d) <= pow2 (b + 1))%Q).
    { rewrite pow2_inject by lia. rewrite <- Zle_Qle. lia. }
    pose proof (pow2_mul_inv (b + 1)) as Hinv. pose proof (pow2_pos (- (b + 1))) as Hp.
    pose proof (pow2_pos a) as Hp1.
    assert (H3 : (pow2 (- (b + 1)) * inject_Z (Z.pos d) <= 1)%Q).
    { rewrite <- Hinv. rewrite (Qmult_comm (pow2 (b + 1))).
      apply Qmult_le_l; assumption. }
    assert (H4 : (pow2 a * (pow2 (- (b + 1)) * inject_Z (Z.pos d)) <= pow2 a * 1)%Q).
    { apply Qmult_le_l; assumption. }
    rewrite Qmult_1_r in H4. rewrite Qmult_assoc in H4. lra. }
  destruct (Qle_bool (pow2 (a - b)) (n # d)) eqn:E.
  - apply Qle_bool_iff in E. split; assumption.
  - assert (Hlt : (n # d < pow2 (a - b))%Q).
    { apply Qnot_le_lt. intros H. apply Qle_bool_iff in H. congruence. }
    replace (a - b - 1 + 1)%Z with (a - b)%Z by lia. split; assumption.
Qed.

Lemma Qlog2_unique (x : Q) (k : Z) :
  (pow2 k <= x)%Q -> (x < pow2 (k + 1))%Q -> Qlog2 x = k.
Proof.
  intros Hlo Hhi.
  assert (Hx : (0 < x)%Q) by (pose proof (pow2_pos k); lra).
  destruct (Qlog2_spec x Hx) as [Hlo' Hhi'].
  assert (H1 : (pow2 k < pow2 (Qlog2 x + 1))%Q) by lra.
  assert (H2 : (pow2 (Qlog2 x) < pow2 (k + 1))%Q) by lra.
  apply pow2_lt_inv in H1, H2. lia.
Qed.

Lemma Qlog2_lt (x : Q) (k : Z) : (0 < x)%Q -> (x < pow2 k)%Q -> (Qlog2 x < k)%Z.
Proof.
  intros Hx Hlt. destruct (Qlog2_spec x Hx) as [Hlo _].
  apply pow2_lt_inv. lra.
Qed.

Lemma Qlog2_ge (x : Q) (k : Z) : (pow2 k <= x)%Q -> (k <= Qlog2 x)%Z.
Proof.
  intros Hle. assert (Hx : (0 < x)%Q) by (pose proof (pow2_pos k); lra).
  destruct (Qlog2_spec x Hx) as [_ Hhi].
  assert (H : (pow2 k < pow2 (Qlog2 x + 1))%Q) by lra.
  apply pow2_lt_inv in H. lia.
Qed.

(** Rounding to the nearest integer keeps to the side of an integer, and of
    an integer and a half. *)
Lemma roundEven_cases (x : Q) :
  roundEven x = Qfloor x /\ (x - inject_Z (Qfloor x) <= 1 # 2)%Q \/
  roundEven x = (Qfloor x + 1)%Z /\ (1 # 2 <= x - inject_Z (Qfloor x))%Q.
Proof.
  unfold roundEven.
  destruct (Qcompare (x - inject_Z (Qfloor x)) (1 # 2)) eqn:E.
  - apply Qeq_alt in E. destruct (Z.even (Qfloor x)); [left|right]; split;
      try reflexivity; rewrite E; apply Qle_refl.
  - apply Qlt_alt in E. left. split; [reflexivity | apply Qlt_le_weak; exact E].
  - apply Qgt_alt in E. right. split; [reflexivity | apply Qlt_le_weak; exact E].
Qed.

Lemma roundEven_le (x : Q) (n : Z) : (x < inject_Z n + (1 # 2))%Q -> (roundEven x <= n)%Z.
Proof.
  intros H. pose proof (Qfloor_le x) as Hf.
  assert (Hfn : (Qfloor x <= n)%Z).
  { assert (Hq : (inject_Z (Qfloor x) < inject_Z (n + 1))%Q).
    { rewrite inject_Z_plus. change (inject_Z 1) with 1%Q. lra. }
    rewrite <- Zlt_Qlt in Hq. lia. }
  destruct (roundEven_cases x) as [[-> _]|[-> Hhalf]]; [exact Hfn|].
  destruct (Z.eq_dec (Qfloor x) n) as [E|E]; [|lia].
  rewrite E in Hhalf. lra.
Qed.

Lemma roundEven_ge (x : Q) (n : Z) : (inject_Z n - (1 # 2) < x)%Q -> (n <= roundEven x)%Z.
Proof.
  intros H. pose proof (Qlt_floor x) as Hf.
  rewrite inject_Z_plus in Hf. change (inject_Z 1) with 1%Q in Hf.
  assert (Hfn : (n - 1 <= Qfloor x)%Z).
  { assert (Hq : (inject_Z (n - 2) < inject_Z (Qfloor x))%Q).
    { unfold Z.sub. rewrite inject_Z_plus. change (inject_Z (- (2))) with (-2)%Q. lra. }
    rewrite <- Zlt_Qlt in Hq. lia. }
  destruct (roundEven_cases x) as [[-> Hhalf]|[-> _]]; [|lia].
  destruct (Z.eq_dec (Qfloor x) (n - 1)%Z) as [E|E]; [|lia].
  rewrite E in Hhalf. unfold Z.sub in Hhalf. rewrite inject_Z_plus in Hhalf.
  change (inject_Z (- (1))) with (-1)%Q in Hhalf. lra.
Qed.

(** [fl64_pos] keeps to the side of every multiple of the unit in the last
    place, and of a multiple and a half. *)
Lemma fl64_pos_le (x : Q) (n : Z) :
  (x < (inject_Z n + (1 # 2)) * pow2 (exponent64 x))%Q ->
  (fl64_pos x <= inject_Z n * pow2 (exponent64 x))%Q.
Proof.
  intros H. unfold fl64_pos. pose proof (pow2_pos (exponent64 x)) as Hp.
  apply Qmult_le_r; [exact Hp|]. rewrite <- Zle_Qle. apply roundEven_le.
  apply Qlt_shift_div_r; assumption.
Qed.

Lemma fl64_pos_ge (x : Q) (n : Z) :
  ((inject_Z n - (1 # 2)) * pow2 (exponent64 x) < x)%Q ->
  (inject_Z n * pow2 (exponent64 x) <= fl64_pos x)%Q.
Proof.
  intros H. unfold fl64_pos. pose proof (pow2_pos (exponent64 x)) as Hp.
  apply Qmult_le_r; [exact Hp|]. rewrite <- Zle_Qle. apply roundEven_ge.
  apply Qlt_shift_div_l; assumption.
Qed.

(** An integer is a multiple of the unit in the last place when that unit
    is at most 1. *)
Lemma integer_on_grid (n e : Z) :
  (e <= 0)%Z -> (inject_Z n == inject_Z (n * 2 ^ (- e)) * pow2 e)%Q.
Proof.
  intros He. rewrite inject_Z_mult, <- (pow2_inject (- e)) by lia.
  rewrite <- Qmult_assoc, (Qmult_comm (pow2 (- e))), pow2_mul_inv. ring.
Qed.

Lemma fl64_nonneg (x : Q) : (0 <= x)%Q -> (0 <= fl64 x)%Q.
Proof.
  intros Hx. unfold fl64. destruct (Qcompare x 0) eqn:E.
  - apply Qle_refl.
  - apply Qlt_alt in E. lra.
  - apply Qgt_alt in E.
    pose proof (fl64_pos_ge x 0) as H. pose proof (pow2_pos (exponent64 x)) as Hp.
    change (inject_Z 0) with 0%Q in H. rewrite Qmult_0_l in H. apply H.
    assert (Hneg : ((0 - (1 # 2)) * pow2 (exponent64 x) < 0)%Q) by nra.
    lra.
Qed.

Lemma fl64_pos_eq (x : Q) : (0 < x)%Q -> fl64 x = fl64_pos x.
Proof.
  intros Hx. unfold fl64. destruct (Qcompare x 0) eqn:E; [| |reflexivity].
  - apply Qeq_alt in E. lra.
  - apply Qlt_alt in E. lra.
Qed.

(** Rounding does not cross an integer, for a positive real below 2^53. *)
Lemma fl64_ge_integer (x : Q) (n : Z) :
  (0 < x)%Q -> (inject_Z n <= x)%Q -> (x < pow2 53)%Q -> (inject_Z n <= fl64 x)%Q.
Proof.
  intros Hpos Hn Hx.
  rewrite (fl64_pos_eq x Hpos).
  assert (He : (exponent64 x <= 0)%Z).
  { unfold exponent64. pose proof (Qlog2_lt x 53 Hpos Hx). lia. }
  pose proof (pow2_pos (exponent64 x)) as Hp.
  pose proof (integer_on_grid n _ He) as Hgrid.
  rewrite Hgrid. apply fl64_pos_ge.
  set (m := inject_Z (n * 2 ^ (- exponent64 x))) in *.
  set (u := pow2 (exponent64 x)) in *. nra.
Qed.

Lemma fl64_le_integer (x : Q) (n : Z) :
  (0 < x)%Q -> (x <= inject_Z n)%Q -> (x < pow2 53)%Q -> (fl64 x <= inject_Z n)%Q.
Proof.
  intros Hpos Hn Hx.
  rewrite (fl64_pos_eq x Hpos).
  assert (He : (exponent64 x <= 0)%Z).
  { unfold exponent64. pose proof (Qlog2_lt x 53 Hpos Hx). lia. }
  pose proof (pow2_pos (exponent64 x)) as Hp.
  pose proof (integer_on_grid n _ He) as Hgrid.
  rewrite Hgrid. apply fl64_pos_le.
  set (m := inject_Z (n * 2 ^ (- exponent64 x))) in *.
  set (u := pow2 (exponent64 x)) in *. nra.
Qed.

(** A real that stays half a unit in the last place below an integer is
    rounded to less than that integer. *)
Lemma fl64_lt_integer (x : Q) (n : Z) :
  (0 < x)%Q -> (x < pow2 53)%Q ->
  (x < inject_Z n - (1 # 2) * pow2 (exponent64 x))%Q -> (fl64 x < inject_Z n)%Q.
Proof.
  intros Hpos Hx Hn.
  rewrite (fl64_pos_eq x Hpos).
  assert (He : (exponent64 x <= 0)%Z).
  { unfold exponent64. pose proof (Qlog2_lt x 53 Hpos Hx). lia. }
  pose proof (pow2_pos (exponent64 x)) as Hp.
  pose proof (integer_on_grid n _ He) as Hgrid.
  assert (Hsub : (inject_Z (n * 2 ^ (- exponent64 x) - 1)
                  == inject_Z (n * 2 ^ (- exponent64 x)) - 1)%Q).
  { unfold Z.sub. rewrite inject_Z_plus. reflexivity. }
  assert (H : (fl64_pos x <= inject_Z (n * 2 ^ (- exponent64 x) - 1) * pow2 (exponent64 x))%Q).
  { apply fl64_pos_le. rewrite Hsub.
    set (m := inject_Z (n * 2 ^ (- exponent64 x))) in *.
    set (u := pow2 (exponent64 x)) in *. nra. }
  rewrite Hsub in H.
  set (m := inject_Z (n * 2 ^ (- exponent64 x))) in *.
  set (u := pow2 (exponent64 x)) in *. nra.
Qed.

Lemma Qfloor_ge (y : Q) (k : Z) : (inject_Z k <= y)%Q -> (k <= Qfloor y)%Z.
Proof.
  intros H. rewrite <- (Qfloor_Z k). apply Qfloor_resp_le. exact H.
Qed.

Lemma Qfloor_lt (y : Q) (k : Z) : (y < inject_Z k)%Q -> (Qfloor y < k)%Z.
Proof.
  intros H. pose proof (Qfloor_le y) as Hf. rewrite Zlt_Qlt. lra.
Qed.

Lemma fl64_zero (x : Q) : (x == 0)%Q -> fl64 x = 0%Q.
Proof.
  intros H. unfold fl64. destruct (Qcompare x 0) eqn:E; [reflexivity| |].
  - apply Qlt_alt in E. lra.
  - apply Qgt_alt in E. lra.
Qed.

Lemma exponent64_below_32 (x : Q) : (0 < x)%Q -> (x < 32)%Q -> (exponent64 x <= -48)%Z.
Proof.
  intros Hpos Hx. unfold exponent64.
  assert (H : (Qlog2 x < 5)%Z) by (apply Qlog2_lt; [exact Hpos | exact Hx]).
  lia.
Qed.

(** A double below 1 is at most [1 - 2^-53]. *)
Lemma double_below_1 (r : Q) :
  isDouble r -> (0 <= r)%Q -> (r < 1)%Q -> (r <= 1 - pow2 (-53))%Q.
Proof.
  intros Hd H0 H1.
  assert (H53 : (pow2 (-53) == 1 # 9007199254740992)%Q) by reflexivity.
  destruct (Qle_lt_or_eq _ _ H0) as [Hpos|Hzero]; [|lra].
  unfold isDouble in Hd. rewrite (fl64_pos_eq r Hpos) in Hd. unfold fl64_pos in Hd.
  assert (Hlog : (Qlog2 r < 0)%Z) by (apply Qlog2_lt; [exact Hpos | exact H1]).
  destruct (Z.eq_dec (Qlog2 r) (-1)%Z) as [E|E].
  - assert (He : exponent64 r = (-53)%Z) by (unfold exponent64; lia).
    rewrite He in Hd. set (M := roundEven (r / pow2 (-53))) in *. rewrite H53 in Hd.
    assert (HM : (M < 2 ^ 53)%Z).
    { rewrite Zlt_Qlt. change (inject_Z (2 ^ 53)) with 9007199254740992%Q. lra. }
    assert (HM' : (inject_Z M <= inject_Z (2 ^ 53 - 1))%Q) by (rewrite <- Zle_Qle; lia).
    change (inject_Z (2 ^ 53 - 1)) with 9007199254740991%Q in HM'. lra.
  - destruct (Qlog2_spec r Hpos) as [_ Hhi].
    assert (Hle : (pow2 (Qlog2 r + 1) <= pow2 (-1))%Q) by (apply pow2_le; lia).
    assert (Hhalf : (pow2 (-1) == 1 # 2)%Q) by reflexivity. lra.
Qed.

Lemma fl64_le_integer_nonneg (x : Q) (n : Z) :
  (0 <= x)%Q -> (x <= inject_Z n)%Q -> (x < pow2 53)%Q -> (fl64 x <= inject_Z n)%Q.
Proof.
  intros H0 Hn Hx. destruct (Qle_lt_or_eq _ _ H0) as [Hpos|Hzero].
  - apply fl64_le_integer; assumption.
  - rewrite (fl64_zero x) by (symmetry; exact Hzero). lra.
Qed.

End Binary64.

(** ** The PCM decoder *)

Section Decoder.

Lemma int16_elements_length (buf : ArrayBuffer) :
  length (int16_elements buf) = length buf / 2.
Proof.
  assert (H : forall n (b : ArrayBuffer), length b <= n ->
              length (int16_elements b) = length b / 2).
  { induction n as [|n IH]; intros [|lo [|hi rest]] Hn; try reflexivity;
      cbn [length] in Hn; try lia.
    cbn [int16_elements length]. rewrite IH by lia.
    change (S (S (length rest))) with (1 * 2 + length rest)%nat.
    rewrite Nat.add_comm, Nat.div_add by lia. lia. }
  apply (H (length buf)). lia.
Qed.

Lemma int16_elements_lookup (buf : ArrayBuffer) (k : nat) (s : Z) :
  int16_elements buf !! k = Some s ->
  exists lo hi, buf !! (2 * k) = Some lo /\ buf !! (2 * k + 1) = Some hi /\
                s = int16_of_bytes lo hi.
Proof.
  revert buf. induction k as [|k IH]; intros [|lo [|hi rest]] H; try discriminate.
  - injection H as <-. exists lo, hi. auto.
  - cbn [int16_elements] in H. rewrite lookup_cons_ne_0 in H by lia. cbn in H.
    destruct (IH _ H) as (lo' & hi' & H1 & H2 & ->).
    exists lo', hi'. replace (2 * S k) with (S (S (2 * k))) by lia.
    cbn. auto.
Qed.

Lemma byte_val_range (b : byte) : (0 <= byte_val b < 256)%Z.
Proof.
  unfold byte_val. pose proof (Byte.to_N_bounded b). lia.
Qed.

Lemma int16_of_bytes_range (lo hi : byte) :
  (-32768 <= int16_of_bytes lo hi < 32768)%Z.
Proof.
  unfold int16_of_bytes.
  pose proof (byte_val_range lo). pose proof (byte_val_range hi).
  cbv zeta. destruct (Z.ltb_spec (byte_val lo + 256 * byte_val hi) 32768); lia.
Qed.

(** The length [createBuffer] receives, and the number of rounds of the
    inner loop. *)
Lemma frameCount_floor (n c : nat) :
  0 < c ->
  Qfloor (inject_Z (Z.of_nat n) / inject_Z (Z.of_nat c)) = Z.of_nat (n / c).
Proof.
  intros Hc. rewrite <- Zdiv_Qdiv, Nat2Z.inj_div. reflexivity.
Qed.

Lemma frameCount_nonneg (n c : nat) :
  Qle_bool 0 (inject_Z (Z.of_nat n) / inject_Z (Z.of_nat c)) = true.
Proof.
  apply Qle_bool_iff.
  destruct c as [|c].
  - cbn. unfold Qdiv, Qinv. cbn. rewrite Qmult_0_r. apply Qle_refl.
  - apply Qle_shift_div_l.
    + replace 0%Q with (inject_Z 0) by reflexivity. rewrite <- Zlt_Qlt. lia.
    + rewrite Qmult_0_l. replace 0%Q with (inject_Z 0) by reflexivity.
      rewrite <- Zle_Qle. lia.
Qed.

Lemma frameCount_ToUint32 (n c : nat) :
  0 < c -> (Z.of_nat (n / c) < 2 ^ 32)%Z ->
  Z.to_nat (ToUint32 (inject_Z (Z.of_nat n) / inject_Z (Z.of_nat c))) = n / c.
Proof.
  intros Hc Hlt. unfold ToUint32, Qtrunc.
  rewrite frameCount_nonneg, frameCount_floor by assumption.
  rewrite Z.mod_small by lia. apply Nat2Z.id.
Qed.

Lemma loop_indices_cover (n c : nat) :
  0 < c ->
  exists rounds, loop_indices (inject_Z (Z.of_nat n) / inject_Z (Z.of_nat c)) = seq 0 rounds
                 /\ n / c <= rounds.
Proof.
  intros Hc. eexists. split; [reflexivity|].
  pose proof (Qle_floor_ceiling (inject_Z (Z.of_nat n) / inject_Z (Z.of_nat c))) as H.
  rewrite <- Zle_Qle, frameCount_floor in H by assumption. lia.
Qed.

(** The two loops, seen from one element of the result. *)
Lemma fill_channel_lookup (f : nat -> float32) (rounds : nat) (ch : list float32) (j : nat) :
  foldl (fun ch i => <[i := f i]> ch) ch (seq 0 rounds) !! j =
  if decide (j < rounds /\ j < length ch) then Some (f j) else ch !! j.
Proof.
  induction rounds as [|r IH].
  - cbn. destruct (decide _); [lia | reflexivity].
  - rewrite seq_S, foldl_snoc. cbn [Nat.add].
    rewrite list_lookup_insert.
    assert (Hlen : length (foldl (fun ch i => <[i := f i]> ch) ch (seq 0 r)) = length ch).
    { clear. generalize (seq 0 r) as l. intros l. revert ch.
      induction l as [|x l IHl]; intros ch; cbn; [reflexivity|].
      rewrite IHl. apply length_insert. }
    rewrite Hlen, IH.
    repeat destruct (decide _); try reflexivity; try lia.
    destruct a as [-> _]. reflexivity.
Qed.

Lemma fill_channel_length (f : nat -> float32) (l : list nat) (ch : list float32) :
  length (foldl (fun ch i => <[i := f i]> ch) ch l) = length ch.
Proof.
  revert ch. induction l as [|x l IH]; intros ch; cbn; [reflexivity|].
  rewrite IH. apply length_insert.
Qed.

Lemma inner_loop_channels (f : nat -> float32) (channel : nat) (l : list nat) (b : AudioBuffer) :
  let b' := foldl (fun buffer i => setSample buffer channel i (f i)) b l in
  numberOfChannels b' = numberOfChannels b /\ ab_length b' = ab_length b /\
  ab_sampleRate b' = ab_sampleRate b /\
  channels b' = alter (fun ch => foldl (fun ch i => <[i := f i]> ch) ch l) channel (channels b).
Proof.
  revert b. induction l as [|x l IH]; intros b; cbn.
  - repeat split. symmetry. apply list_alter_id. reflexivity.
  - destruct (IH (setSample b channel x (f x))) as (-> & -> & -> & ->).
    cbn. repeat split. rewrite list_alter_alter_eq. reflexivity.
Qed.

Lemma outer_loop_channels (g : nat -> list float32 -> list float32) (n : nat)
      (chs : list (list float32)) (k : nat) :
  foldl (fun chs c => alter (g c) c chs) chs (seq 0 n) !! k =
  if decide (k < n) then g k <$> chs !! k else chs !! k.
Proof.
  induction n as [|n IH].
  - cbn. reflexivity.
  - rewrite seq_S, foldl_snoc. cbn [Nat.add].
    rewrite list_lookup_alter.
    destruct (decide (n = k)) as [->|Hne]; rewrite IH;
      repeat destruct (decide _); try reflexivity; lia.
Qed.

Lemma outer_loop_length (g : nat -> list float32 -> list float32) (cs : list nat)
      (chs : list (list float32)) :
  length (foldl (fun chs c => alter (g c) c chs) chs cs) = length chs.
Proof.
  revert chs. induction cs as [|c cs IH]; intros chs; cbn; [reflexivity|].
  rewrite IH. apply length_alter.
Qed.

Lemma decode_loops_channels (f : nat -> nat -> float32) (idxs cs : list nat) (b : AudioBuffer) :
  let b' := foldl (fun buffer channel =>
                     foldl (fun buffer i => setSample buffer channel i (f channel i))
                           buffer idxs) b cs in
  numberOfChannels b' = numberOfChannels b /\ ab_length b' = ab_length b /\
  ab_sampleRate b' = ab_sampleRate b /\
  channels b' =
    foldl (fun chs c => alter (fun ch => foldl (fun ch i => <[i := f c i]> ch) ch idxs) c chs)
          (channels b) cs.
Proof.
  revert b. induction cs as [|c cs IH]; intros b; cbn.
  - auto.
  - destruct (IH (foldl (fun buffer i => setSample buffer c i (f c i)) b idxs))
      as (-> & -> & -> & ->).
    destruct (inner_loop_channels (f c) c idxs b) as (-> & -> & -> & ->).
    auto.
Qed.

Lemma createBuffer_ok (ctx : AudioContext) (numChannels : nat) (len rate : Q) :
  1 <= numChannels <= maxNumberOfChannels ctx ->
  0 < Z.to_nat (ToUint32 len) ->
  (minSampleRate ctx <= rate)%Q -> (rate <= maxSampleRate ctx)%Q ->
  createBuffer ctx numChannels len rate =
  Ok (mkAudioBuffer numChannels (Z.to_nat (ToUint32 len)) rate
        (replicate numChannels (replicate (Z.to_nat (ToUint32 len)) (F32 0)))).
Proof.
  intros [H1 H2] Hlen Hlo Hhi. unfold createBuffer.
  destruct (Nat.eqb_spec numChannels 0); [lia|].
  destruct (Nat.ltb_spec (maxNumberOfChannels ctx) numChannels); [lia|].
  cbn [orb]. destruct (Nat.eqb_spec (Z.to_nat (ToUint32 len)) 0); [lia|].
  apply Qle_bool_iff in Hlo, Hhi. rewrite Hlo, Hhi. reflexivity.
Qed.

(** The decoder on an input it accepts: [N] int16 values, at least one
    frame of [C] channels. *)
Lemma decodePcmData_ok (ctx : AudioContext) (data : Uint8Array) (rate : Q) (C : nat) :
  let N := length (u8_buffer data) / 2 in
  Nat.even (length (u8_buffer data)) = true ->
  1 <= C <= maxNumberOfChannels ctx ->
  C <= N ->
  (Z.of_nat (N / C) < 2 ^ 32)%Z ->
  (minSampleRate ctx <= rate)%Q -> (rate <= maxSampleRate ctx)%Q ->
  exists buf,
    decodePcmData data ctx rate C = Ok buf /\
    numberOfChannels buf = C /\ ab_length buf = N / C /\ ab_sampleRate buf = rate /\
    length (channels buf) = C /\
    forall c i, c < C -> i < N / C ->
      exists chan, getChannelData buf c = Some chan /\ length chan = N / C /\
                   chan !! i = Some (div_32768 (int16_elements (u8_buffer data) !! (i * C + c))).
Proof.
  intros N Heven HC HN Hlt Hlo Hhi.
  unfold decodePcmData, new_Int16Array. rewrite Heven. cbn [mbind result_bind].
  rewrite int16_elements_length. fold N.
  assert (Hframes : 0 < N / C) by (apply Nat.div_str_pos; lia).
  rewrite createBuffer_ok; try assumption;
    [|rewrite frameCount_ToUint32 by (assumption || lia); exact Hframes].
  cbn [mbind result_bind].
  rewrite frameCount_ToUint32 by (assumption || lia).
  destruct (loop_indices_cover N C) as (rounds & -> & Hrounds); [lia|].
  eexists. split; [reflexivity|].
  match goal with |- context [foldl ?F ?B (seq 0 C)] =>
    pose proof (decode_loops_channels
                  (fun channel i => div_32768 (int16_elements (u8_buffer data) !! (i * C + channel)))
                  (seq 0 rounds) (seq 0 C) B) as Hloops
  end.
  cbv zeta in Hloops. destruct Hloops as (-> & -> & -> & Hch).
  cbn [numberOfChannels ab_length ab_sampleRate channels] in Hch |- *.
  repeat split.
  - rewrite Hch, outer_loop_length. apply length_replicate.
  - intros c i Hc Hi. unfold getChannelData. cbn [channels]. rewrite Hch.
    rewrite outer_loop_channels. destruct (decide (c < C)); [|lia].
    rewrite lookup_replicate_2 by lia. cbn [fmap option_fmap option_map].
    eexists. split; [reflexivity|]. split.
    + rewrite fill_channel_length. apply length_replicate.
    + rewrite fill_channel_lookup. rewrite length_replicate.
      destruct (decide _); [reflexivity | lia].
Qed.

End Decoder.

Section DecoderProperties.

Lemma even_length_half (len : nat) :
  Nat.even len = true -> len = 2 * (len / 2).
Proof.
  intros H. apply Nat.even_spec in H. destruct H as [k ->].
  rewrite Nat.mul_comm, Nat.div_mul by lia. lia.
Qed.

Lemma frame_index_in_range (N C c i : nat) :
  c < C -> i < N / C -> i * C + c < N.
Proof.
  intros Hc Hi.
  pose proof (Nat.Div0.mul_div_le N C) as H.
  nia.
Qed.

(** C1. On a PCM input of [N] int16 values (an even number of bytes, read
  low byte first) and [C] channels, with at least one frame, the decoder
  returns a buffer of [N / C] frames, and sample [i] of channel [c] is the
  int16 at index [i * C + c] divided by 32768: 0 gives 0, 32767 gives
  32767/32768 and -32768 gives -1, by the same division. *)
Theorem decodePcmData_samples (ctx : AudioContext) (data : Uint8Array)
        (sampleRate : Q) (numChannels : nat) :
  let N := length (u8_buffer data) / 2 in
  Nat.even (length (u8_buffer data)) = true ->
  1 <= numChannels <= maxNumberOfChannels ctx ->
  numChannels <= N ->
  (Z.of_nat (N / numChannels) < 2 ^ 32)%Z ->
  (minSampleRate ctx <= sampleRate)%Q -> (sampleRate <= maxSampleRate ctx)%Q ->
  exists buf,
    decodePcmData data ctx sampleRate numChannels = Ok buf /\
    numberOfChannels buf = numChannels /\
    ab_length buf = N / numChannels /\
    forall c i, c < numChannels -> i < N / numChannels ->
      exists chan lo hi sample,
        getChannelData buf c = Some chan /\ length chan = N / numChannels /\
        u8_buffer data !! (2 * (i * numChannels + c)) = Some lo /\
        u8_buffer data !! (2 * (i * numChannels + c) + 1) = Some hi /\
        chan !! i = Some (F32 sample) /\
        (sample == inject_Z (int16_of_bytes lo hi) / 32768)%Q /\
        (int16_of_bytes lo hi = 0%Z -> sample = 0%Q) /\
        (int16_of_bytes lo hi = 32767%Z -> sample = (32767 # 32768)%Q) /\
        (int16_of_bytes lo hi = (-32768)%Z -> sample = (-1)%Q).
Proof.
  intros N Heven HC HN Hlt Hlo Hhi.
  destruct (decodePcmData_ok ctx data sampleRate numChannels Heven HC HN Hlt Hlo Hhi)
    as (buf & Hdec & Hnc & Hlen & _ & _ & Hsamples).
  exists buf. repeat split; try assumption.
  intros c i Hc Hi.
  destruct (Hsamples c i Hc Hi) as (chan & Hchan & Hchanlen & Hi').
  assert (Hidx : i * numChannels + c < length (int16_elements (u8_buffer data))).
  { rewrite int16_elements_length. apply frame_index_in_range; assumption. }
  apply lookup_lt_is_Some_2 in Hidx. destruct Hidx as [s Hs].
  destruct (int16_elements_lookup _ _ _ Hs) as (lo & hi & Hlo' & Hhi' & ->).
  rewrite Hs in Hi'. cbn [div_32768] in Hi'.
  exists chan, lo, hi, (Qred (inject_Z (int16_of_bytes lo hi) / 32768)).
  repeat split; try assumption.
  - apply Qred_correct.
  - intros ->. reflexivity.
  - intros ->. reflexivity.
  - intros ->. reflexivity.
Qed.

Lemma decodePcmData_samples_witness :
  exists buf,
    decodePcmData (new_Uint8Array [x00; x00; xff; x7f; x00; x80]) AudioCTX 24000 1 = Ok buf /\
    ab_length buf = 3 /\
    getChannelData buf 0 = Some [F32 0; F32 (32767 # 32768); F32 (-1)].
Proof.
  destruct (decodePcmData_samples AudioCTX
              (new_Uint8Array [x00; x00; xff; x7f; x00; x80]) 24000 1)
    as (buf & Hdec & _ & Hlen & _).
  - reflexivity.
  - cbn. lia.
  - cbn. lia.
  - cbn. lia.
  - unfold Qle. cbn. lia.
  - unfold Qle. cbn. lia.
  - exists buf. split; [exact Hdec|]. split; [exact Hlen|].
    rewrite decode_three_samples in Hdec. injection Hdec as <-. reflexivity.
Defined.

(** C2, as the code has it. The decoder has no check of its own. An odd
  byte length fails with the RangeError of the [Int16Array] view, and an
  input shorter than one frame with the NotSupportedError of
  [createBuffer]. Every other input is accepted, also when its byte length
  is not a multiple of [2 * C]: the result has [floor (N / C)] frames,
  which is [N / C] exactly for a multiple and leaves the last [N mod C]
  samples out otherwise. *)
Theorem decodePcmData_failures (ctx : AudioContext) (data : Uint8Array)
        (sampleRate : Q) (numChannels : nat) :
  let len := length (u8_buffer data) in
  let N := len / 2 in
  1 <= numChannels <= maxNumberOfChannels ctx ->
  (Z.of_nat (N / numChannels) < 2 ^ 32)%Z ->
  (minSampleRate ctx <= sampleRate)%Q -> (sampleRate <= maxSampleRate ctx)%Q ->
  (Nat.even len = false ->
     decodePcmData data ctx sampleRate numChannels = Throw RangeError) /\
  (Nat.even len = true -> N < numChannels ->
     decodePcmData data ctx sampleRate numChannels = Throw NotSupportedError) /\
  (Nat.even len = true -> numChannels <= N ->
     exists buf,
       decodePcmData data ctx sampleRate numChannels = Ok buf /\
       ab_length buf = N / numChannels /\
       (len mod (2 * numChannels) = 0 -> ab_length buf * numChannels = N) /\
       (len mod (2 * numChannels) <> 0 -> ab_length buf * numChannels < N)).
Proof.
  intros len N HC Hlt Hlo Hhi. repeat split.
  - intros Hodd. unfold decodePcmData, new_Int16Array. fold len. rewrite Hodd. reflexivity.
  - intros Heven Hshort. unfold decodePcmData, new_Int16Array. fold len. rewrite Heven.
    cbn [mbind result_bind]. rewrite int16_elements_length. fold len N.
    unfold createBuffer.
    rewrite frameCount_ToUint32 by (assumption || lia).
    rewrite Nat.div_small by assumption.
    destruct (_ || _); reflexivity.
  - intros Heven Hfull.
    destruct (decodePcmData_ok ctx data sampleRate numChannels Heven HC Hfull Hlt Hlo Hhi)
      as (buf & Hdec & _ & Hlen & _).
    exists buf. fold len N in Hlen. repeat split; try assumption.
    + intros Hmod. rewrite Hlen.
      rewrite (even_length_half len Heven) in Hmod. fold N in Hmod.
      rewrite Nat.Div0.mul_mod_distr_l in Hmod.
      pose proof (Nat.div_mod_eq N numChannels). nia.
    + intros Hmod. rewrite Hlen.
      assert (N mod numChannels <> 0).
      { intros H0. apply Hmod. rewrite (even_length_half len Heven). fold N.
        rewrite Nat.Div0.mul_mod_distr_l, H0. lia. }
      pose proof (Nat.div_mod_eq N numChannels). nia.
Qed.

Lemma decodePcmData_failures_witness :
  decodePcmData (new_Uint8Array [x01; x00; x02]) AudioCTX 24000 1 = Throw RangeError /\
  exists buf,
    decodePcmData (new_Uint8Array [x01; x00; x02; x00; x03; x00]) AudioCTX 24000 2 = Ok buf /\
    ab_length buf = 1.
Proof.
  split.
  - apply (decodePcmData_failures AudioCTX (new_Uint8Array [x01; x00; x02]) 24000 1).
    + cbn. lia.
    + cbn. lia.
    + unfold Qle. cbn. lia.
    + unfold Qle. cbn. lia.
    + reflexivity.
  - destruct (decodePcmData_failures AudioCTX
                (new_Uint8Array [x01; x00; x02; x00; x03; x00]) 24000 2)
      as (_ & _ & H).
    + cbn. lia.
    + cbn. lia.
    + unfold Qle. cbn. lia.
    + unfold Qle. cbn. lia.
    + destruct H as (buf & Hdec & Hlen & _).
      * reflexivity.
      * cbn. lia.
      * exists buf. split; [exact Hdec | exact Hlen].
Defined.

(** C2 does not hold as the specification words it: six bytes for two
    channels are three int16 values, not a whole number of frames, and the
    decoder returns one frame instead of failing. *)
Lemma decodePcmData_accepts_partial_frame :
  let data := new_Uint8Array [x01; x00; x02; x00; x03; x00] in
  length (u8_buffer data) mod (2 * 2) <> 0 /\
  decodePcmData data AudioCTX 24000 2
  = Ok (mkAudioBuffer 2 1 24000 [[F32 (1 # 32768)]; [F32 (1 # 16384)]]).
Proof.
  split.
  - cbn. lia.
  - vm_compute. reflexivity.
Qed.

End DecoderProperties.

(** ** The WAV encoder *)

Section Encoder.

Lemma byte_val_of_Z (z : Z) : byte_val (byte_of_Z z) = (z mod 256)%Z.
Proof.
  unfold byte_val, byte_of_Z.
  pose proof (Z.mod_pos_bound z 256 ltac:(lia)) as Hb.
  destruct (Byte.of_N (Z.to_N (z mod 256))) as [b|] eqn:E.
  - apply Byte.to_of_N in E. rewrite E. lia.
  - apply Byte.of_N_None_iff in E. lia.
Qed.

Lemma le_value_le_bytes (n : nat) (v : Z) :
  le_value (le_bytes n v) = (v mod 256 ^ Z.of_nat n)%Z.
Proof.
  revert v. induction n as [|n IH]; intros v.
  - cbn. rewrite Z.mod_1_r. reflexivity.
  - cbn [le_bytes le_value]. rewrite byte_val_of_Z, IH.
    rewrite Nat2Z.inj_succ, Z.pow_succ_r by lia.
    rewrite Z.rem_mul_r by lia. reflexivity.
Qed.

Lemma le_bytes_2 (v : Z) :
  le_bytes 2 v = [byte_of_Z v; byte_of_Z (v / 2 ^ 8)].
Proof. reflexivity. Qed.

Lemma le_bytes_4 (v : Z) :
  le_bytes 4 v = [byte_of_Z v; byte_of_Z (v / 2 ^ 8); byte_of_Z (v / 2 ^ 16); byte_of_Z (v / 2 ^ 24)].
Proof.
  cbn [le_bytes]. rewrite !Z.div_div by lia. reflexivity.
Qed.

Lemma ToUint32_range (x : Q) : (0 <= ToUint32 x < 2 ^ 32)%Z.
Proof. unfold ToUint32. apply Z.mod_pos_bound. lia. Qed.

Lemma ToUint16_range (x : Q) : (0 <= ToUint16 x < 2 ^ 16)%Z.
Proof. unfold ToUint16. apply Z.mod_pos_bound. lia. Qed.

Lemma le_value_u32le (x : Q) : le_value (u32le x) = ToUint32 x.
Proof.
  unfold u32le. rewrite le_value_le_bytes.
  apply Z.mod_small. pose proof (ToUint32_range x). cbn in *. lia.
Qed.

Lemma le_value_u16le (x : Q) : le_value (u16le x) = ToUint16 x.
Proof.
  unfold u16le. rewrite le_value_le_bytes.
  apply Z.mod_small. pose proof (ToUint16_range x). cbn in *. lia.
Qed.

Lemma Qtrunc_comp (x y : Q) : (x == y)%Q -> Qtrunc x = Qtrunc y.
Proof.
  intros H. unfold Qtrunc.
  rewrite (Qleb_comp 0%Q 0%Q (Qeq_refl 0%Q) x y H).
  rewrite (Qfloor_comp x y H), (Qceiling_comp x y H). reflexivity.
Qed.

Lemma Qtrunc_inject_Z (z : Z) : Qtrunc (inject_Z z) = z.
Proof.
  unfold Qtrunc. rewrite Qfloor_Z, Qceiling_Z. destruct (Qle_bool _ _); reflexivity.
Qed.

Lemma ToUint32_comp (x y : Q) : (x == y)%Q -> ToUint32 x = ToUint32 y.
Proof. intros H. unfold ToUint32. rewrite (Qtrunc_comp x y H). reflexivity. Qed.

Lemma ToUint16_comp (x y : Q) : (x == y)%Q -> ToUint16 x = ToUint16 y.
Proof. intros H. unfold ToUint16. rewrite (Qtrunc_comp x y H). reflexivity. Qed.

Lemma ToUint32_inject_Z (z : Z) : ToUint32 (inject_Z z) = (z mod 2 ^ 32)%Z.
Proof. unfold ToUint32. rewrite Qtrunc_inject_Z. reflexivity. Qed.

Lemma byte_of_charCode (c : ascii) : byte_of_Z (ToUint8 (charCode c)) = byte_of_ascii c.
Proof.
  destruct c as [[] [] [] [] [] [] [] []]; vm_compute; reflexivity.
Qed.

(** The writes of lines 141-157 on the 44 zero bytes, as one list. *)
Lemma pcmToWav_view (pcmData : ArrayBuffer) (sampleRate numChannels bitsPerSample : Q) :
  let dataSize := inject_Z (Z.of_nat (length pcmData)) in
  (view ← writeString (replicate 44 x00) 0 "RIFF";
   view ← setUint32 view 4 (36 + dataSize)%Q true;
   view ← writeString view 8 "WAVE";
   view ← writeString view 12 "fmt ";
   view ← setUint32 view 16 16 true;
   view ← setUint16 view 20 1 true;
   view ← setUint16 view 22 numChannels true;
   view ← setUint32 view 24 sampleRate true;
   view ← setUint32 view 28 (sampleRate * numChannels * (bitsPerSample / 8))%Q true;
   view ← setUint16 view 32 (numChannels * (bitsPerSample / 8))%Q true;
   view ← setUint16 view 34 bitsPerSample true;
   view ← writeString view 36 "data";
   view ← setUint32 view 40 dataSize true;
   Ok (mkBlob (view ++ pcmData) "audio/wav"))
  = Ok (mkBlob ((ascii_bytes "RIFF" ++ u32le (36 + dataSize) ++ ascii_bytes "WAVE" ++
                 ascii_bytes "fmt " ++ u32le 16 ++ u16le 1 ++ u16le numChannels ++
                 u32le sampleRate ++
                 u32le (sampleRate * numChannels * (bitsPerSample / 8)) ++
                 u16le (numChannels * (bitsPerSample / 8)) ++ u16le bitsPerSample ++
                 ascii_bytes "data" ++ u32le dataSize) ++ pcmData) "audio/wav").
Proof.
  intros dataSize. unfold u32le, u16le. rewrite !le_bytes_4, !le_bytes_2.
  unfold writeString, setUint32, setUint16.
  cbn -[byte_of_Z ToUint32 ToUint16 ToUint8 charCode Z.div Z.pow Qplus Qmult Qdiv
        inject_Z byte_of_ascii].
  rewrite !byte_of_charCode. reflexivity.
Qed.

Lemma pcmToWav_loaded (reader : FileReader) (pcmBlob : Blob)
      (sampleRate numChannels bitsPerSample : Q) :
  reader pcmBlob = onload (Some (blob_bytes pcmBlob)) ->
  let dataSize := inject_Z (Z.of_nat (length (blob_bytes pcmBlob))) in
  pcmToWav reader pcmBlob sampleRate numChannels bitsPerSample
  = Ok (mkBlob ((ascii_bytes "RIFF" ++ u32le (36 + dataSize) ++ ascii_bytes "WAVE" ++
                 ascii_bytes "fmt " ++ u32le 16 ++ u16le 1 ++ u16le numChannels ++
                 u32le sampleRate ++
                 u32le (sampleRate * numChannels * (bitsPerSample / 8)) ++
                 u16le (numChannels * (bitsPerSample / 8)) ++ u16le bitsPerSample ++
                 ascii_bytes "data" ++ u32le dataSize) ++ blob_bytes pcmBlob) "audio/wav").
Proof.
  intros Hread dataSize. unfold pcmToWav. rewrite Hread.
  apply pcmToWav_view.
Qed.

Lemma header_length (a b c d e f g : Q) :
  length (ascii_bytes "RIFF" ++ u32le a ++ ascii_bytes "WAVE" ++
          ascii_bytes "fmt " ++ u32le 16 ++ u16le 1 ++ u16le b ++ u32le c ++
          u32le d ++ u16le e ++ u16le f ++ ascii_bytes "data" ++ u32le g) = 44.
Proof. reflexivity. Qed.

Lemma u32le_comp (x y : Q) : (x == y)%Q -> u32le x = u32le y.
Proof. intros H. unfold u32le. rewrite (ToUint32_comp x y H). reflexivity. Qed.

Lemma u16le_comp (x y : Q) : (x == y)%Q -> u16le x = u16le y.
Proof. intros H. unfold u16le. rewrite (ToUint16_comp x y H). reflexivity. Qed.

Lemma byteRate_assoc (sampleRate numChannels bitsPerSample : Q) :
  (sampleRate * numChannels * (bitsPerSample / 8) ==
   sampleRate * numChannels * bitsPerSample / 8)%Q.
Proof. unfold Qdiv. ring. Qed.

Lemma blockAlign_assoc (numChannels bitsPerSample : Q) :
  (numChannels * (bitsPerSample / 8) == numChannels * bitsPerSample / 8)%Q.
Proof. unfold Qdiv. ring. Qed.

(** C3. When the PCM blob of [D] bytes is read, the encoder resolves with a
    file that starts with 44 bytes in the canonical layout: "RIFF",
    [36 + D] as u32, "WAVE", "fmt ", 16 as u32, 1 as u16, [numChannels] as
    u16 (bytes 22-23), [sampleRate] as u32 (bytes 24-27), the byte rate
    [sampleRate * numChannels * bitsPerSample / 8] as u32, the block align
    [numChannels * bitsPerSample / 8] as u16, [bitsPerSample] as u16, "data"
    and [D] as u32, every number little-endian. Read back, the fields give
    these values reduced to their width. *)
Theorem pcmToWav_header (reader : FileReader) (pcmBlob : Blob)
        (sampleRate numChannels bitsPerSample : Q) :
  reader pcmBlob = onload (Some (blob_bytes pcmBlob)) ->
  let D := Z.of_nat (length (blob_bytes pcmBlob)) in
  exists wav header,
    pcmToWav reader pcmBlob sampleRate numChannels bitsPerSample = Ok wav /\
    blob_bytes wav = header ++ blob_bytes pcmBlob /\
    length header = 44 /\
    header =
      ascii_bytes "RIFF" ++ u32le (36 + inject_Z D) ++ ascii_bytes "WAVE" ++
      ascii_bytes "fmt " ++ u32le 16 ++ u16le 1 ++ u16le numChannels ++
      u32le sampleRate ++ u32le (sampleRate * numChannels * bitsPerSample / 8) ++
      u16le (numChannels * bitsPerSample / 8) ++ u16le bitsPerSample ++
      ascii_bytes "data" ++ u32le (inject_Z D) /\
    field 0 4 (blob_bytes wav) = ascii_bytes "RIFF" /\
    le_value (field 4 4 (blob_bytes wav)) = ((36 + D) mod 2 ^ 32)%Z /\
    field 8 4 (blob_bytes wav) = ascii_bytes "WAVE" /\
    field 12 4 (blob_bytes wav) = ascii_bytes "fmt " /\
    le_value (field 16 4 (blob_bytes wav)) = 16%Z /\
    le_value (field 20 2 (blob_bytes wav)) = 1%Z /\
    le_value (field 22 2 (blob_bytes wav)) = ToUint16 numChannels /\
    le_value (field 24 4 (blob_bytes wav)) = ToUint32 sampleRate /\
    le_value (field 28 4 (blob_bytes wav)) =
      ToUint32 (sampleRate * numChannels * bitsPerSample / 8) /\
    le_value (field 32 2 (blob_bytes wav)) = ToUint16 (numChannels * bitsPerSample / 8) /\
    le_value (field 34 2 (blob_bytes wav)) = ToUint16 bitsPerSample /\
    field 36 4 (blob_bytes wav) = ascii_bytes "data" /\
    le_value (field 40 4 (blob_bytes wav)) = (D mod 2 ^ 32)%Z.
Proof.
  intros Hread D.
  pose proof (pcmToWav_loaded reader pcmBlob sampleRate numChannels bitsPerSample Hread) as H.
  cbv zeta in H. fold D in H.
  rewrite (u32le_comp _ _ (byteRate_assoc sampleRate numChannels bitsPerSample)) in H.
  rewrite (u16le_comp _ _ (blockAlign_assoc numChannels bitsPerSample)) in H.
  eexists. eexists. split; [exact H|]. cbn [blob_bytes].
  split; [reflexivity|]. split; [apply header_length|]. split; [reflexivity|].
  repeat split.
  - change (le_value (u32le (36 + inject_Z D)) = ((36 + D) mod 2 ^ 32)%Z).
    rewrite le_value_u32le.
    rewrite (ToUint32_comp _ (inject_Z (36 + D))) by (rewrite inject_Z_plus; reflexivity).
    apply ToUint32_inject_Z.
  - change (le_value (u16le numChannels) = ToUint16 numChannels). apply le_value_u16le.
  - change (le_value (u32le sampleRate) = ToUint32 sampleRate). apply le_value_u32le.
  - change (le_value (u32le (sampleRate * numChannels * bitsPerSample / 8)) =
            ToUint32 (sampleRate * numChannels * bitsPerSample / 8)).
    apply le_value_u32le.
  - change (le_value (u16le (numChannels * bitsPerSample / 8)) =
            ToUint16 (numChannels * bitsPerSample / 8)).
    apply le_value_u16le.
  - change (le_value (u16le bitsPerSample) = ToUint16 bitsPerSample). apply le_value_u16le.
  - change (le_value (u32le (inject_Z D)) = (D mod 2 ^ 32)%Z).
    rewrite le_value_u32le. apply ToUint32_inject_Z.
Qed.

Lemma pcmToWav_header_witness :
  let pcm := mkBlob [x01; x00; x02; x00] "audio/pcm" in
  exists wav,
    pcmToWav (fun b => onload (Some (blob_bytes b))) pcm 24000 1 16 = Ok wav /\
    length (blob_bytes wav) = 48 /\
    le_value (field 4 4 (blob_bytes wav)) = 40%Z /\
    le_value (field 22 2 (blob_bytes wav)) = 1%Z /\
    le_value (field 24 4 (blob_bytes wav)) = 24000%Z /\
    le_value (field 28 4 (blob_bytes wav)) = 48000%Z /\
    le_value (field 32 2 (blob_bytes wav)) = 2%Z /\
    le_value (field 34 2 (blob_bytes wav)) = 16%Z /\
    le_value (field 40 4 (blob_bytes wav)) = 4%Z.
Proof.
  intros pcm.
  destruct (pcmToWav_header (fun b => onload (Some (blob_bytes b))) pcm 24000 1 16)
    as (wav & header & Hwav & Hbytes & Hlen & _ & _ & H4 & _ & _ & _ & _ & H22 & H24 &
        H28 & H32 & H34 & _ & H40).
  - reflexivity.
  - exists wav. split; [exact Hwav|].
    split; [rewrite Hbytes, length_app, Hlen; reflexivity|].
    repeat split; assumption.
Defined.

(** C4. The file the encoder resolves with is the 44-byte header followed by
    the bytes of the PCM blob, unchanged: its data chunk is the input, byte
    for byte, for an input of any length. *)
Theorem pcmToWav_payload (reader : FileReader) (pcmBlob : Blob)
        (sampleRate numChannels bitsPerSample : Q) :
  reader pcmBlob = onload (Some (blob_bytes pcmBlob)) ->
  exists wav,
    pcmToWav reader pcmBlob sampleRate numChannels bitsPerSample = Ok wav /\
    dataChunk (blob_bytes wav) = blob_bytes pcmBlob /\
    length (take 44 (blob_bytes wav)) = 44 /\
    blob_bytes wav = take 44 (blob_bytes wav) ++ blob_bytes pcmBlob /\
    length (blob_bytes wav) = 44 + length (blob_bytes pcmBlob).
Proof.
  intros Hread.
  pose proof (pcmToWav_loaded reader pcmBlob sampleRate numChannels bitsPerSample Hread) as H.
  cbv zeta in H.
  eexists. split; [exact H|]. cbn [blob_bytes].
  repeat split.
Qed.

Lemma pcmToWav_payload_witness :
  let pcm := mkBlob [x01; x00; xfe; xff] "audio/pcm" in
  exists wav,
    pcmToWav (fun b => onload (Some (blob_bytes b))) pcm 24000 1 16 = Ok wav /\
    dataChunk (blob_bytes wav) = [x01; x00; xfe; xff].
Proof.
  intros pcm.
  destruct (pcmToWav_payload (fun b => onload (Some (blob_bytes b))) pcm 24000 1 16)
    as (wav & Hwav & Hdata & _).
  - reflexivity.
  - exists wav. split; [exact Hwav | exact Hdata].
Defined.

End Encoder.

(** ** The playback transport *)

Section Transport.

Lemma clearTimer_dead (ref : option nat) (ivs : list Interval) :
  (forall tid iv, ivs !! tid = Some iv -> iv_live iv = true -> ref = Some tid) ->
  forall tid iv, clearTimer ref ivs !! tid = Some iv -> iv_live iv = false.
Proof.
  intros Honly tid iv Hlk. unfold clearTimer in Hlk.
  destruct ref as [tid0|].
  - rewrite list_lookup_alter in Hlk. destruct (decide (tid0 = tid)) as [->|Hne].
    + destruct (ivs !! tid); [|discriminate]. injection Hlk as <-. reflexivity.
    + destruct (iv_live iv) eqn:E; [|reflexivity].
      specialize (Honly tid iv Hlk E). congruence.
  - destruct (iv_live iv) eqn:E; [|reflexivity].
    specialize (Honly tid iv Hlk E). discriminate.
Qed.

Lemma alter_started (f : SourceNode -> SourceNode) (k : nat) (ns : list SourceNode) :
  (forall nd, nd_started (f nd) = nd_started nd) ->
  (forall id nd, ns !! id = Some nd -> nd_started nd = true) ->
  forall id nd, alter f k ns !! id = Some nd -> nd_started nd = true.
Proof.
  intros Hf Hall id nd Hlk. rewrite list_lookup_alter in Hlk.
  destruct (decide (k = id)) as [->|Hne].
  - destruct (ns !! id) as [nd0|] eqn:E; [|discriminate].
    injection Hlk as <-. rewrite Hf. eauto.
  - eauto.
Qed.

Lemma decodePcmData_rate (data : Uint8Array) (ctx : AudioContext) (rate : Q) (C : nat)
      (buf : AudioBuffer) :
  decodePcmData data ctx rate C = Ok buf -> ab_sampleRate buf = rate.
Proof.
  unfold decodePcmData. destruct (new_Int16Array (u8_buffer data)) as [d|e]; [|discriminate].
  cbn [mbind result_bind].
  destruct (createBuffer ctx C _ rate) as [b|e] eqn:Hcreate; [|discriminate].
  cbn [mbind result_bind]. intros [= <-].
  match goal with |- ab_sampleRate (foldl _ _ (seq 0 C)) = _ =>
    pose proof (decode_loops_channels
                  (fun channel i => div_32768 (d !! (i * C + channel)))
                  (loop_indices (inject_Z (Z.of_nat (length d)) / inject_Z (Z.of_nat C)))
                  (seq 0 C) b) as Hloops
  end.
  cbv zeta in Hloops. destruct Hloops as (_ & _ & -> & _).
  unfold createBuffer in Hcreate.
  repeat match type of Hcreate with
         | (if ?c then _ else _) = _ => destruct c; [discriminate|]
         end.
  injection Hcreate as <-. reflexivity.
Qed.

Lemma ab_duration_nonneg (buf : AudioBuffer) :
  (0 <= ab_sampleRate buf)%Q -> (0 <= ab_duration buf)%Q.
Proof.
  intros Hrate. unfold ab_duration.
  assert (Hlen : (0 <= inject_Z (Z.of_nat (ab_length buf)))%Q).
  { replace 0%Q with (inject_Z 0) by reflexivity. rewrite <- Zle_Qle. lia. }
  destruct (Qle_lt_or_eq _ _ Hrate) as [Hpos|Hzero].
  - apply Qle_shift_div_l; [assumption|]. rewrite Qmult_0_l. assumption.
  - unfold Qdiv. rewrite <- Hzero. cbn. rewrite Qmult_0_r. apply Qle_refl.
Qed.

Lemma wf_init : wf 0 initialPlayer.
Proof.
  split; cbn; try (intros; discriminate); try apply Qle_refl.
Qed.

Lemma wf_clock (t t' : Q) (s : Player) : (t <= t')%Q -> wf t s -> wf t' s.
Proof.
  intros Ht [H1 H2 H3 H4 H5 H6 H7 H8]. split; try assumption.
  eapply Qle_trans; eassumption.
Qed.

Lemma pendingSource_alter (f : SourceNode -> SourceNode) (k : nat) (s s' : Player) :
  (forall nd, nd_started (f nd) = nd_started nd) ->
  (forall nd, nd_ended (f nd) = nd_ended nd) ->
  sourceRef s' = sourceRef s ->
  nodes s' = alter f k (nodes s) ->
  pendingSource s -> pendingSource s'.
Proof.
  intros Hs He Hsrc Hnodes (id & nd & H1 & H2 & H3 & H4).
  destruct (decide (k = id)) as [->|Hne].
  - exists id, (f nd). rewrite Hsrc, Hnodes, list_lookup_alter_eq, H2, Hs, He. auto.
  - exists id, nd. rewrite Hsrc, Hnodes, list_lookup_alter_ne by assumption. auto.
Qed.

Lemma clearTimer_nil (ref : option nat) : clearTimer ref [] = [].
Proof. destruct ref; reflexivity. Qed.

Lemma wf_effectCleanup (t : Q) (s : Player) :
  wf t s ->
  wf t (effectCleanup s) /\
  (forall tid iv, intervals (effectCleanup s) !! tid = Some iv -> iv_live iv = false).
Proof.
  intros [H1 H2 H3 H4 H5 H6 H7 H8].
  assert (Hdead : forall tid iv,
             clearTimer (timerRef s) (intervals s) !! tid = Some iv -> iv_live iv = false).
  { apply clearTimer_dead. intros tid iv Hlk Hlive. apply (H7 tid iv Hlk Hlive). }
  assert (Htimer : forall tid iv,
             clearTimer (timerRef s) (intervals s) !! tid = Some iv -> iv_live iv = true ->
             timerRef s = Some tid /\ (0 <= iv_duration iv)%Q).
  { intros tid iv Hlk Hlive. rewrite (Hdead tid iv Hlk) in Hlive. discriminate. }
  unfold effectCleanup. destruct (sourceRef s) as [id|] eqn:Hsrc.
  - destruct (nodes s !! id) as [nd|] eqn:Hnd.
    + rewrite (H5 id nd Hnd). split; [|exact Hdead].
      split; cbn; try assumption.
      * intros Hp. eapply (pendingSource_alter stopNode id s); auto.
      * apply alter_started; auto.
      * intros id' Hid'. rewrite length_alter. auto.
      * intros _. exact Hdead.
    + apply lookup_ge_None_1 in Hnd. specialize (H6 id eq_refl). lia.
  - split; [|exact Hdead]. split; cbn; try assumption.
    + intros Hp. destruct (H4 Hp) as (id & nd & Hid & _). congruence.
    + intros _. exact Hdead.
Qed.

Lemma wf_runEffect (t : Q) (b : option Blob) (s : Player) :
  wf t s -> wf t (runEffect b s).
Proof.
  intros Hwf. unfold runEffect.
  assert (Hwf' : wf t (match audioBlob s with
                       | Some _ => effectCleanup s
                       | None => s
                       end)).
  { destruct (audioBlob s); [apply wf_effectCleanup|]; exact Hwf. }
  destruct Hwf' as [H1 H2 H3 H4 H5 H6 H7 H8]. split; assumption.
Qed.

Lemma wf_processAudio (t : Q) (blob : Blob) (s : Player) :
  wf t s -> wf t (processAudio blob s).
Proof.
  intros Hwf. unfold processAudio.
  destruct (decodePcmData _ AudioCTX 24000 1) as [buf|e] eqn:Hdec; [|exact Hwf].
  destruct Hwf as [H1 H2 H3 H4 H5 H6 H7 H8].
  assert (Hdur : (0 <= ab_duration buf)%Q).
  { apply ab_duration_nonneg. rewrite (decodePcmData_rate _ _ _ _ _ Hdec).
    unfold Qle. cbn. lia. }
  split; cbn; try assumption.
  apply Qle_refl.
Qed.

Lemma wf_loadAudio (t : Q) (blob : Blob) (s : Player) :
  wf t s -> wf t (loadAudio (Some blob) s).
Proof.
  intros Hwf. apply (wf_processAudio t blob (runEffect (Some blob) s)).
  apply wf_runEffect. exact Hwf.
Qed.

Lemma wf_play (t now : Q) (s : Player) :
  (t <= now)%Q -> wf t s -> wf now (play now s).
Proof.
  intros Ht Hwf. unfold play.
  destruct (audioBufferRef s) as [buf|] eqn:Hbuf; [|exact (wf_clock _ _ _ Ht Hwf)].
  destruct (isPlaying s) eqn:Hplaying; [exact (wf_clock _ _ _ Ht Hwf)|].
  destruct Hwf as [H1 H2 H3 H4 H5 H6 H7 H8].
  apply Qle_bool_iff in H1 as H1'. rewrite H1'.
  split; cbn; try assumption.
  - lra.
  - intros _. exists (length (nodes s)), (mkSourceNode buf (currentTime s) (duration s)
                                                      true false true false).
    cbn. rewrite lookup_app_r, Nat.sub_diag by lia. auto.
  - intros id nd Hlk. apply lookup_app_Some in Hlk as [Hlk|[_ Hlk]]; [eauto|].
    destruct (id - length (nodes s)) as [|k]; cbn in Hlk; [|discriminate].
    injection Hlk as <-. reflexivity.
  - intros id [= <-]. rewrite length_app. cbn. lia.
  - intros tid iv Hlk Hlive. apply lookup_app_Some in Hlk as [Hlk|[Hge Hlk]].
    + rewrite (H8 Hplaying tid iv Hlk) in Hlive. discriminate.
    + destruct (tid - length (intervals s)) as [|k] eqn:Hk; cbn in Hlk; [|discriminate].
      injection Hlk as <-. cbn. split; [f_equal; lia | assumption].
  - discriminate.
Qed.

Lemma wf_pause (t : Q) (s : Player) : wf t s -> wf t (pause s).
Proof.
  intros Hwf. unfold pause.
  destruct (isPlaying s) eqn:Hplaying; cbn [negb]; [|exact Hwf].
  destruct (sourceRef s) as [id|] eqn:Hsrc; [|exact Hwf].
  destruct (nodes s !! id) as [nd|] eqn:Hnd; [|exact Hwf].
  destruct (nd_started nd) eqn:Hst; [|exact Hwf].
  destruct Hwf as [H1 H2 H3 H4 H5 H6 H7 H8].
  assert (Hdead : forall tid iv,
             clearTimer (timerRef s) (intervals s) !! tid = Some iv -> iv_live iv = false).
  { apply clearTimer_dead. intros tid iv Hlk Hlive. apply (H7 tid iv Hlk Hlive). }
  split; cbn; try assumption.
  - discriminate.
  - apply alter_started; auto.
  - discriminate.
  - intros tid iv Hlk Hlive. rewrite (Hdead tid iv Hlk) in Hlive. discriminate.
  - intros _. exact Hdead.
Qed.

Lemma wf_tick (t now : Q) (tid : nat) (s s' : Player) :
  (t <= now)%Q -> wf t s -> tick tid now s = Some s' -> wf now s'.
Proof.
  intros Ht [H1 H2 H3 H4 H5 H6 H7 H8]. unfold tick.
  destruct (intervals s !! tid) as [iv|] eqn:Hiv; [|discriminate].
  destruct (iv_live iv) eqn:Hlive; [|discriminate].
  intros [= <-].
  destruct (H7 tid iv Hiv Hlive) as [_ Hdur].
  split; cbn; try assumption.
  - apply Q.min_glb; lra.
  - lra.
Qed.

Lemma wf_onended (t now : Q) (id : nat) (s s' : Player) :
  (t <= now)%Q -> wf t s -> onended id now s = Some s' -> wf now s'.
Proof.
  intros Ht [H1 H2 H3 H4 H5 H6 H7 H8]. unfold onended.
  destruct (nodes s !! id) as [nd|] eqn:Hnd; [|discriminate].
  destruct (nd_started nd && negb (nd_ended nd)); [|discriminate].
  intros [= <-].
  assert (Hdead : forall tid iv,
             clearTimer (timerRef s) (intervals s) !! tid = Some iv -> iv_live iv = false).
  { apply clearTimer_dead. intros tid iv Hlk Hlive. apply (H7 tid iv Hlk Hlive). }
  split; cbn; try assumption.
  - destruct (Qle_bool _ _); [apply Qle_refl | assumption].
  - lra.
  - discriminate.
  - apply alter_started; auto.
  - intros id' Hid'. rewrite length_alter. auto.
  - intros tid iv Hlk Hlive. rewrite (Hdead tid iv Hlk) in Hlive. discriminate.
  - intros _. exact Hdead.
Qed.

Lemma trajectory_wf (pending : list Blob) (t : Q) (s : Player) :
  trajectory pending t s -> wf t s.
Proof.
  induction 1 as [|pending t s b _ IH|pending1 blob pending2 t s _ IH
                  |pending t s now _ IH Ht|pending t s _ IH
                  |pending t s tid now s' _ IH Ht Htick
                  |pending t s id now s' _ IH Ht Hend].
  - exact wf_init.
  - apply wf_runEffect. exact IH.
  - apply wf_processAudio. exact IH.
  - apply (wf_play t); assumption.
  - apply wf_pause. exact IH.
  - apply (wf_tick t now tid s); assumption.
  - apply (wf_onended t now id s); assumption.
Qed.

Lemma reachable_wf (t : Q) (s : Player) : reachable t s -> wf t s.
Proof. intros [pending H]. exact (trajectory_wf pending t s H). Qed.

(** The steps of [trajectory], on [reachable]. *)
Lemma reach_init : reachable 0 initialPlayer.
Proof. exists []. constructor. Qed.

Lemma reach_effect (t : Q) (s : Player) (b : option Blob) :
  reachable t s -> reachable t (runEffect b s).
Proof. intros [pending H]. eexists. apply traj_effect. exact H. Qed.

Lemma reach_load (t : Q) (s : Player) (blob : Blob) :
  reachable t s -> reachable t (loadAudio (Some blob) s).
Proof.
  intros [pending H]. exists pending.
  apply (traj_decoded [] blob pending t (runEffect (Some blob) s)).
  apply (traj_effect pending t s (Some blob)). exact H.
Qed.

Lemma reach_play (t : Q) (s : Player) (now : Q) :
  reachable t s -> (t <= now)%Q -> reachable now (play now s).
Proof. intros [pending H] Ht. exists pending. apply (traj_play pending t); assumption. Qed.

Lemma reach_pause (t : Q) (s : Player) : reachable t s -> reachable t (pause s).
Proof. intros [pending H]. exists pending. apply traj_pause. exact H. Qed.


Lemma reach_ended (t : Q) (s : Player) (id : nat) (now : Q) (s' : Player) :
  reachable t s -> (t <= now)%Q -> onended id now s = Some s' -> reachable now s'.
Proof.
  intros [pending H] Ht Hev. exists pending.
  apply (traj_ended pending t s id); assumption.
Qed.

(** *** A player that keeps its one clip *)

Lemma ws_processAudio (clip : Blob) (s : Player) :
  wf_session s -> audioBufferRef s = None -> wf_session (processAudio clip s).
Proof.
  intros Hws Hnone. unfold processAudio.
  destruct (decodePcmData _ AudioCTX 24000 1) as [buf|e] eqn:Hdec; [|exact Hws].
  destruct Hws as [W1 W2 W3 W4]. destruct (W4 Hnone) as [Hidle Hnil].
  assert (Hdur : (0 <= ab_duration buf)%Q).
  { apply ab_duration_nonneg. rewrite (decodePcmData_rate _ _ _ _ _ Hdec).
    unfold Qle. cbn. lia. }
  split; cbn.
  - exact Hdur.
  - intros Hp. congruence.
  - intros tid iv Hlk. rewrite Hnil, lookup_nil in Hlk. discriminate.
  - discriminate.
Qed.

Lemma ws_play (t now : Q) (s : Player) :
  wf t s -> wf_session s -> wf_session (play now s).
Proof.
  intros Hwf Hws. unfold play.
  destruct (audioBufferRef s) as [buf|] eqn:Hbuf; [|exact Hws].
  destruct (isPlaying s) eqn:Hplaying; [exact Hws|].
  pose proof (wf_time_lo t s Hwf) as H1. apply Qle_bool_iff in H1. rewrite H1.
  destruct Hws as [W1 W2 W3 W4].
  split; cbn.
  - exact W1.
  - intros _. exists (length (nodes s)), (mkSourceNode buf (currentTime s) (duration s)
                                                      true false true false).
    cbn. rewrite lookup_app_r, Nat.sub_diag by lia. auto.
  - intros tid iv Hlk Hlive. apply lookup_app_Some in Hlk as [Hlk|[Hge Hlk]].
    + rewrite (wf_idle t s Hwf Hplaying tid iv Hlk) in Hlive. discriminate.
    + destruct (tid - length (intervals s)) as [|k] eqn:Hk; cbn in Hlk; [|discriminate].
      injection Hlk as <-. reflexivity.
  - discriminate.
Qed.

Lemma ws_pause (t : Q) (s : Player) :
  wf t s -> wf_session s -> wf_session (pause s).
Proof.
  intros Hwf Hws. unfold pause.
  destruct (isPlaying s) eqn:Hplaying; cbn [negb]; [|exact Hws].
  destruct (sourceRef s) as [id|] eqn:Hsrc; [|exact Hws].
  destruct (nodes s !! id) as [nd|] eqn:Hnd; [|exact Hws].
  destruct (nd_started nd) eqn:Hst; [|exact Hws].
  destruct Hws as [W1 W2 W3 W4].
  assert (Hdead : forall tid iv,
             clearTimer (timerRef s) (intervals s) !! tid = Some iv -> iv_live iv = false).
  { apply clearTimer_dead. intros tid iv Hlk Hlive. apply (wf_timer t s Hwf tid iv Hlk Hlive). }
  split; cbn.
  - exact W1.
  - discriminate.
  - intros tid iv Hlk Hlive. rewrite (Hdead tid iv Hlk) in Hlive. discriminate.
  - intros Hnone. destruct (W4 Hnone) as [Hidle _]. congruence.
Qed.

Lemma ws_tick (tid : nat) (now : Q) (s s' : Player) :
  wf_session s -> tick tid now s = Some s' -> wf_session s'.
Proof.
  intros [W1 W2 W3 W4]. unfold tick.
  destruct (intervals s !! tid) as [iv|] eqn:Hiv; [|discriminate].
  destruct (iv_live iv) eqn:Hlive; [|discriminate].
  intros [= <-]. split; cbn; try assumption.
  rewrite <- (W3 tid iv Hiv Hlive). apply Q.le_min_r.
Qed.

Lemma ws_onended (t : Q) (id : nat) (now : Q) (s s' : Player) :
  wf t s -> wf_session s -> onended id now s = Some s' -> wf_session s'.
Proof.
  intros Hwf [W1 W2 W3 W4]. unfold onended.
  destruct (nodes s !! id) as [nd|] eqn:Hnd; [|discriminate].
  destruct (nd_started nd && negb (nd_ended nd)); [|discriminate].
  intros [= <-].
  assert (Hdead : forall tid iv,
             clearTimer (timerRef s) (intervals s) !! tid = Some iv -> iv_live iv = false).
  { apply clearTimer_dead. intros tid iv Hlk Hlive. apply (wf_timer t s Hwf tid iv Hlk Hlive). }
  split; cbn.
  - destruct (Qle_bool _ _); [apply (wf_duration t s Hwf) | assumption].
  - discriminate.
  - intros tid iv Hlk Hlive. rewrite (Hdead tid iv Hlk) in Hlive. discriminate.
  - intros Hnone. destruct (W4 Hnone) as [_ Hnil]. rewrite Hnil, clearTimer_nil. auto.
Qed.

Lemma session_wf (clip : Blob) (t : Q) (s : Player) :
  session clip t s -> wf t s /\ wf_session s.
Proof.
  induction 1 as [|t s _ [IH IHs] Hnone|t s now _ [IH IHs] Ht|t s _ [IH IHs]
                  |t s tid now s' _ [IH IHs] Ht Htick|t s id now s' _ [IH IHs] Ht Hend].
  - split; [apply wf_runEffect; exact wf_init|].
    split; cbn; try (intros; discriminate); try apply Qle_refl. auto.
  - split; [apply wf_processAudio; exact IH | apply ws_processAudio; assumption].
  - split; [apply (wf_play t); assumption | apply (ws_play t); assumption].
  - split; [apply wf_pause; exact IH | apply (ws_pause t); assumption].
  - split; [apply (wf_tick t now tid s); assumption | apply (ws_tick tid now s); assumption].
  - split; [apply (wf_onended t now id s); assumption
           | apply (ws_onended t id now s); assumption].
Qed.




Lemma play_idle (now : Q) (s : Player) (buf : AudioBuffer) :
  audioBufferRef s = Some buf -> isPlaying s = false -> (0 <= currentTime s)%Q ->
  play now s =
  mkPlayer true (duration s) (currentTime s) (audioBufferRef s)
           (Some (length (nodes s))) (Some (length (intervals s)))
           (now - currentTime s)%Q (audioBlob s)
           (nodes s ++ [mkSourceNode buf (currentTime s) (duration s) true false true false])
           (intervals s ++ [mkInterval (duration s) true]).
Proof.
  intros Hbuf Hidle Hpos. unfold play. rewrite Hbuf, Hidle.
  apply Qle_bool_iff in Hpos. rewrite Hpos. reflexivity.
Qed.






Lemma session_demo :
  let clip := mkBlob [x00; x00; xff; x7f; x00; x80] "audio/pcm" in
  let s1 := play 0 (loadAudio (Some clip) initialPlayer) in
  let s2 := default initialPlayer (tick 0 (1 # 16000) s1) in
  session clip (1 # 16000) s2.
Proof.
  intros clip s1 s2.
  apply (sess_tick clip 0 s1 0 (1 # 16000) s2).
  - apply (sess_play clip 0 (loadAudio (Some clip) initialPlayer) 0).
    + apply (sess_decoded clip 0 (runEffect (Some clip) initialPlayer)).
      * apply sess_effect.
      * reflexivity.
    + unfold Qle. cbn. lia.
  - unfold Qle. cbn. lia.
  - vm_compute. reflexivity.
Qed.


End Transport.

(** ** The generation orchestrator *)

Section Orchestrator.

Ltac run_handler :=
  cbv beta iota zeta delta
    [invoke handleGenerateRevelation handleGeneratePrayer resolveTheme
     try_finally try_catch getGeminiResponse getGeminiResponse_audio
     generateContent_text generateContent_audio saveRevelationToDB
     setIsLoading setIsLoadingPrayer setError setPrayer setRevelation
     setPlayRevelationOnLoad console_error throw update random
     mbind mret M_bind M_ret fst snd appState store trace
     todayString revelation prayer isLoading isLoadingPrayer error
     playRevelationOnLoad rev_date].

(** The revelation handler, run to completion, by the answers it gets. *)
Lemma handleGenerateRevelation_run (env : Env) (σ : Sys) (name theme : string) :
  invoke (fun cl => handleGenerateRevelation cl name theme) env σ =
  let finalTheme :=
    if String.eqb theme "Surpreenda-me" then pickTheme (Math_random env) else theme in
  let prompt := revelationPrompt name finalTheme in
  let a := appState σ in
  let pre := trace σ ++ [EvSetIsLoading true; EvSetError EmptyString; EvSetPrayer None;
                         EvGenerateContent "gemini-2.5-flash" prompt] in
  let failed evs :=
    mkSys (mkAppState (todayString a) (revelation a) None false (isLoadingPrayer a)
                      REVELATION_ERROR (playRevelationOnLoad a))
          (store σ) (pre ++ evs) in
  match api_text env prompt with
  | Throw _ => failed [EvConsoleError; EvSetError REVELATION_ERROR; EvSetIsLoading false]
  | Ok text =>
    let tts := EvGenerateContent "gemini-2.5-flash-preview-tts" text in
    match api_audio env text with
    | Ok (Some bytes) =>
      let rev := mkRevelation (todayString a) text (mkBlob bytes "audio/pcm")
                              name finalTheme in
      match idb_put env rev with
      | Ok _ =>
        mkSys (mkAppState (todayString a) (Some rev) None false (isLoadingPrayer a)
                          EmptyString true)
              (<[todayString a := rev]> (store σ))
              (pre ++ [tts; EvSetRevelation rev; EvDbPut rev;
                       EvSetPlayRevelationOnLoad true; EvSetIsLoading false])
      | Throw _ =>
        mkSys (mkAppState (todayString a) (Some rev) None false (isLoadingPrayer a)
                          REVELATION_ERROR (playRevelationOnLoad a))
              (store σ)
              (pre ++ [tts; EvSetRevelation rev; EvDbPut rev;
                       EvSetError REVELATION_ERROR; EvSetIsLoading false])
      end
    | _ => failed [tts; EvConsoleError; EvSetError REVELATION_ERROR; EvSetIsLoading false]
    end
  end.
Proof.
  run_handler.
  destruct (String.eqb theme "Surpreenda-me"); run_handler;
    (destruct (api_text env _) as [text|e]; run_handler;
     [destruct (api_audio env text) as [[bytes|]|e]; run_handler;
      [destruct (idb_put env _) as [u|e]; run_handler | |] |]);
    rewrite <- ?app_assoc; reflexivity.
Qed.

(** The prayer handler, run to completion, by the answers it gets. *)
Lemma handleGeneratePrayer_run (env : Env) (σ : Sys) :
  invoke handleGeneratePrayer env σ =
  let a := appState σ in
  match revelation a with
  | None => σ
  | Some rev =>
    let prompt := prayerPrompt (rev_theme rev) (rev_name rev) in
    let pre := trace σ ++ [EvSetIsLoadingPrayer true; EvSetError EmptyString;
                           EvGenerateContent "gemini-2.5-flash" prompt] in
    let failed evs :=
      mkSys (mkAppState (todayString a) (revelation a) (prayer a) (isLoading a) false
                        PRAYER_ERROR (playRevelationOnLoad a))
            (store σ) (pre ++ evs) in
    match api_text env prompt with
    | Throw _ => failed [EvConsoleError; EvSetError PRAYER_ERROR; EvSetIsLoadingPrayer false]
    | Ok text =>
      let tts := EvGenerateContent "gemini-2.5-flash-preview-tts" text in
      match api_audio env text with
      | Ok (Some bytes) =>
        let p := mkPrayer text (mkBlob bytes "audio/pcm") in
        mkSys (mkAppState (todayString a) (revelation a) (Some p) (isLoading a) false
                          EmptyString (playRevelationOnLoad a))
              (store σ)
              (pre ++ [tts; EvSetPrayer (Some p); EvSetIsLoadingPrayer false])
      | _ => failed [tts; EvConsoleError; EvSetError PRAYER_ERROR;
                     EvSetIsLoadingPrayer false]
      end
    end
  end.
Proof.
  destruct σ as [[today [rev|] p il ilp err prol] st tr]; run_handler; [|reflexivity].
  destruct (api_text env _) as [text|e]; run_handler;
    [destruct (api_audio env text) as [[bytes|]|e]; run_handler |];
    rewrite <- ?app_assoc; reflexivity.
Qed.

(** C5. When the text is generated and the speech synthesis fails (the
    request or the decoding of its answer throws, or the answer carries no
    inline data), the handler puts nothing in the store and leaves the
    revelation of the state as it was: the text is dropped. The request ends
    with the generic message in [error] and [isLoading] off. *)
Theorem speech_failure_discards_text (env : Env) (σ : Sys) (name theme text : string) :
  let finalTheme :=
    if String.eqb theme "Surpreenda-me" then pickTheme (Math_random env) else theme in
  let prompt := revelationPrompt name finalTheme in
  api_text env prompt = Ok text ->
  (forall bytes, api_audio env text <> Ok (Some bytes)) ->
  let σ' := invoke (fun cl => handleGenerateRevelation cl name theme) env σ in
  store σ' = store σ /\
  revelation (appState σ') = revelation (appState σ) /\
  error (appState σ') = REVELATION_ERROR /\
  isLoading (appState σ') = false /\
  playRevelationOnLoad (appState σ') = playRevelationOnLoad (appState σ) /\
  trace σ' = trace σ ++
             [EvSetIsLoading true; EvSetError EmptyString; EvSetPrayer None;
              EvGenerateContent "gemini-2.5-flash" prompt;
              EvGenerateContent "gemini-2.5-flash-preview-tts" text;
              EvConsoleError; EvSetError REVELATION_ERROR; EvSetIsLoading false].
Proof.
  intros finalTheme prompt Htext Haudio σ'.
  unfold σ'. rewrite handleGenerateRevelation_run. cbv zeta.
  fold finalTheme. fold prompt. rewrite Htext.
  destruct (api_audio env text) as [[bytes|]|e] eqn:E;
    try (exfalso; apply (Haudio bytes); reflexivity);
    cbn [store appState revelation error isLoading playRevelationOnLoad trace];
    rewrite <- ?app_assoc; repeat split; reflexivity.
Qed.

Lemma speech_failure_discards_text_witness :
  let env := mkEnv (fun _ => Ok "texto") (fun _ => Throw (Error "tts"))
                   (fun _ => Ok tt) 0 in
  let σ' := invoke (fun cl => handleGenerateRevelation cl "Ana" "Amor") env initialApp in
  store σ' = ∅ /\ revelation (appState σ') = None /\
  error (appState σ') = REVELATION_ERROR /\ isLoading (appState σ') = false.
Proof.
  intros env σ'.
  destruct (speech_failure_discards_text env initialApp "Ana" "Amor" "texto")
    as (Hstore & Hrev & Herr & Hload & _).
  - reflexivity.
  - intros bytes. discriminate.
  - repeat split; assumption.
Defined.

(** C10. Whatever the services answer, [handleGenerateRevelation] sets the
    prayer to absent after its first two state updates and before its first
    request, nothing it does afterwards sets the prayer, and the prayer is
    absent when it ends. *)
Theorem regeneration_resets_prayer (env : Env) (σ : Sys) (name theme : string) :
  let σ' := invoke (fun cl => handleGenerateRevelation cl name theme) env σ in
  prayer (appState σ') = None /\
  exists prompt rest,
    trace σ' = trace σ ++ EvSetIsLoading true :: EvSetError EmptyString ::
                          EvSetPrayer None ::
                          EvGenerateContent "gemini-2.5-flash" prompt :: rest /\
    Forall (fun ev => match ev with EvSetPrayer _ => False | _ => True end) rest.
Proof.
  intros σ'. unfold σ'. rewrite handleGenerateRevelation_run. cbv zeta.
  destruct (api_text env _) as [text|e].
  - destruct (api_audio env text) as [[bytes|]|e];
      [destruct (idb_put env _) as [u|e] | |];
      (split; [reflexivity|]); cbn [trace]; rewrite <- app_assoc;
      eexists _, _; (split; [reflexivity|]); repeat constructor.
  - split; [reflexivity|]. cbn [trace]. rewrite <- app_assoc.
    eexists _, _. split; [reflexivity|]. repeat constructor.
Qed.




(** *** The theme catalog and the prompt *)

Lemma list_ascii_of_string_app (a b : string) :
  list_ascii_of_string (a +:+ b) = list_ascii_of_string a ++ list_ascii_of_string b.
Proof.
  induction a as [|c a IH]; simpl; [reflexivity|]. rewrite IH. reflexivity.
Qed.

Lemma is_prefix_app (p r : list ascii) : is_prefix p (p ++ r) = true.
Proof.
  induction p as [|c p IH]; cbn; [reflexivity|].
  rewrite Ascii.eqb_refl, IH. reflexivity.
Qed.

Lemma has_infix_complete (p l r : list ascii) : has_infix p (l ++ p ++ r) = true.
Proof.
  induction l as [|c l IH].
  - cbn [List.app]. destruct (p ++ r) eqn:E; cbn; rewrite <- ?E, is_prefix_app; reflexivity.
  - cbn. rewrite IH. apply orb_true_r.
Qed.

Lemma no_infix (pat s : string) :
  has_infix (list_ascii_of_string pat) (list_ascii_of_string s) = false ->
  ~ occurs_in pat s.
Proof.
  intros H (l & r & E). rewrite E, has_infix_complete in H. discriminate.
Qed.

Lemma is_prefix_sound (p s : list ascii) :
  is_prefix p s = true -> exists r, s = p ++ r.
Proof.
  revert s. induction p as [|a p IH]; intros s H.
  - exists s. reflexivity.
  - destruct s as [|b s]; [discriminate|]. cbn in H.
    apply andb_true_iff in H as [Hab Hp]. apply Ascii.eqb_eq in Hab as ->.
    destruct (IH s Hp) as [r ->]. exists r. reflexivity.
Qed.

Lemma has_infix_sound (p s : list ascii) :
  has_infix p s = true -> exists l r, s = l ++ p ++ r.
Proof.
  induction s as [|b s IH]; intros H.
  - cbn in H. rewrite orb_false_r in H. destruct (is_prefix_sound _ _ H) as [r E].
    exists [], r. exact E.
  - cbn [has_infix] in H. apply orb_true_iff in H as [H|H].
    + destruct (is_prefix_sound _ _ H) as [r E]. exists [], r. exact E.
    + destruct (IH H) as (l & r & ->). exists (b :: l), r. reflexivity.
Qed.

(** Whether a pattern occurs in a string can be computed. *)
Lemma occurs_in_dec (pat s : string) : occurs_in pat s \/ ~ occurs_in pat s.
Proof.
  destruct (has_infix (list_ascii_of_string pat) (list_ascii_of_string s)) eqn:E.
  - left. exact (has_infix_sound _ _ E).
  - right. exact (no_infix pat s E).
Qed.

(** A pattern without the character [c] that occurs in [x ++ c :: y] occurs
    in [x] or in [y]. *)
Lemma infix_split (c : ascii) (p x y : list ascii) :
  ~ In c p ->
  (exists l r, x ++ c :: y = l ++ p ++ r) ->
  (exists l r, x = l ++ p ++ r) \/ (exists l r, y = l ++ p ++ r).
Proof.
  intros Hc (l & r & E).
  apply app_eq_app in E as [m [[Hx Hy]|[Hl Hy]]].
  - (* the occurrence starts inside [x] *)
    symmetry in Hy. apply app_eq_app in Hy as [m' [[Hm Hr]|[Hp Hr]]].
    + left. exists l, m'. rewrite Hx, Hm. reflexivity.
    + destruct m' as [|c' m'].
      * left. exists l, []. rewrite Hx, Hp, !app_nil_r. reflexivity.
      * exfalso. apply Hc. cbn in Hr. injection Hr as -> _.
        rewrite Hp. apply in_or_app. right. left. reflexivity.
  - (* the occurrence starts at or after [c] *)
    destruct m as [|c' m].
    + cbn in Hy. destruct p as [|c0 p].
      * left. exists x, []. rewrite app_nil_r. reflexivity.
      * exfalso. apply Hc. injection Hy as -> _. left. reflexivity.
    + right. cbn in Hy. injection Hy as _ ->. exists m, r. reflexivity.
Qed.

Lemma revelationPrompt_shape :
  exists pA pB pC : list ascii,
    (has_infix (list_ascii_of_string SURPRISE) pA = false /\
     has_infix (list_ascii_of_string SURPRISE) pB = false /\
     has_infix (list_ascii_of_string SURPRISE) pC = false) /\
    forall name theme,
      list_ascii_of_string (revelationPrompt name theme) =
      pA ++ " "%char :: list_ascii_of_string name ++
      " "%char :: pB ++ ascii_of_nat 34 :: list_ascii_of_string theme ++
      ascii_of_nat 34 :: pC.
Proof.
  exists (list_ascii_of_string "Crie uma reflexão bíblica inspiradora e pessoal para"),
         (list_ascii_of_string "sobre o tema "),
         (list_ascii_of_string
            (". A mensagem deve ser calorosa, encorajadora, direta e ter no máximo 1 minuto de duração quando lida. Não inclua saudações como " +:+
             dquote +:+ "Olá" +:+ dquote +:+ " ou " +:+ dquote +:+ "Querido(a)" +:+ dquote +:+
             ". Vá direto para a mensagem.")).
  split.
  - repeat split; vm_compute; reflexivity.
  - intros name theme. unfold revelationPrompt.
    rewrite !list_ascii_of_string_app. reflexivity.
Qed.

Lemma ascii_not_in (c : ascii) (p : list ascii) :
  existsb (Ascii.eqb c) p = false -> ~ In c p.
Proof.
  intros H Hin. assert (existsb (Ascii.eqb c) p = true); [|congruence].
  apply existsb_exists. exists c. split; [assumption | apply Ascii.eqb_refl].
Qed.

(** The sentinel occurs in a prompt only inside the name or the theme that
    were put into it. *)
Lemma revelationPrompt_sentinel (name theme : string) :
  ~ occurs_in SURPRISE name -> ~ occurs_in SURPRISE theme ->
  ~ occurs_in SURPRISE (revelationPrompt name theme).
Proof.
  intros Hname Htheme Hocc.
  destruct revelationPrompt_shape as (pA & pB & pC & (HA & HB & HC) & Hshape).
  unfold occurs_in in Hocc. rewrite Hshape in Hocc.
  assert (Hsp : ~ In " "%char (list_ascii_of_string SURPRISE))
    by (apply ascii_not_in; reflexivity).
  assert (Hdq : ~ In (ascii_of_nat 34) (list_ascii_of_string SURPRISE))
    by (apply ascii_not_in; reflexivity).
  assert (Hno : forall q, has_infix (list_ascii_of_string SURPRISE) q = false ->
                          ~ exists l r, q = l ++ list_ascii_of_string SURPRISE ++ r).
  { intros q Hq (l & r & E). rewrite E, has_infix_complete in Hq. discriminate. }
  apply (infix_split _ _ _ _ Hsp) in Hocc as [Hocc|Hocc]; [exact (Hno pA HA Hocc)|].
  apply (infix_split _ _ _ _ Hsp) in Hocc as [Hocc|Hocc]; [exact (Hname Hocc)|].
  apply (infix_split _ _ _ _ Hdq) in Hocc as [Hocc|Hocc]; [exact (Hno pB HB Hocc)|].
  apply (infix_split _ _ _ _ Hdq) in Hocc as [Hocc|Hocc]; [exact (Htheme Hocc)|].
  exact (Hno pC HC Hocc).
Qed.

Lemma ALL_THEMES_length : length ALL_THEMES = 18.
Proof. reflexivity. Qed.

Lemma ALL_THEMES_without_sentinel (t : string) :
  In t ALL_THEMES -> t <> SURPRISE /\ ~ occurs_in SURPRISE t.
Proof.
  intros Hin.
  assert (H : forallb (fun t => negb (has_infix (list_ascii_of_string SURPRISE)
                                                (list_ascii_of_string t)))
                      ALL_THEMES = true) by (vm_compute; reflexivity).
  rewrite forallb_forall in H. specialize (H t Hin).
  apply negb_true_iff in H. split.
  - intros ->. apply (no_infix SURPRISE SURPRISE H).
    exists [], []. rewrite app_nil_r. reflexivity.
  - apply no_infix. exact H.
Qed.

Lemma Qfloor_between (x : Q) (k : Z) :
  Qfloor x = k <-> (inject_Z k <= x /\ x < inject_Z (k + 1))%Q.
Proof.
  split.
  - intros <-. split; [apply Qfloor_le | apply Qlt_floor].
  - intros [Hlo Hhi].
    pose proof (Qfloor_le x) as H1. pose proof (Qlt_floor x) as H2.
    assert (Ha : (inject_Z (Qfloor x) < inject_Z (k + 1))%Q) by lra.
    assert (Hb : (inject_Z k < inject_Z (Qfloor x + 1))%Q) by lra.
    rewrite <- Zlt_Qlt in Ha, Hb. lia.
Qed.

Lemma themeIndex_lower (r : Q) (k : Z) :
  (0 <= r)%Q -> (r < 1)%Q -> (inject_Z k / 18 <= r)%Q -> (k <= themeIndex r)%Z.
Proof.
  intros H0 H1 Hk. unfold themeIndex. change (inject_Z (Z.of_nat (length ALL_THEMES))) with 18%Q.
  apply Qfloor_ge.
  assert (Hx : (inject_Z k <= r * 18)%Q).
  { assert (E : (inject_Z k == inject_Z k / 18 * 18)%Q) by field. lra. }
  destruct (Qlt_le_dec 0 (r * 18)) as [Hpos|Hneg].
  - apply fl64_ge_integer; [exact Hpos | exact Hx |].
    assert (Hp : (32 <= pow2 53)%Q) by (vm_compute; discriminate). lra.
  - pose proof (fl64_nonneg (r * 18)) as Hnn. lra.
Qed.

Lemma themeIndex_upper (r : Q) (k : Z) :
  (0 <= r)%Q -> (0 <= k < 18)%Z -> (r <= inject_Z (k + 1) / 18 - pow2 (-50))%Q ->
  (themeIndex r <= k)%Z.
Proof.
  intros H0 Hk Hr. unfold themeIndex. change (inject_Z (Z.of_nat (length ALL_THEMES))) with 18%Q.
  assert (Hlt : (Qfloor (fl64 (r * 18)) < k + 1)%Z); [|lia].
  assert (Hk1 : (inject_Z (k + 1) <= 18)%Q).
  { change 18%Q with (inject_Z 18). rewrite <- Zle_Qle. lia. }
  assert (Hk0 : (0 < inject_Z (k + 1))%Q).
  { change 0%Q with (inject_Z 0). rewrite <- Zlt_Qlt. lia. }
  assert (Hx : (r * 18 <= inject_Z (k + 1) - 18 * pow2 (-50))%Q).
  { assert (E : (inject_Z (k + 1) == inject_Z (k + 1) / 18 * 18)%Q) by field. lra. }
  assert (H50 : (pow2 (-50) == 1 # 1125899906842624)%Q) by reflexivity.
  apply Qfloor_lt.
  destruct (Qlt_le_dec 0 (r * 18)) as [Hpos|Hneg].
  - assert (H32 : (r * 18 < 32)%Q) by lra.
    pose proof (exponent64_below_32 _ Hpos H32) as He.
    pose proof (pow2_le _ _ He) as Hu.
    assert (H48 : (pow2 (-48) == 1 # 281474976710656)%Q) by reflexivity.
    apply fl64_lt_integer; [exact Hpos | |].
    + assert (Hp : (32 <= pow2 53)%Q) by (vm_compute; discriminate). lra.
    + lra.
  - rewrite (fl64_zero (r * 18)) by lra. exact Hk0.
Qed.


Lemma themeIndex_in_range (r : Q) :
  isDouble r -> (0 <= r)%Q -> (r < 1)%Q -> (0 <= themeIndex r < 18)%Z.
Proof.
  intros Hd H0 H1. split.
  - apply (themeIndex_lower r 0 H0 H1).
    assert (E : (inject_Z 0 / 18 == 0)%Q) by reflexivity. rewrite E. exact H0.
  - pose proof (double_below_1 r Hd H0 H1) as Hr.
    assert (H53 : (pow2 (-53) == 1 # 9007199254740992)%Q) by reflexivity.
    unfold themeIndex. change (inject_Z (Z.of_nat (length ALL_THEMES))) with 18%Q. apply Qfloor_lt.
    change (inject_Z 18) with 18%Q.
    destruct (Qlt_le_dec 0 (r * 18)) as [Hpos|Hneg];
      [|rewrite (fl64_zero (r * 18)) by lra; reflexivity].
    assert (Hp : (32 <= pow2 53)%Q) by (vm_compute; discriminate).
    destruct (Qlt_le_dec (r * 18) 16) as [Hsmall|Hbig].
    + assert (H16 : (fl64 (r * 18) <= inject_Z 16)%Q).
      { apply fl64_le_integer; [exact Hpos | | lra].
        change (inject_Z 16) with 16%Q. lra. }
      change (inject_Z 16) with 16%Q in H16. lra.
    + assert (He : exponent64 (r * 18) = (-48)%Z).
      { unfold exponent64. rewrite (Qlog2_unique (r * 18) 4); [reflexivity | |].
        - change (pow2 4) with 16%Q. exact Hbig.
        - change (pow2 (4 + 1)) with 32%Q. lra. }
      change 18%Q with (inject_Z 18) at 2. apply fl64_lt_integer; [exact Hpos | lra |].
      rewrite He. assert (H48 : (pow2 (-48) == 1 # 281474976710656)%Q) by reflexivity.
      change (inject_Z 18) with 18%Q. lra.
Qed.

Lemma pickTheme_nth (r : Q) :
  (0 <= themeIndex r)%Z ->
  pickTheme r = nth (Z.to_nat (themeIndex r)) ALL_THEMES "undefined".
Proof.
  intros H. unfold pickTheme. cbv zeta.
  destruct (themeIndex r <? 0)%Z eqn:E; [apply Z.ltb_lt in E; lia | reflexivity].
Qed.

(** Whatever [Math.random()] gives, the theme that is drawn is not the
    sentinel and does not contain it. *)
Lemma pickTheme_without_sentinel (r : Q) :
  pickTheme r <> SURPRISE /\ ~ occurs_in SURPRISE (pickTheme r).
Proof.
  assert (Hundef : "undefined" <> SURPRISE /\ ~ occurs_in SURPRISE "undefined").
  { split; [discriminate|]. apply no_infix. vm_compute. reflexivity. }
  unfold pickTheme. cbv zeta. destruct (themeIndex r <? 0)%Z; [exact Hundef|].
  destruct (nth_in_or_default (Z.to_nat (themeIndex r)) ALL_THEMES "undefined") as [Hin | ->].
  - apply ALL_THEMES_without_sentinel. exact Hin.
  - exact Hundef.
Qed.

(** What is in the name is in the prompt. *)
Lemma revelationPrompt_carries_name (pat name theme : string) :
  occurs_in pat name -> occurs_in pat (revelationPrompt name theme).
Proof.
  intros (l & r & E).
  destruct revelationPrompt_shape as (pA & pB & pC & _ & Hshape).
  unfold occurs_in. rewrite Hshape, E.
  exists (pA ++ " "%char :: l),
         (r ++ " "%char :: pB ++ ascii_of_nat 34 :: list_ascii_of_string theme ++
            ascii_of_nat 34 :: pC).
  rewrite <- !app_assoc. cbn [List.app]. rewrite <- ?app_assoc. reflexivity.
Qed.

(** The product is rounded: just below [16 / 18] it is 16, and entry 16 is
    drawn where the exact product would give entry 15. *)
Example boundary_draw_rounds_up :
  let r := (8006399337547548 # 9007199254740992)%Q in
  isDouble r /\ (r < 16 / 18)%Q /\ themeIndex r = 16%Z /\ pickTheme r = "Sabedoria".
Proof.
  cbv zeta. split; [vm_compute; reflexivity|]. split; [vm_compute; reflexivity|].
  split; vm_compute; reflexivity.
Qed.

(** C6 does not hold as the specification words it. The name the user typed
    goes into the prompt as it is, so the sentinel typed as a name is sent to
    the text model; and the catalog is not a superset of the visible list,
    which has the sentinel as its last entry. *)
Lemma sentinel_typed_as_name_is_sent :
  let env := mkEnv (fun _ => Ok "texto") (fun _ => Ok (Some [x01; x00]))
                   (fun _ => Ok tt) (1 # 2) in
  let σ' := invoke (fun cl => handleGenerateRevelation cl "Surpreenda-me" SURPRISE)
                   env initialApp in
  (exists prompt rest,
     trace σ' = EvSetIsLoading true :: EvSetError EmptyString :: EvSetPrayer None ::
                EvGenerateContent "gemini-2.5-flash" prompt :: rest /\
     occurs_in SURPRISE prompt) /\
  (In SURPRISE VISIBLE_THEMES /\ ~ In SURPRISE ALL_THEMES).
Proof.
  intros env σ'. split.
  - eexists _, _. split; [vm_compute; reflexivity|].
    apply (revelationPrompt_carries_name SURPRISE "Surpreenda-me" "Depressão").
    exists [], []. rewrite app_nil_r. reflexivity.
  - split; [vm_compute; tauto|].
    intros Hs. destruct (ALL_THEMES_without_sentinel SURPRISE Hs) as [Hc _].
    apply Hc. reflexivity.
Qed.

(** C6, as the code has it. A call with the sentinel theme and
    [Math.random()] a number [r] in [0, 1) takes as theme
    [ALL_THEMES[floor (r * 18)]], the product rounded to binary64: an entry
    of the catalog, which holds 18 distinct themes, namely every visible
    theme but the sentinel entry, which it leaves out, and eleven more. Entry
    [k] is drawn for every [r] from [k / 18] to [(k + 1) / 18 - 2^-50], and
    for no [r] outside [k / 18 - 2^-50 < r < (k + 1) / 18]. The only prompt
    the text model receives is built from that theme; the sentinel is not the
    theme, and it occurs in the prompt exactly when the name the user typed
    contains it. *)
Theorem surprise_theme_resolved (env : Env) (σ : Sys) (name : string) :
  isDouble (Math_random env) -> (0 <= Math_random env)%Q -> (Math_random env < 1)%Q ->
  let r := Math_random env in
  let finalTheme := pickTheme r in
  let σ' := invoke (fun cl => handleGenerateRevelation cl name SURPRISE) env σ in
  ((0 <= themeIndex r < 18)%Z /\
   finalTheme = nth (Z.to_nat (themeIndex r)) ALL_THEMES "undefined" /\
   In finalTheme ALL_THEMES /\ finalTheme <> SURPRISE) /\
  (length ALL_THEMES = 18 /\ List.NoDup ALL_THEMES /\
   forall k, k < length ALL_THEMES ->
     ((inject_Z (Z.of_nat k) / 18 <= r /\
       r <= inject_Z (Z.of_nat k + 1) / 18 - pow2 (-50))%Q ->
      finalTheme = nth k ALL_THEMES "undefined") /\
     (finalTheme = nth k ALL_THEMES "undefined" ->
      (inject_Z (Z.of_nat k) / 18 - pow2 (-50) < r /\
       r < inject_Z (Z.of_nat k + 1) / 18)%Q)) /\
  ((forall t, In t VISIBLE_THEMES -> t <> SURPRISE -> In t ALL_THEMES) /\
   (exists t, In t ALL_THEMES /\ ~ In t VISIBLE_THEMES) /\
   In SURPRISE VISIBLE_THEMES /\ ~ In SURPRISE ALL_THEMES) /\
  (exists rest,
     trace σ' = trace σ ++ EvSetIsLoading true :: EvSetError EmptyString ::
                           EvSetPrayer None ::
                           EvGenerateContent "gemini-2.5-flash"
                                             (revelationPrompt name finalTheme) :: rest /\
     Forall (fun ev => match ev with
                       | EvGenerateContent model _ => model <> "gemini-2.5-flash"
                       | _ => True
                       end) rest) /\
  (occurs_in SURPRISE (revelationPrompt name finalTheme) <-> occurs_in SURPRISE name).
Proof.
  intros Hd H0 H1 r finalTheme σ'. fold r in Hd, H0, H1.
  pose proof (themeIndex_in_range r Hd H0 H1) as Hrange.
  assert (Hpick : finalTheme = nth (Z.to_nat (themeIndex r)) ALL_THEMES "undefined").
  { apply pickTheme_nth. lia. }
  assert (Hidx : Z.to_nat (themeIndex r) < length ALL_THEMES).
  { rewrite ALL_THEMES_length. lia. }
  assert (Hin : In finalTheme ALL_THEMES).
  { rewrite Hpick. apply nth_In. exact Hidx. }
  assert (Hnodup : List.NoDup ALL_THEMES).
  { apply NoDup_ListNoDup. apply (bool_decide_unpack _). vm_compute. reflexivity. }
  destruct (ALL_THEMES_without_sentinel finalTheme Hin) as [Hne Hnocc].
  split; [repeat split; try assumption; lia|]. split; [|split; [|split]].
  - split; [reflexivity|]. split; [exact Hnodup|].
    intros k Hk. rewrite ALL_THEMES_length in Hk. split.
    + intros [Hlo Hhi]. rewrite Hpick. f_equal.
      pose proof (themeIndex_lower r (Z.of_nat k) H0 H1 Hlo) as Hge.
      pose proof (themeIndex_upper r (Z.of_nat k) H0 ltac:(lia) Hhi) as Hle.
      lia.
    + intros E. rewrite Hpick in E.
      apply (proj1 (NoDup_nth ALL_THEMES "undefined") Hnodup) in E;
        [|exact Hidx | rewrite ALL_THEMES_length; exact Hk].
      assert (Ek : themeIndex r = Z.of_nat k) by lia.
      assert (H50 : (0 < pow2 (-50))%Q) by apply pow2_pos.
      split.
      * destruct (Qlt_le_dec (inject_Z (Z.of_nat k) / 18 - pow2 (-50)) r) as [Hlt|Hle];
          [exact Hlt|]. exfalso.
        destruct k as [|k'].
        -- assert (E0 : (inject_Z (Z.of_nat 0) / 18 == 0)%Q) by reflexivity.
           rewrite E0 in Hle. lra.
        -- assert (Hup : (themeIndex r <= Z.of_nat (S k') - 1)%Z).
           { apply (themeIndex_upper r (Z.of_nat (S k') - 1) H0); [lia|].
             replace (Z.of_nat (S k') - 1 + 1)%Z with (Z.of_nat (S k')) by lia.
             exact Hle. }
           lia.
      * destruct (Qlt_le_dec r (inject_Z (Z.of_nat k + 1) / 18)) as [Hlt|Hle];
          [exact Hlt|]. exfalso.
        pose proof (themeIndex_lower r (Z.of_nat k + 1) H0 H1 Hle). lia.
  - split; [|split; [|split]].
    + intros t Ht Hns. unfold ALL_THEMES. apply in_or_app. left.
      apply filter_In. split; [exact Ht|].
      apply negb_true_iff. apply String.eqb_neq. exact Hns.
    + exists "Sabedoria". split; [vm_compute; tauto|].
      intros Hv. vm_compute in Hv.
      repeat (destruct Hv as [Hv|Hv]; [discriminate|]). exact Hv.
    + vm_compute. tauto.
    + intros Hs. destruct (ALL_THEMES_without_sentinel SURPRISE Hs) as [Hc _].
      apply Hc. reflexivity.
  - unfold σ'. rewrite handleGenerateRevelation_run. cbv zeta.
    change (String.eqb SURPRISE "Surpreenda-me") with true. cbv iota.
    fold r. fold finalTheme.
    destruct (api_text env _) as [text|e];
      [destruct (api_audio env text) as [[bytes|]|e];
       [destruct (idb_put env _) as [u|e] | |] |];
      cbn [trace]; rewrite <- app_assoc; eexists; (split; [reflexivity|]);
      repeat constructor; discriminate.
  - split.
    + intros Hocc. destruct (occurs_in_dec SURPRISE name) as [Hyes|Hno]; [exact Hyes|].
      exfalso. exact (revelationPrompt_sentinel name finalTheme Hno Hnocc Hocc).
    + apply revelationPrompt_carries_name.
Qed.

Lemma surprise_theme_resolved_witness :
  let env := mkEnv (fun _ => Ok "texto") (fun _ => Ok (Some [x01; x00]))
                   (fun _ => Ok tt) (1 # 2) in
  pickTheme (1 # 2) = "Depressão" /\
  In (pickTheme (1 # 2)) ALL_THEMES /\
  ~ occurs_in SURPRISE (revelationPrompt "Ana" (pickTheme (1 # 2))) /\
  exists rest,
    trace (invoke (fun cl => handleGenerateRevelation cl "Ana" SURPRISE) env initialApp) =
    EvSetIsLoading true :: EvSetError EmptyString :: EvSetPrayer None ::
    EvGenerateContent "gemini-2.5-flash" (revelationPrompt "Ana" "Depressão") :: rest.
Proof.
  intros env.
  destruct (surprise_theme_resolved env initialApp "Ana")
    as ((_ & _ & Hin & _) & _ & _ & (rest & Htrace & _) & Hocc).
  - vm_compute. reflexivity.
  - unfold Qle. cbn. lia.
  - unfold Qlt. cbn. lia.
  - split; [vm_compute; reflexivity|]. split; [exact Hin|]. split.
    + intros H. apply Hocc in H. revert H. apply no_infix. vm_compute. reflexivity.
    + exists rest. exact Htrace.
Defined.

End Orchestrator.


(* ===================================================================== *)
(** * Part III: further properties of the code                            *)
(* ===================================================================== *)

(** ** The decoder, from its result *)

Section DecoderInversion.

Lemma createBuffer_inv (ctx : AudioContext) (C : nat) (len rate : Q) (b : AudioBuffer) :
  createBuffer ctx C len rate = Ok b ->
  1 <= C <= maxNumberOfChannels ctx /\ 0 < Z.to_nat (ToUint32 len) /\
  (minSampleRate ctx <= rate)%Q /\ (rate <= maxSampleRate ctx)%Q /\
  b = mkAudioBuffer C (Z.to_nat (ToUint32 len)) rate
        (replicate C (replicate (Z.to_nat (ToUint32 len)) (F32 0))).
Proof.
  unfold createBuffer. intros H.
  destruct (Nat.eqb_spec C 0); [discriminate|].
  destruct (Nat.ltb_spec (maxNumberOfChannels ctx) C); [discriminate|].
  cbn [orb] in H.
  destruct (Nat.eqb_spec (Z.to_nat (ToUint32 len)) 0); [discriminate|].
  destruct (Qle_bool (minSampleRate ctx) rate) eqn:Hlo; [|discriminate].
  destruct (Qle_bool rate (maxSampleRate ctx)) eqn:Hhi; [|discriminate].
  cbn in H. injection H as <-.
  apply Qle_bool_iff in Hlo, Hhi. repeat split; try assumption; lia.
Qed.

Lemma frameCount_length (n c : nat) :
  0 < c ->
  Z.to_nat (ToUint32 (inject_Z (Z.of_nat n) / inject_Z (Z.of_nat c))) =
  Z.to_nat (Z.of_nat (n / c) mod 2 ^ 32).
Proof.
  intros Hc. unfold ToUint32, Qtrunc.
  rewrite frameCount_nonneg, frameCount_floor by assumption. reflexivity.
Qed.

Lemma wrapped_length_le (m : nat) : Z.to_nat (Z.of_nat m mod 2 ^ 32) <= m.
Proof.
  pose proof (Z.mod_le (Z.of_nat m) (2 ^ 32) ltac:(lia) ltac:(lia)).
  pose proof (Z.mod_pos_bound (Z.of_nat m) (2 ^ 32) ltac:(lia)). lia.
Qed.

(** What a buffer the decoder has returned tells about the call. *)
Lemma decodePcmData_inv (ctx : AudioContext) (data : Uint8Array) (rate : Q) (C : nat)
      (buf : AudioBuffer) :
  decodePcmData data ctx rate C = Ok buf ->
  let N := length (u8_buffer data) / 2 in
  let L := Z.to_nat (Z.of_nat (N / C) mod 2 ^ 32) in
  Nat.even (length (u8_buffer data)) = true /\
  1 <= C <= maxNumberOfChannels ctx /\ 0 < L /\ L <= N / C /\
  numberOfChannels buf = C /\ ab_length buf = L /\ ab_sampleRate buf = rate /\
  length (channels buf) = C /\
  forall c i, c < C -> i < L ->
    exists chan, getChannelData buf c = Some chan /\ length chan = L /\
                 chan !! i = Some (div_32768 (int16_elements (u8_buffer data) !! (i * C + c))).
Proof.
  intros Hdec N L. unfold decodePcmData, new_Int16Array in Hdec.
  destruct (Nat.even (length (u8_buffer data))) eqn:Heven; [|discriminate].
  cbn [mbind result_bind] in Hdec. rewrite int16_elements_length in Hdec. fold N in Hdec.
  destruct (createBuffer ctx C _ rate) as [b|e] eqn:Hcreate; [|discriminate].
  cbn [mbind result_bind] in Hdec. injection Hdec as <-.
  apply createBuffer_inv in Hcreate as (HC & Hpos & _ & _ & ->).
  rewrite frameCount_length in * by lia. fold L in Hpos |- *.
  assert (HL : L <= N / C) by apply wrapped_length_le.
  destruct (loop_indices_cover N C) as (rounds & -> & Hrounds); [lia|].
  match goal with |- context [foldl ?F ?B (seq 0 C)] =>
    pose proof (decode_loops_channels
                  (fun channel i => div_32768 (int16_elements (u8_buffer data) !! (i * C + channel)))
                  (seq 0 rounds) (seq 0 C) B) as Hloops
  end.
  cbv zeta in Hloops. destruct Hloops as (-> & -> & -> & Hch).
  cbn [numberOfChannels ab_length ab_sampleRate channels] in Hch |- *.
  repeat split; try assumption; try lia.
  - rewrite Hch, outer_loop_length. apply length_replicate.
  - intros c i Hc Hi. unfold getChannelData. cbn [channels]. rewrite Hch.
    rewrite outer_loop_channels. destruct (decide (c < C)); [|lia].
    rewrite lookup_replicate_2 by lia. cbn [fmap option_fmap option_map].
    eexists. split; [reflexivity|]. split.
    + rewrite fill_channel_length. apply length_replicate.
    + rewrite fill_channel_lookup. rewrite length_replicate.
      destruct (decide _); [reflexivity | lia].
Qed.

Lemma div_32768_range (z : Z) :
  (-32768 <= z < 32768)%Z ->
  exists q, div_32768 (Some z) = F32 q /\ (-1 <= q)%Q /\ (q <= 32767 # 32768)%Q.
Proof.
  intros Hz. eexists. split; [reflexivity|].
  rewrite Qred_correct. unfold Qdiv, Qle. cbn. lia.
Qed.

(** X1. Whatever buffer the decoder returns, every sample in it is a number
    between -1 and 32767/32768, never NaN, also when the last frame of the
    input is incomplete. *)
Theorem decodePcmData_samples_in_range (ctx : AudioContext) (data : Uint8Array)
        (rate : Q) (C : nat) (buf : AudioBuffer) :
  decodePcmData data ctx rate C = Ok buf ->
  forall c chan i v,
    getChannelData buf c = Some chan -> chan !! i = Some v ->
    exists q, v = F32 q /\ (-1 <= q)%Q /\ (q <= 32767 # 32768)%Q.
Proof.
  intros Hdec c chan i v Hchan Hv.
  destruct (decodePcmData_inv _ _ _ _ _ Hdec)
    as (Heven & HC & Hpos & HL & _ & _ & _ & Hlen & Hsamples).
  assert (Hc : c < C).
  { rewrite <- Hlen. apply lookup_lt_is_Some. unfold getChannelData in Hchan. eauto. }
  set (L := Z.to_nat (Z.of_nat (length (u8_buffer data) / 2 / C) mod 2 ^ 32)) in *.
  destruct (Hsamples c 0 Hc Hpos) as (chan0 & Hchan0 & Hlen0 & _).
  rewrite Hchan in Hchan0. injection Hchan0 as <-.
  assert (Hi : i < L).
  { rewrite <- Hlen0. apply lookup_lt_is_Some. eauto. }
  destruct (Hsamples c i Hc Hi) as (chan' & Hchan' & _ & Hi').
  rewrite Hchan in Hchan'. injection Hchan' as <-. rewrite Hv in Hi'. injection Hi' as ->.
  assert (Hidx : i * C + c < length (int16_elements (u8_buffer data))).
  { rewrite int16_elements_length. apply frame_index_in_range; [assumption|lia]. }
  apply lookup_lt_is_Some_2 in Hidx. destruct Hidx as [s Hs]. rewrite Hs.
  destruct (int16_elements_lookup _ _ _ Hs) as (lo & hi & _ & _ & ->).
  apply div_32768_range. apply int16_of_bytes_range.
Qed.

Lemma decodePcmData_samples_in_range_witness :
  let buf := mkAudioBuffer 1 2 24000 [[F32 (-1); F32 (32767 # 32768)]] in
  decodePcmData (new_Uint8Array [x00; x80; xff; x7f]) AudioCTX 24000 1 = Ok buf /\
  exists q, F32 (32767 # 32768) = F32 q /\ (-1 <= q)%Q /\ (q <= 32767 # 32768)%Q.
Proof.
  intros buf. split; [reflexivity|].
  apply (decodePcmData_samples_in_range AudioCTX (new_Uint8Array [x00; x80; xff; x7f])
           24000 1 buf eq_refl 0 [F32 (-1); F32 (32767 # 32768)] 1).
  - reflexivity.
  - reflexivity.
Defined.

Lemma byte_val_inj (a b : byte) : byte_val a = byte_val b -> a = b.
Proof.
  unfold byte_val. intros H. apply N2Z.inj in H.
  pose proof (Byte.of_to_N a) as Ha. rewrite H, Byte.of_to_N in Ha. congruence.
Qed.

Lemma int16_of_bytes_inj (lo hi lo' hi' : byte) :
  int16_of_bytes lo hi = int16_of_bytes lo' hi' -> lo = lo' /\ hi = hi'.
Proof.
  unfold int16_of_bytes. cbv zeta.
  pose proof (byte_val_range lo). pose proof (byte_val_range hi).
  pose proof (byte_val_range lo'). pose proof (byte_val_range hi').
  destruct (Z.ltb_spec (byte_val lo + 256 * byte_val hi) 32768);
    destruct (Z.ltb_spec (byte_val lo' + 256 * byte_val hi') 32768);
    intros E; split; apply byte_val_inj; lia.
Qed.

Lemma int16_elements_inj (b1 b2 : ArrayBuffer) :
  Nat.even (length b1) = true -> Nat.even (length b2) = true ->
  int16_elements b1 = int16_elements b2 -> b1 = b2.
Proof.
  assert (H : forall n (b1 b2 : ArrayBuffer), length b1 <= n ->
              Nat.even (length b1) = true -> Nat.even (length b2) = true ->
              int16_elements b1 = int16_elements b2 -> b1 = b2).
  { induction n as [|n IH]; intros [|lo [|hi r]] [|lo' [|hi' r']] Hn H1 H2 E;
      try reflexivity; try discriminate; cbn [length] in Hn; try lia.
    cbn [int16_elements] in E. injection E as Eh Et.
    apply int16_of_bytes_inj in Eh as [-> ->].
    f_equal. f_equal. apply IH; try assumption. lia. }
  apply (H (length b1)). lia.
Qed.

Lemma div_32768_inj (z1 z2 : Z) :
  div_32768 (Some z1) = div_32768 (Some z2) -> z1 = z2.
Proof.
  cbn. intros [= E].
  assert (Heq : (inject_Z z1 / 32768 == inject_Z z2 / 32768)%Q).
  { rewrite <- (Qred_correct (inject_Z z1 / 32768)), E. apply Qred_correct. }
  unfold Qeq, Qdiv in Heq. cbn in Heq. lia.
Qed.

(** X2. The decoder loses nothing of an input made of whole frames: two such
    inputs that decode to the same buffer are the same bytes. *)
Theorem decodePcmData_lossless (ctx : AudioContext) (rate : Q) (C : nat)
        (b1 b2 : ArrayBuffer) (buf : AudioBuffer) :
  length b1 mod (2 * C) = 0 -> length b2 mod (2 * C) = 0 ->
  (Z.of_nat (length b1 / 2 / C) < 2 ^ 32)%Z ->
  (Z.of_nat (length b2 / 2 / C) < 2 ^ 32)%Z ->
  decodePcmData (new_Uint8Array b1) ctx rate C = Ok buf ->
  decodePcmData (new_Uint8Array b2) ctx rate C = Ok buf ->
  b1 = b2.
Proof.
  intros Hm1 Hm2 Hs1 Hs2 Hd1 Hd2.
  destruct (decodePcmData_inv _ _ _ _ _ Hd1) as (He1 & HC & _ & _ & _ & Hl1 & _ & _ & Hsam1).
  destruct (decodePcmData_inv _ _ _ _ _ Hd2) as (He2 & _ & _ & _ & _ & Hl2 & _ & _ & Hsam2).
  cbn [u8_buffer new_Uint8Array] in *.
  rewrite Z.mod_small, Nat2Z.id in Hl1, Hsam1 by lia.
  rewrite Z.mod_small, Nat2Z.id in Hl2, Hsam2 by lia.
  set (N1 := length b1 / 2) in *. set (N2 := length b2 / 2) in *.
  assert (HN1 : N1 = C * (N1 / C)).
  { rewrite (even_length_half _ He1) in Hm1. fold N1 in Hm1.
    rewrite Nat.Div0.mul_mod_distr_l in Hm1.
    pose proof (Nat.div_mod_eq N1 C). lia. }
  assert (HN2 : N2 = C * (N2 / C)).
  { rewrite (even_length_half _ He2) in Hm2. fold N2 in Hm2.
    rewrite Nat.Div0.mul_mod_distr_l in Hm2.
    pose proof (Nat.div_mod_eq N2 C). lia. }
  assert (HN : N1 = N2) by (rewrite HN1, HN2; congruence).
  apply int16_elements_inj; try assumption.
  apply list_eq. intros k.
  destruct (decide (k < N1)) as [Hk|Hk].
  - assert (Hc : k mod C < C) by (apply Nat.mod_upper_bound; lia).
    assert (Hi : k / C < N1 / C).
    { apply Nat.Div0.div_lt_upper_bound. lia. }
    assert (Hidx : k / C * C + k mod C = k).
    { pose proof (Nat.div_mod_eq k C). lia. }
    destruct (Hsam1 _ _ Hc Hi) as (ch1 & Hch1 & _ & Hv1).
    assert (Hi2 : k / C < N2 / C) by (rewrite <- HN; exact Hi).
    destruct (Hsam2 _ _ Hc Hi2) as (ch2 & Hch2 & _ & Hv2).
    rewrite Hch1 in Hch2. injection Hch2 as <-. rewrite Hv1, Hidx in Hv2.
    assert (H1 : k < length (int16_elements b1)) by (rewrite int16_elements_length; exact Hk).
    assert (H2 : k < length (int16_elements b2))
      by (rewrite int16_elements_length; fold N2; lia).
    apply lookup_lt_is_Some_2 in H1 as [z1 Hz1]. apply lookup_lt_is_Some_2 in H2 as [z2 Hz2].
    rewrite Hz1, Hz2 in *. injection Hv2 as Hv2.
    f_equal. apply div_32768_inj. cbn [div_32768]. f_equal. exact Hv2.
  - rewrite !lookup_ge_None_2; [reflexivity| |];
      rewrite int16_elements_length; fold N1 N2; lia.
Qed.

Lemma decodePcmData_lossless_witness :
  let buf := mkAudioBuffer 1 2 24000 [[F32 (-1); F32 (32767 # 32768)]] in
  decodePcmData (new_Uint8Array [x00; x80; xff; x7f]) AudioCTX 24000 1 = Ok buf /\
  [x00; x80; xff; x7f] = [x00; x80; xff; x7f].
Proof.
  intros buf. split; [reflexivity|].
  apply (decodePcmData_lossless AudioCTX 24000 1 _ _ buf).
  - reflexivity.
  - reflexivity.
  - cbn. lia.
  - cbn. lia.
  - reflexivity.
  - reflexivity.
Defined.

End DecoderInversion.

(** ** The playback transport, further *)

Section TransportFurther.

Lemma decode_mono_ok (bytes : list byte) :
  Nat.even (length bytes) = true -> 0 < length bytes ->
  (Z.of_nat (length bytes / 2) < 2 ^ 32)%Z ->
  exists buf,
    decodePcmData (new_Uint8Array bytes) AudioCTX 24000 1 = Ok buf /\
    ab_length buf = length bytes / 2 /\ ab_sampleRate buf = 24000%Q.
Proof.
  intros Heven Hpos Hsmall.
  assert (Hhalf : 1 <= length bytes / 2).
  { pose proof (even_length_half _ Heven). lia. }
  destruct (decodePcmData_ok AudioCTX (new_Uint8Array bytes) 24000 1)
    as (buf & Hdec & _ & Hlen & Hrate & _); cbn [u8_buffer new_Uint8Array];
    try assumption; try (cbn; lia); try (unfold Qle; cbn; lia).
  - rewrite Nat.div_1_r. exact Hsmall.
  - exists buf. rewrite Nat.div_1_r in Hlen. auto.
Qed.

Lemma decode_mono_malformed (bytes : list byte) :
  Nat.even (length bytes) = false \/ length bytes = 0 ->
  exists e, decodePcmData (new_Uint8Array bytes) AudioCTX 24000 1 = Throw e.
Proof.
  intros [Hodd|Hnil].
  - exists RangeError. unfold decodePcmData, new_Int16Array. cbn [u8_buffer new_Uint8Array].
    rewrite Hodd. reflexivity.
  - destruct bytes; [|discriminate]. exists NotSupportedError. reflexivity.
Qed.

(** X3. Giving a player a clip of [N >= 1] samples takes two steps. The run
    of the effect touches neither the buffer nor [duration], [currentTime]
    and [isPlaying], and when the player had a clip before, or was not
    playing, it leaves no sampler running. The completion of the decode, in
    whatever state the player is by then, makes the decoded buffer the
    player's buffer, sets [duration] to [N / 24000] and [currentTime] to 0,
    and touches nothing else: not [isPlaying], not the source, not a sampler
    that was started in between. *)
Theorem loadAudio_clip (t : Q) (s later : Player) (clip : Blob) :
  reachable t s ->
  Nat.even (length (blob_bytes clip)) = true -> 0 < length (blob_bytes clip) ->
  (Z.of_nat (length (blob_bytes clip) / 2) < 2 ^ 32)%Z ->
  let s1 := runEffect (Some clip) s in
  let s' := processAudio clip later in
  (audioBufferRef s1 = audioBufferRef s /\ duration s1 = duration s /\
   currentTime s1 = currentTime s /\ isPlaying s1 = isPlaying s /\
   (audioBlob s <> None \/ isPlaying s = false ->
    forall tid iv, intervals s1 !! tid = Some iv -> iv_live iv = false)) /\
  exists buf,
    decodePcmData (new_Uint8Array (blob_bytes clip)) AudioCTX 24000 1 = Ok buf /\
    audioBufferRef s' = Some buf /\
    duration s' = (inject_Z (Z.of_nat (length (blob_bytes clip) / 2)) / 24000)%Q /\
    currentTime s' = 0%Q /\
    isPlaying s' = isPlaying later /\ sourceRef s' = sourceRef later /\
    timerRef s' = timerRef later /\ startTimeRef s' = startTimeRef later /\
    nodes s' = nodes later /\ intervals s' = intervals later.
Proof.
  intros Hreach Heven Hpos Hsmall s1 s'.
  pose proof (reachable_wf t s Hreach) as Hwf.
  split.
  - unfold s1, runEffect. destruct (audioBlob s) as [old|] eqn:Hblob.
    + destruct (wf_effectCleanup t s Hwf) as [_ Hdead].
      cbn [setAudioBlob audioBufferRef duration currentTime isPlaying intervals].
      unfold effectCleanup in *.
      destruct (sourceRef s); [destruct (nodes s !! _); [destruct (nd_started _)|]|];
        cbn [audioBufferRef duration currentTime isPlaying intervals] in *;
        repeat split; auto.
    + cbn [setAudioBlob audioBufferRef duration currentTime isPlaying intervals].
      repeat split. intros [Hsome|Hidle]; [contradiction|].
      exact (wf_idle t s Hwf Hidle).
  - destruct (decode_mono_ok _ Heven Hpos Hsmall) as (buf & Hdec & Hlen & Hrate).
    exists buf. split; [exact Hdec|].
    unfold s', processAudio. rewrite Hdec.
    cbn [audioBufferRef duration currentTime isPlaying sourceRef timerRef startTimeRef
         nodes intervals].
    split; [reflexivity|]. split; [unfold ab_duration; rewrite Hlen, Hrate; reflexivity|].
    repeat split.
Qed.

Lemma loadAudio_clip_witness :
  let clip := mkBlob [x00; x00; xff; x7f; x00; x80] "audio/pcm" in
  let playing := play 0 (loadAudio (Some clip) initialPlayer) in
  let s' := processAudio clip (runEffect (Some clip) playing) in
  duration s' = (3 / 24000)%Q /\ currentTime s' = 0%Q /\ isPlaying s' = true /\
  (forall tid iv, intervals s' !! tid = Some iv -> iv_live iv = false).
Proof.
  intros clip playing s'.
  destruct (loadAudio_clip 0 playing (runEffect (Some clip) playing) clip)
    as ((_ & _ & _ & _ & Hdead) & buf & _ & _ & Hdur & Hct & Hplaying & _ & _ & _ & _ & Hivs).
  - apply (reach_play 0 _ 0); [apply reach_load; apply reach_init | unfold Qle; cbn; lia].
  - reflexivity.
  - cbn. lia.
  - cbn. lia.
  - split; [exact Hdur|]. split; [exact Hct|].
    split; [unfold s'; rewrite Hplaying; reflexivity|].
    unfold s'. rewrite Hivs. apply Hdead. left. discriminate.
Defined.

(** X4. A clip of odd byte length, or an empty one, does not decode: the
    load leaves buffer, [duration] and [currentTime] as they were, and on a
    player that had no clip before, [play] and [pause] do nothing. *)
Theorem loadAudio_malformed_clip (s : Player) (clip : Blob) (now : Q) :
  Nat.even (length (blob_bytes clip)) = false \/ length (blob_bytes clip) = 0 ->
  let s' := loadAudio (Some clip) s in
  (audioBufferRef s' = audioBufferRef s /\ duration s' = duration s /\
   currentTime s' = currentTime s) /\
  (let p := loadAudio (Some clip) initialPlayer in
   audioBufferRef p = None /\ play now p = p /\ pause p = p /\ duration p = 0%Q).
Proof.
  intros Hbad s'.
  destruct (decode_mono_malformed _ Hbad) as [e He].
  split.
  - unfold s', loadAudio, processAudio. rewrite He.
    destruct (audioBlob s); [|cbn; auto].
    unfold effectCleanup.
    destruct (sourceRef s); [destruct (nodes s !! _); [destruct (nd_started _)|]|];
      cbn; auto.
  - cbv zeta. unfold loadAudio, processAudio. rewrite He. cbn. auto.
Qed.

Lemma loadAudio_malformed_clip_witness :
  let p := loadAudio (Some (mkBlob [x01; x00; x02] "audio/pcm")) initialPlayer in
  audioBufferRef p = None /\ play 5 p = p.
Proof.
  intros p.
  destruct (loadAudio_malformed_clip initialPlayer (mkBlob [x01; x00; x02] "audio/pcm") 5)
    as (_ & Hnone & Hplay & _).
  - left. reflexivity.
  - split; [exact Hnone | exact Hplay].
Defined.



(** X6. While a clip plays, the sampler reports the time since [play] added
    to the point playback started from, capped at [duration], and a later
    tick never reports less than an earlier one. The point playback starts
    from is taken inside the clip, as it is while a player keeps its one
    clip. *)
Theorem tick_follows_clock (t0 now later : Q) (s : Player) (buf : AudioBuffer) :
  (0 <= currentTime s)%Q -> (currentTime s <= duration s)%Q ->
  audioBufferRef s = Some buf -> isPlaying s = false ->
  (t0 <= now)%Q -> (now <= later)%Q ->
  let tid := length (intervals s) in
  exists s1 s2,
    tick tid now (play t0 s) = Some s1 /\ tick tid later s1 = Some s2 /\
    (currentTime s1 == Qmin (currentTime s + (now - t0)) (duration s))%Q /\
    (currentTime s <= currentTime s1)%Q /\
    (currentTime s1 <= currentTime s2)%Q /\
    (currentTime s2 <= duration s)%Q.
Proof.
  intros Hpos Hhi Hbuf Hidle Hnow Hlater tid.
  rewrite (play_idle t0 s buf Hbuf Hidle Hpos).
  assert (Hlk : (intervals s ++ [mkInterval (duration s) true]) !! tid =
                Some (mkInterval (duration s) true)).
  { unfold tid. rewrite lookup_app_r, Nat.sub_diag by lia. reflexivity. }
  eexists. eexists. split; [unfold tick; cbn [intervals]; rewrite Hlk; reflexivity|].
  split; [unfold tick; cbn [intervals]; rewrite Hlk; reflexivity|].
  cbn [currentTime startTimeRef iv_duration].
  split; [|split; [|split]].
  - apply Q.min_compat; [ring | reflexivity].
  - apply Q.min_glb; lra.
  - apply Q.min_le_compat_r. lra.
  - apply Q.le_min_r.
Qed.

Lemma tick_follows_clock_witness :
  let clip := mkBlob [x00; x00; xff; x7f; x00; x80] "audio/pcm" in
  let s := loadAudio (Some clip) initialPlayer in
  exists s1, tick 0 (1 # 16000) (play 0 s) = Some s1 /\
             (currentTime s1 == 1 # 16000)%Q.
Proof.
  intros clip s.
  destruct (tick_follows_clock 0 (1 # 16000) 1 s
              (mkAudioBuffer 1 3 24000 [[F32 0; F32 (32767 # 32768); F32 (-1)]]))
    as (s1 & s2 & H1 & _ & Hct & _).
  - vm_compute. discriminate.
  - vm_compute. discriminate.
  - vm_compute. reflexivity.
  - reflexivity.
  - unfold Qle. cbn. lia.
  - unfold Qle. cbn. lia.
  - exists s1. split; [exact H1|]. rewrite Hct. vm_compute. reflexivity.
Defined.

(** X7. A player never runs two samplers, whatever the order of clip
    changes, decodes, calls and events: in every reachable state at most one
    interval is live, it is the one in [timerRef], and it exists only while
    [isPlaying]. While the player keeps its one clip, the live sampler
    clamps at the current [duration]. *)
Theorem single_sampler (t : Q) (s : Player) (tid1 tid2 : nat) (iv1 iv2 : Interval) :
  reachable t s ->
  intervals s !! tid1 = Some iv1 -> iv_live iv1 = true ->
  intervals s !! tid2 = Some iv2 -> iv_live iv2 = true ->
  tid1 = tid2 /\ timerRef s = Some tid1 /\ isPlaying s = true /\
  (forall clip, session clip t s -> iv_duration iv1 = duration s).
Proof.
  intros Hreach H1 L1 H2 L2.
  pose proof (reachable_wf t s Hreach) as Hwf.
  destruct (wf_timer t s Hwf tid1 iv1 H1 L1) as [Hr1 _].
  destruct (wf_timer t s Hwf tid2 iv2 H2 L2) as [Hr2 _].
  split; [congruence|]. split; [exact Hr1|]. split.
  - destruct (isPlaying s) eqn:Hp; [reflexivity|].
    rewrite (wf_idle t s Hwf Hp tid1 iv1 H1) in L1. discriminate.
  - intros clip Hsess. destruct (session_wf clip t s Hsess) as [_ Hws].
    exact (ws_timer s Hws tid1 iv1 H1 L1).
Qed.

Lemma single_sampler_witness :
  let clip := mkBlob [x00; x00; xff; x7f; x00; x80] "audio/pcm" in
  let s := play 1 (pause (play 0 (loadAudio (Some clip) initialPlayer))) in
  (exists iv, intervals s !! 0 = Some iv /\ iv_live iv = false) /\
  timerRef s = Some 1 /\ isPlaying s = true.
Proof.
  intros clip s.
  split; [eexists; split; vm_compute; reflexivity|].
  destruct (single_sampler 1 s 1 1 (mkInterval (3 # 24000) true) (mkInterval (3 # 24000) true))
    as (_ & Href & Hplaying & _).
  - apply (reach_play 0 _ 1); [|unfold Qle; cbn; lia].
    apply reach_pause. apply (reach_play 0 _ 0); [|unfold Qle; cbn; lia].
    apply reach_load. apply reach_init.
  - vm_compute. reflexivity.
  - reflexivity.
  - vm_compute. reflexivity.
  - reflexivity.
  - split; [exact Href | exact Hplaying].
Defined.

(** X8. The width of the progress bar is never negative, and it is 0 while
    no clip gives a positive duration. While a player keeps its one clip the
    bar is at most 100 percent wide. *)
Theorem progress_in_percent (t : Q) (s : Player) :
  (reachable t s ->
     (0 <= progress s)%Q /\ ((duration s <= 0)%Q -> progress s = 0%Q)) /\
  (forall clip, session clip t s -> (0 <= progress s)%Q /\ (progress s <= 100)%Q).
Proof.
  assert (Hlow : wf t s ->
                 (0 <= progress s)%Q /\ ((duration s <= 0)%Q -> progress s = 0%Q)).
  { intros Hwf. pose proof (wf_time_lo t s Hwf) as Hlo.
    unfold progress. destruct (Qlt_le_dec 0 (duration s)) as [Hpos|Hzero].
    - assert (Hfrac0 : (0 <= currentTime s / duration s)%Q).
      { apply Qle_shift_div_l; [assumption|]. lra. }
      pose proof (fl64_nonneg _ Hfrac0) as Hq.
      split; [apply fl64_nonneg; lra|]. intros Hd. lra.
    - split; [lra|]. reflexivity. }
  split.
  - intros Hreach. exact (Hlow (reachable_wf t s Hreach)).
  - intros clip Hsess. destruct (session_wf clip t s Hsess) as [Hwf Hws].
    split; [exact (proj1 (Hlow Hwf))|].
    pose proof (wf_time_lo t s Hwf) as Hlo. pose proof (ws_time_hi s Hws) as Hhi.
    unfold progress. destruct (Qlt_le_dec 0 (duration s)) as [Hpos|Hzero]; [|lra].
    assert (Hfrac0 : (0 <= currentTime s / duration s)%Q).
    { apply Qle_shift_div_l; [assumption|]. lra. }
    assert (Hfrac1 : (currentTime s / duration s <= 1)%Q).
    { apply Qle_shift_div_r; [assumption|]. lra. }
    assert (Hp : (128 <= pow2 53)%Q) by (vm_compute; discriminate).
    pose proof (fl64_nonneg _ Hfrac0) as Hq0.
    assert (Hq1 : (fl64 (currentTime s / duration s) <= inject_Z 1)%Q).
    { apply fl64_le_integer_nonneg; [exact Hfrac0 | exact Hfrac1 | lra]. }
    change (inject_Z 1) with 1%Q in Hq1.
    change 100%Q with (inject_Z 100) at 2.
    apply fl64_le_integer_nonneg; [lra | change (inject_Z 100) with 100%Q; lra | lra].
Qed.

Lemma progress_in_percent_witness :
  let clip := mkBlob [x00; x00; xff; x7f; x00; x80] "audio/pcm" in
  let s1 := play 0 (loadAudio (Some clip) initialPlayer) in
  let s2 := default initialPlayer (tick 0 (1 # 16000) s1) in
  (progress s2 == 50)%Q /\ (progress s2 <= 100)%Q.
Proof.
  intros clip s1 s2.
  split; [vm_compute; reflexivity|].
  apply (proj2 (progress_in_percent (1 # 16000) s2) clip). exact session_demo.
Defined.

End TransportFurther.

(** ** The WAV encoder, further *)

Section EncoderFurther.

Lemma pcmToWav_read (reader : FileReader) (pcmBlob : Blob) (pcmData : ArrayBuffer)
      (sampleRate numChannels bitsPerSample : Q) :
  reader pcmBlob = onload (Some pcmData) ->
  let dataSize := inject_Z (Z.of_nat (length pcmData)) in
  pcmToWav reader pcmBlob sampleRate numChannels bitsPerSample
  = Ok (mkBlob ((ascii_bytes "RIFF" ++ u32le (36 + dataSize) ++ ascii_bytes "WAVE" ++
                 ascii_bytes "fmt " ++ u32le 16 ++ u16le 1 ++ u16le numChannels ++
                 u32le sampleRate ++
                 u32le (sampleRate * numChannels * (bitsPerSample / 8)) ++
                 u16le (numChannels * (bitsPerSample / 8)) ++ u16le bitsPerSample ++
                 ascii_bytes "data" ++ u32le dataSize) ++ pcmData) "audio/wav").
Proof.
  intros Hread dataSize. unfold pcmToWav. rewrite Hread. apply pcmToWav_view.
Qed.

(** X9. The encoder fails only when the blob cannot be read: with the
    reader's error, or with "Failed to read PCM data." when the reader gives
    no buffer. Its own header writes never fail, whatever numbers it is
    given, and what it resolves with is 44 bytes followed by the bytes the
    reader delivered. *)
Theorem pcmToWav_outcome (reader : FileReader) (pcmBlob : Blob)
        (sampleRate numChannels bitsPerSample : Q) :
  match reader pcmBlob with
  | onload (Some pcmData) =>
    exists wav,
      pcmToWav reader pcmBlob sampleRate numChannels bitsPerSample = Ok wav /\
      blob_type wav = "audio/wav" /\
      length (blob_bytes wav) = 44 + length pcmData /\
      dataChunk (blob_bytes wav) = pcmData
  | onload None =>
    pcmToWav reader pcmBlob sampleRate numChannels bitsPerSample
    = Throw (Error "Failed to read PCM data.")
  | onerror e =>
    pcmToWav reader pcmBlob sampleRate numChannels bitsPerSample = Throw e
  end.
Proof.
  destruct (reader pcmBlob) as [[pcmData|]|e] eqn:Hread.
  - rewrite (pcmToWav_read _ _ pcmData _ _ _ Hread). cbv zeta.
    eexists. split; [reflexivity|]. cbn [blob_type blob_bytes].
    split; [reflexivity|]. split; [|reflexivity].
    rewrite length_app, header_length. reflexivity.
  - unfold pcmToWav. rewrite Hread. reflexivity.
  - unfold pcmToWav. rewrite Hread. reflexivity.
Qed.

(** X10. The two size fields of the header describe the file that was
    written: below 4 GiB, the RIFF size at bytes 4-7 is the length of the
    file less 8, and the size at bytes 40-43 is the length of its data
    chunk. *)
Theorem pcmToWav_sizes (reader : FileReader) (pcmBlob : Blob) (pcmData : ArrayBuffer)
        (sampleRate numChannels bitsPerSample : Q) (wav : Blob) :
  reader pcmBlob = onload (Some pcmData) ->
  (36 + Z.of_nat (length pcmData) < 2 ^ 32)%Z ->
  pcmToWav reader pcmBlob sampleRate numChannels bitsPerSample = Ok wav ->
  (le_value (field 4 4 (blob_bytes wav)) + 8 = Z.of_nat (length (blob_bytes wav)))%Z /\
  le_value (field 40 4 (blob_bytes wav)) = Z.of_nat (length (dataChunk (blob_bytes wav))).
Proof.
  intros Hread Hsmall Hwav.
  rewrite (pcmToWav_read _ _ pcmData _ _ _ Hread) in Hwav. cbv zeta in Hwav.
  injection Hwav as <-. cbn [blob_bytes].
  set (D := Z.of_nat (length pcmData)) in *.
  split.
  - change (le_value (u32le (36 + inject_Z D)) + 8 =
            Z.of_nat (length ((ascii_bytes "RIFF" ++ u32le (36 + inject_Z D) ++
              ascii_bytes "WAVE" ++ ascii_bytes "fmt " ++ u32le 16 ++ u16le 1 ++
              u16le numChannels ++ u32le sampleRate ++
              u32le (sampleRate * numChannels * (bitsPerSample / 8)) ++
              u16le (numChannels * (bitsPerSample / 8)) ++ u16le bitsPerSample ++
              ascii_bytes "data" ++ u32le (inject_Z D)) ++ pcmData)))%Z.
    rewrite length_app, header_length, le_value_u32le.
    rewrite (ToUint32_comp _ (inject_Z (36 + D))) by (rewrite inject_Z_plus; reflexivity).
    rewrite ToUint32_inject_Z, Z.mod_small by lia. unfold D. lia.
  - change (le_value (u32le (inject_Z D)) = Z.of_nat (length pcmData)).
    rewrite le_value_u32le, ToUint32_inject_Z, Z.mod_small by lia. reflexivity.
Qed.

Lemma pcmToWav_sizes_witness :
  let pcm := mkBlob [x01; x00; x02; x00] "audio/pcm" in
  exists wav,
    pcmToWav (fun b => onload (Some (blob_bytes b))) pcm 24000 1 16 = Ok wav /\
    le_value (field 4 4 (blob_bytes wav)) = 40%Z /\ length (blob_bytes wav) = 48.
Proof.
  intros pcm.
  destruct (pcmToWav (fun b => onload (Some (blob_bytes b))) pcm 24000 1 16)
    as [wav|e] eqn:Hwav; [|vm_compute in Hwav; discriminate].
  exists wav. split; [reflexivity|].
  destruct (pcmToWav_sizes (fun b => onload (Some (blob_bytes b))) pcm (blob_bytes pcm)
              24000 1 16 wav) as [Hriff _].
  - reflexivity.
  - cbn. lia.
  - exact Hwav.
  - assert (Hlen : length (blob_bytes wav) = 48).
    { vm_compute in Hwav. injection Hwav as <-. reflexivity. }
    rewrite Hlen in Hriff. split; [lia | exact Hlen].
Defined.

End EncoderFurther.

(** ** What is shared is what is played *)

Section SharedFile.

(** X11. The file [handleShare] makes of a clip (24000 Hz, 1 channel, 16
    bits) declares the format the player decodes the clip with: its data
    chunk decodes to the player's buffer, its channel count and sample rate
    are the buffer's, its byte rate is 48000 and its block align 2, and the
    data size divided by the byte rate is the buffer's duration. *)
Theorem shared_wav_matches_player (reader : FileReader) (pcmBlob wav : Blob)
        (buf : AudioBuffer) :
  reader pcmBlob = onload (Some (blob_bytes pcmBlob)) ->
  (36 + Z.of_nat (length (blob_bytes pcmBlob)) < 2 ^ 32)%Z ->
  pcmToWav reader pcmBlob 24000 1 16 = Ok wav ->
  decodePcmData (new_Uint8Array (blob_bytes pcmBlob)) AudioCTX 24000 1 = Ok buf ->
  decodePcmData (new_Uint8Array (dataChunk (blob_bytes wav))) AudioCTX 24000 1 = Ok buf /\
  le_value (field 22 2 (blob_bytes wav)) = Z.of_nat (numberOfChannels buf) /\
  inject_Z (le_value (field 24 4 (blob_bytes wav))) = ab_sampleRate buf /\
  le_value (field 28 4 (blob_bytes wav)) = 48000%Z /\
  le_value (field 32 2 (blob_bytes wav)) = 2%Z /\
  le_value (field 34 2 (blob_bytes wav)) = 16%Z /\
  (inject_Z (le_value (field 40 4 (blob_bytes wav))) /
   inject_Z (le_value (field 28 4 (blob_bytes wav))) == ab_duration buf)%Q.
Proof.
  intros Hread Hsmall Hwav Hdec.
  rewrite (pcmToWav_read _ _ _ _ _ _ Hread) in Hwav. cbv zeta in Hwav.
  injection Hwav as <-. cbn [blob_bytes].
  destruct (decodePcmData_inv _ _ _ _ _ Hdec)
    as (Heven & _ & _ & _ & Hnc & Hlen & Hrate & _).
  cbn [u8_buffer new_Uint8Array] in *.
  set (bytes := blob_bytes pcmBlob) in *.
  split; [exact Hdec|]. split; [rewrite Hnc; reflexivity|].
  split; [rewrite Hrate; reflexivity|].
  split; [reflexivity|]. split; [reflexivity|]. split; [reflexivity|].
  change (field 28 4 _) with (u32le (24000 * 1 * (16 / 8))).
  change (field 40 4 _) with (u32le (inject_Z (Z.of_nat (length bytes)))).
  rewrite !le_value_u32le, ToUint32_inject_Z, Z.mod_small by lia.
  change (ToUint32 (24000 * 1 * (16 / 8))) with 48000%Z.
  unfold ab_duration. rewrite Hlen, Hrate, Nat.div_1_r.
  rewrite Z.mod_small, Nat2Z.id.
  - rewrite (even_length_half _ Heven) at 1.
    rewrite Nat2Z.inj_mul, inject_Z_mult. change (inject_Z (Z.of_nat 2)) with 2%Q.
    field.
  - pose proof (Nat.Div0.div_le_upper_bound (length bytes) 2 (length bytes)). lia.
Qed.

Lemma shared_wav_matches_player_witness :
  let clip := mkBlob [x00; x00; xff; x7f; x00; x80] "audio/pcm" in
  exists wav buf,
    pcmToWav (fun b => onload (Some (blob_bytes b))) clip 24000 1 16 = Ok wav /\
    decodePcmData (new_Uint8Array (dataChunk (blob_bytes wav))) AudioCTX 24000 1 = Ok buf /\
    (ab_duration buf == 6 / 48000)%Q.
Proof.
  intros clip.
  destruct (pcmToWav (fun b => onload (Some (blob_bytes b))) clip 24000 1 16)
    as [wav|e] eqn:Hwav; [|vm_compute in Hwav; discriminate].
  destruct (shared_wav_matches_player (fun b => onload (Some (blob_bytes b))) clip wav
              (mkAudioBuffer 1 3 24000 [[F32 0; F32 (32767 # 32768); F32 (-1)]]))
    as (Hdec & _).
  - reflexivity.
  - cbn. lia.
  - exact Hwav.
  - vm_compute. reflexivity.
  - eexists _, _. split; [reflexivity|]. split; [exact Hdec|]. vm_compute. reflexivity.
Defined.

End SharedFile.

(** ** The orchestrator and the store *)

Section StoreAndReload.

(** A page load, by what the store holds for the day. *)
Lemma reload_run (date : string) (opened : result unit) (env : Env) (σ : Sys) :
  reload date opened env σ =
  match opened with
  | Ok _ =>
    match store σ !! date with
    | Some r => mkSys (mkAppState date (Some r) None false false EmptyString false)
                      (store σ) [EvSetRevelation r]
    | None => mkSys (mkAppState date None None false false EmptyString false) (store σ) []
    end
  | Throw _ => mkSys (mkAppState date None None false false EmptyString false) (store σ) []
  end.
Proof.
  destruct σ as [a st tr].
  unfold reload, mountEffect, getRevelationFromDB, setTodayString, setRevelation, update,
    initialApp.
  cbv beta iota zeta delta [mbind mret M_bind M_ret fst snd appState store trace
    todayString revelation prayer isLoading isLoadingPrayer error playRevelationOnLoad].
  destruct opened as [u|e]; [|reflexivity].
  destruct (st !! date) as [r|]; reflexivity.
Qed.

(** X12. A generation in which text, audio and the write succeed puts the
    record, with the theme that went into the prompt, in the state and in
    the store under today's date, with no error and the autoplay flag set;
    a page load on the same day brings the same record back, without prayer
    and without autoplay. *)
Theorem generated_revelation_survives_reload (env env2 : Env) (σ : Sys)
        (name theme text : string) (b : byte) (bs : list byte) :
  let today := todayString (appState σ) in
  let finalTheme :=
    if String.eqb theme "Surpreenda-me" then pickTheme (Math_random env) else theme in
  let rev := mkRevelation today text (mkBlob (b :: bs) "audio/pcm") name finalTheme in
  api_text env (revelationPrompt name finalTheme) = Ok text ->
  api_audio env text = Ok (Some (b :: bs)) ->
  idb_put env rev = Ok tt ->
  let σ' := invoke (fun cl => handleGenerateRevelation cl name theme) env σ in
  let σ'' := reload today (Ok tt) env2 σ' in
  (revelation (appState σ') = Some rev /\ store σ' !! today = Some rev /\
   error (appState σ') = EmptyString /\ isLoading (appState σ') = false /\
   playRevelationOnLoad (appState σ') = true) /\
  (revelation (appState σ'') = Some rev /\ prayer (appState σ'') = None /\
   playRevelationOnLoad (appState σ'') = false /\ todayString (appState σ'') = today).
Proof.
  intros today finalTheme rev Htext Haudio Hput σ' σ''.
  assert (Hrun : σ' = mkSys (mkAppState today (Some rev) None false
                                        (isLoadingPrayer (appState σ)) EmptyString true)
                            (<[today := rev]> (store σ)) (trace σ')).
  { unfold σ'. rewrite handleGenerateRevelation_run. cbv zeta.
    fold finalTheme. rewrite Htext, Haudio. fold today. fold rev. rewrite Hput.
    reflexivity. }
  split.
  - rewrite Hrun. cbn [appState store revelation error isLoading playRevelationOnLoad].
    rewrite lookup_insert_eq. auto.
  - unfold σ''. rewrite reload_run, Hrun. cbn [store]. rewrite lookup_insert_eq.
    cbn. auto.
Qed.

Lemma generated_revelation_survives_reload_witness :
  let env := mkEnv (fun _ => Ok "texto") (fun _ => Ok (Some [x01; x00]))
                   (fun _ => Ok tt) 0 in
  let σ := mkSys (mkAppState "02/11/2026" None None false false EmptyString false) ∅ [] in
  let σ' := invoke (fun cl => handleGenerateRevelation cl "Ana" "Amor") env σ in
  option_map rev_theme (revelation (appState (reload "02/11/2026" (Ok tt) env σ')))
  = Some "Amor".
Proof.
  intros env σ σ'.
  destruct (generated_revelation_survives_reload env env σ "Ana" "Amor" "texto" x01 [x00])
    as (_ & Hrev & _).
  - reflexivity.
  - reflexivity.
  - reflexivity.
  - exact (f_equal (option_map rev_theme) Hrev).
Defined.

(** X13. When the write to the store fails, the new revelation is shown with
    the error message and is not stored: the store is unchanged, and a page
    load brings back what was stored for the day before, or nothing. *)
Theorem unsaved_revelation_lost_on_reload (env env2 : Env) (σ : Sys)
        (name theme text : string) (b : byte) (bs : list byte) (e : JsError) :
  let today := todayString (appState σ) in
  let finalTheme :=
    if String.eqb theme "Surpreenda-me" then pickTheme (Math_random env) else theme in
  let rev := mkRevelation today text (mkBlob (b :: bs) "audio/pcm") name finalTheme in
  api_text env (revelationPrompt name finalTheme) = Ok text ->
  api_audio env text = Ok (Some (b :: bs)) ->
  idb_put env rev = Throw e ->
  let σ' := invoke (fun cl => handleGenerateRevelation cl name theme) env σ in
  revelation (appState σ') = Some rev /\ error (appState σ') = REVELATION_ERROR /\
  isLoading (appState σ') = false /\
  playRevelationOnLoad (appState σ') = playRevelationOnLoad (appState σ) /\
  store σ' = store σ /\
  revelation (appState (reload today (Ok tt) env2 σ')) = store σ !! today.
Proof.
  intros today finalTheme rev Htext Haudio Hput σ'.
  assert (Hrun : σ' = mkSys (mkAppState today (Some rev) None false
                                        (isLoadingPrayer (appState σ)) REVELATION_ERROR
                                        (playRevelationOnLoad (appState σ)))
                            (store σ) (trace σ')).
  { unfold σ'. rewrite handleGenerateRevelation_run. cbv zeta.
    fold finalTheme. rewrite Htext, Haudio. fold today. fold rev. rewrite Hput.
    reflexivity. }
  rewrite reload_run, Hrun. cbn [appState store revelation error isLoading playRevelationOnLoad].
  repeat split. destruct (store σ !! today); reflexivity.
Qed.

Lemma unsaved_revelation_lost_on_reload_witness :
  let env := mkEnv (fun _ => Ok "texto") (fun _ => Ok (Some [x01; x00]))
                   (fun _ => Throw (Error "QuotaExceededError")) 0 in
  let σ := mkSys (mkAppState "02/11/2026" None None false false EmptyString false) ∅ [] in
  let σ' := invoke (fun cl => handleGenerateRevelation cl "Ana" "Amor") env σ in
  option_map rev_text (revelation (appState σ')) = Some "texto" /\
  revelation (appState (reload "02/11/2026" (Ok tt) env σ')) = None.
Proof.
  intros env σ σ'.
  destruct (unsaved_revelation_lost_on_reload env env σ "Ana" "Amor" "texto" x01 [x00]
              (Error "QuotaExceededError"))
    as (Hrev & _ & _ & _ & _ & Hreload).
  - reflexivity.
  - reflexivity.
  - reflexivity.
  - split.
    + exact (f_equal (option_map rev_text) Hrev).
    + exact Hreload.
Defined.

End StoreAndReload.

(** ** What the handlers leave alone *)

Section HandlerFrames.

Ltac by_outcome env :=
  repeat match goal with
         | |- context [match api_text env ?p with _ => _ end] =>
           destruct (api_text env p) as [?text|?e]
         | |- context [match api_audio env ?t with _ => _ end] =>
           destruct (api_audio env t) as [[?bytes|]|?e]
         | |- context [match idb_put env ?r with _ => _ end] =>
           destruct (idb_put env r) as [?u|?e]
         end.

(** X14. The store keeps one record per date and the handlers only ever
    write today's: a revelation request leaves the records of all other
    dates as they are, whatever happens, and a prayer request does not write
    to the store at all. A record found under today's date afterwards is the
    old one or one made by this request. *)
Theorem handlers_keep_other_days (env : Env) (σ : Sys) (name theme : string) :
  let today := todayString (appState σ) in
  let σ' := invoke (fun cl => handleGenerateRevelation cl name theme) env σ in
  (forall d, d <> today -> store σ' !! d = store σ !! d) /\
  (forall r, store σ' !! today = Some r ->
             store σ !! today = Some r \/
             (rev_date r = today /\ rev_name r = name /\ revelation (appState σ') = Some r)) /\
  store (invoke handleGeneratePrayer env σ) = store σ.
Proof.
  intros today σ'. split; [|split].
  - intros d Hd. unfold σ'. rewrite handleGenerateRevelation_run. cbv zeta.
    by_outcome env; cbn [store]; try reflexivity.
    apply lookup_insert_ne. intros E. apply Hd. symmetry. exact E.
  - intros r. unfold σ'. rewrite handleGenerateRevelation_run. cbv zeta.
    by_outcome env; cbn [store appState revelation]; auto.
    fold today. rewrite lookup_insert_eq. intros [= <-]. right. auto.
  - rewrite handleGeneratePrayer_run. cbv zeta.
    destruct (revelation (appState σ)); [|reflexivity].
    by_outcome env; reflexivity.
Qed.

Lemma handlers_keep_other_days_witness :
  let env := mkEnv (fun _ => Ok "texto") (fun _ => Ok (Some [x01; x00]))
                   (fun _ => Ok tt) 0 in
  let old := mkRevelation "01/11/2026" "ontem" (mkBlob [x02; x00] "audio/pcm") "Ana" "Amor" in
  let σ := mkSys (mkAppState "02/11/2026" None None false false EmptyString false)
                 (<["01/11/2026" := old]> ∅) [] in
  store (invoke (fun cl => handleGenerateRevelation cl "Ana" "Amor") env σ) !! "01/11/2026"
  = Some old.
Proof.
  intros env old σ.
  destruct (handlers_keep_other_days env σ "Ana" "Amor") as (Hother & _).
  rewrite (Hother "01/11/2026").
  - reflexivity.
  - cbn. discriminate.
Defined.

(** X15. A prayer request that succeeds attaches the prayer to the state
    only: the revelation and the store are left as they are, nothing is
    written to the database, and the error slot and the busy flag are
    cleared. After a page load the prayer is gone, and the revelation shown
    is the one the store holds for the day: the one the prayer was made for
    when that one had been saved, and otherwise an older one or none. *)
Theorem prayer_kept_in_memory_only (env env2 : Env) (σ : Sys) (rev : Revelation)
        (text : string) (b : byte) (bs : list byte) (opened : result unit) :
  revelation (appState σ) = Some rev ->
  api_text env (prayerPrompt (rev_theme rev) (rev_name rev)) = Ok text ->
  api_audio env text = Ok (Some (b :: bs)) ->
  let σ' := invoke handleGeneratePrayer env σ in
  prayer (appState σ') = Some (mkPrayer text (mkBlob (b :: bs) "audio/pcm")) /\
  revelation (appState σ') = Some rev /\
  error (appState σ') = EmptyString /\ isLoadingPrayer (appState σ') = false /\
  store σ' = store σ /\
  (exists evs, trace σ' = trace σ ++ evs /\
               Forall (fun ev => match ev with EvDbPut _ => False | _ => True end) evs) /\
  prayer (appState (reload (todayString (appState σ)) opened env2 σ')) = None /\
  revelation (appState (reload (todayString (appState σ)) (Ok tt) env2 σ'))
  = store σ !! todayString (appState σ) /\
  (store σ !! todayString (appState σ) = Some rev <->
   revelation (appState (reload (todayString (appState σ)) (Ok tt) env2 σ')) = Some rev).
Proof.
  intros Hrev Htext Haudio σ'.
  assert (Hreload : revelation (appState (reload (todayString (appState σ)) (Ok tt) env2 σ'))
                    = store σ !! todayString (appState σ)).
  { unfold σ'. rewrite reload_run, handleGeneratePrayer_run. cbv zeta.
    rewrite Hrev, Htext, Haudio. cbn [store].
    destruct (store σ !! _); reflexivity. }
  split; [|split; [|split; [|split; [|split; [|split; [|split; [|split; [exact Hreload|]]]]]]]].
  8: { rewrite Hreload. reflexivity. }
  all: unfold σ'; rewrite ?reload_run, handleGeneratePrayer_run; cbv zeta;
    rewrite Hrev, Htext, Haudio;
    cbn [appState store trace prayer revelation error isLoadingPrayer]; try reflexivity.
  - rewrite <- app_assoc. eexists. split; [reflexivity|]. repeat constructor.
  - destruct opened; [destruct (store σ !! _)|]; reflexivity.
Qed.

Lemma prayer_kept_in_memory_only_witness :
  let env := mkEnv (fun _ => Ok "oremos") (fun _ => Ok (Some [x01; x00]))
                   (fun _ => Ok tt) 0 in
  let rev := mkRevelation "02/11/2026" "texto" (mkBlob [x01; x00] "audio/pcm") "Ana" "Amor" in
  let σ := mkSys (mkAppState "02/11/2026" (Some rev) None false false EmptyString false)
                 (<["02/11/2026" := rev]> ∅) [] in
  let σ' := invoke handleGeneratePrayer env σ in
  option_map prayer_text (prayer (appState σ')) = Some "oremos" /\
  prayer (appState (reload "02/11/2026" (Ok tt) env σ')) = None.
Proof.
  intros env rev σ σ'.
  destruct (prayer_kept_in_memory_only env env σ rev "oremos" x01 [x00] (Ok tt))
    as (Hp & _ & _ & _ & _ & _ & Hreload & _).
  - reflexivity.
  - reflexivity.
  - reflexivity.
  - split; [exact (f_equal (option_map prayer_text) Hp) | exact Hreload].
Defined.

(** X16. Every request ends with its busy flag off, whatever the services
    answer, and leaves the state of the other request alone: a revelation
    request does not change [todayString] or [isLoadingPrayer]; a prayer
    request changes nothing of [todayString], [revelation], [isLoading] and
    [playRevelationOnLoad]. *)
Theorem handlers_frame (env : Env) (σ : Sys) (name theme : string) :
  let a := appState σ in
  let r := appState (invoke (fun cl => handleGenerateRevelation cl name theme) env σ) in
  let p := appState (invoke handleGeneratePrayer env σ) in
  (isLoading r = false /\ isLoadingPrayer r = isLoadingPrayer a /\
   todayString r = todayString a) /\
  (isLoading p = isLoading a /\ todayString p = todayString a /\
   revelation p = revelation a /\ playRevelationOnLoad p = playRevelationOnLoad a /\
   (revelation a <> None -> isLoadingPrayer p = false) /\
   (revelation a = None -> p = a)).
Proof.
  intros a r p. split.
  - unfold r. rewrite handleGenerateRevelation_run. cbv zeta.
    by_outcome env; cbn; auto.
  - unfold p. rewrite handleGeneratePrayer_run. cbv zeta. fold a.
    destruct (revelation a) as [rev|] eqn:Hrev.
    + by_outcome env; cbn; rewrite ?Hrev; repeat split; auto; intros; discriminate.
    + repeat split; auto. intros H. contradiction.
Qed.

Lemma handlers_frame_witness :
  let env := mkEnv (fun _ => Throw (Error "network")) (fun _ => Throw (Error "network"))
                   (fun _ => Ok tt) 0 in
  let rev := mkRevelation "02/11/2026" "texto" (mkBlob [x01; x00] "audio/pcm") "Ana" "Amor" in
  let σ := mkSys (mkAppState "02/11/2026" (Some rev) None false true EmptyString false) ∅ [] in
  isLoadingPrayer (appState (invoke handleGeneratePrayer env σ)) = false.
Proof.
  intros env rev σ.
  destruct (handlers_frame env σ "Ana" "Amor") as (_ & _ & _ & _ & _ & Hbusy & _).
  apply Hbusy. cbn. discriminate.
Defined.

(** X17. A request that failed at the text or at the speech step leaves
    nothing behind that a second request would see: running the request
    again gives the state and the store it would have given without the
    failed attempt. *)
Theorem retry_after_failure (env1 env2 : Env) (σ : Sys) (name theme : string) :
  let finalTheme :=
    if String.eqb theme "Surpreenda-me" then pickTheme (Math_random env1) else theme in
  let prompt := revelationPrompt name finalTheme in
  ((exists e, api_text env1 prompt = Throw e) \/
   (exists text, api_text env1 prompt = Ok text /\
                 forall bytes, api_audio env1 text <> Ok (Some bytes))) ->
  let failed := invoke (fun cl => handleGenerateRevelation cl name theme) env1 σ in
  let again := invoke (fun cl => handleGenerateRevelation cl name theme) env2 failed in
  let fresh := invoke (fun cl => handleGenerateRevelation cl name theme) env2 σ in
  error (appState failed) = REVELATION_ERROR /\
  appState again = appState fresh /\ store again = store fresh.
Proof.
  intros finalTheme prompt Hfail failed again fresh.
  assert (Hfailed : failed =
            mkSys (mkAppState (todayString (appState σ)) (revelation (appState σ)) None false
                              (isLoadingPrayer (appState σ)) REVELATION_ERROR
                              (playRevelationOnLoad (appState σ)))
                  (store σ) (trace failed)).
  { unfold failed. rewrite handleGenerateRevelation_run. cbv zeta.
    fold finalTheme. fold prompt.
    destruct Hfail as [[e He]|(text & Ht & Ha)].
    - rewrite He. reflexivity.
    - rewrite Ht. destruct (api_audio env1 text) as [[bytes|]|e] eqn:E; try reflexivity.
      exfalso. apply (Ha bytes). reflexivity. }
  split; [rewrite Hfailed; reflexivity|].
  unfold again, fresh. rewrite !handleGenerateRevelation_run. cbv zeta.
  rewrite Hfailed. cbn [appState store todayString revelation isLoadingPrayer
                        playRevelationOnLoad].
  by_outcome env2; cbn [appState store]; split; reflexivity.
Qed.

Lemma retry_after_failure_witness :
  let offline := mkEnv (fun _ => Throw (Error "network")) (fun _ => Throw (Error "network"))
                       (fun _ => Ok tt) 0 in
  let online := mkEnv (fun _ => Ok "texto") (fun _ => Ok (Some [x01; x00]))
                      (fun _ => Ok tt) 0 in
  let σ := mkSys (mkAppState "02/11/2026" None None false false EmptyString false) ∅ [] in
  let failed := invoke (fun cl => handleGenerateRevelation cl "Ana" "Amor") offline σ in
  error (appState failed) = REVELATION_ERROR /\
  error (appState (invoke (fun cl => handleGenerateRevelation cl "Ana" "Amor") online failed))
  = EmptyString.
Proof.
  intros offline online σ failed.
  destruct (retry_after_failure offline online σ "Ana" "Amor") as (Herr & Hsame & _).
  - left. eexists. reflexivity.
  - split; [exact Herr|].
    exact (eq_trans (f_equal error Hsame) eq_refl).
Defined.

End HandlerFrames.

(** ** The prayer prompt *)

Section PrayerPrompt.

Lemma prayerPrompt_shape :
  exists pA pB pC : list ascii,
    (has_infix (list_ascii_of_string SURPRISE) pA = false /\
     has_infix (list_ascii_of_string SURPRISE) pB = false /\
     has_infix (list_ascii_of_string SURPRISE) pC = false) /\
    forall theme name,
      list_ascii_of_string (prayerPrompt theme name) =
      pA ++ ascii_of_nat 34 :: list_ascii_of_string theme ++
      ascii_of_nat 34 :: pB ++ " "%char :: list_ascii_of_string name ++
      ","%char :: pC.
Proof.
  exists (list_ascii_of_string "Com base na reflexão sobre "),
         (list_ascii_of_string " para"),
         (list_ascii_of_string " crie uma oração curta e inspiradora. A oração deve ter no máximo 1 minuto de duração quando lida.").
  split.
  - repeat split; vm_compute; reflexivity.
  - intros theme name. unfold prayerPrompt.
    rewrite !list_ascii_of_string_app. reflexivity.
Qed.

Lemma prayerPrompt_sentinel (theme name : string) :
  ~ occurs_in SURPRISE theme -> ~ occurs_in SURPRISE name ->
  ~ occurs_in SURPRISE (prayerPrompt theme name).
Proof.
  intros Htheme Hname Hocc.
  destruct prayerPrompt_shape as (pA & pB & pC & (HA & HB & HC) & Hshape).
  unfold occurs_in in Hocc. rewrite Hshape in Hocc.
  assert (Hsp : ~ In " "%char (list_ascii_of_string SURPRISE))
    by (apply ascii_not_in; reflexivity).
  assert (Hdq : ~ In (ascii_of_nat 34) (list_ascii_of_string SURPRISE))
    by (apply ascii_not_in; reflexivity).
  assert (Hcm : ~ In ","%char (list_ascii_of_string SURPRISE))
    by (apply ascii_not_in; reflexivity).
  assert (Hno : forall q, has_infix (list_ascii_of_string SURPRISE) q = false ->
                          ~ exists l r, q = l ++ list_ascii_of_string SURPRISE ++ r).
  { intros q Hq (l & r & E). rewrite E, has_infix_complete in Hq. discriminate. }
  apply (infix_split _ _ _ _ Hdq) in Hocc as [Hocc|Hocc]; [exact (Hno pA HA Hocc)|].
  apply (infix_split _ _ _ _ Hdq) in Hocc as [Hocc|Hocc]; [exact (Htheme Hocc)|].
  apply (infix_split _ _ _ _ Hsp) in Hocc as [Hocc|Hocc]; [exact (Hno pB HB Hocc)|].
  apply (infix_split _ _ _ _ Hcm) in Hocc as [Hocc|Hocc]; [exact (Hname Hocc)|].
  exact (Hno pC HC Hocc).
Qed.

(** X18. The prayer is asked for the revelation that is on screen: after a
    request whose text and speech were generated (saved or not), the next
    prayer request sends the text model one prompt, built from the name that
    was typed and the theme that request resolved. After a "Surpreenda-me"
    request that is the theme that was drawn, and the sentinel is not in the
    prompt unless the name contains it. *)
Theorem prayer_prompt_follows_revelation (env env' : Env) (σ : Sys)
        (name theme text : string) (b : byte) (bs : list byte) :
  let finalTheme :=
    if String.eqb theme "Surpreenda-me" then pickTheme (Math_random env) else theme in
  api_text env (revelationPrompt name finalTheme) = Ok text ->
  api_audio env text = Ok (Some (b :: bs)) ->
  let σ1 := invoke (fun cl => handleGenerateRevelation cl name theme) env σ in
  let σ2 := invoke handleGeneratePrayer env' σ1 in
  (exists rest,
     trace σ2 = trace σ1 ++ EvSetIsLoadingPrayer true :: EvSetError EmptyString ::
                            EvGenerateContent "gemini-2.5-flash"
                                              (prayerPrompt finalTheme name) :: rest /\
     Forall (fun ev => match ev with
                       | EvGenerateContent model _ => model <> "gemini-2.5-flash"
                       | _ => True
                       end) rest) /\
  (theme = SURPRISE -> (0 <= Math_random env)%Q -> (Math_random env < 1)%Q ->
   ~ occurs_in SURPRISE name -> ~ occurs_in SURPRISE (prayerPrompt finalTheme name)).
Proof.
  intros finalTheme Htext Haudio σ1 σ2. split.
  - assert (Hrev : revelation (appState σ1) =
                   Some (mkRevelation (todayString (appState σ)) text
                                      (mkBlob (b :: bs) "audio/pcm") name finalTheme)).
    { unfold σ1. rewrite handleGenerateRevelation_run. cbv zeta.
      fold finalTheme. rewrite Htext, Haudio.
      destruct (idb_put env _); reflexivity. }
    unfold σ2. rewrite handleGeneratePrayer_run. cbv zeta. rewrite Hrev.
    cbn [rev_theme rev_name].
    destruct (api_text env' _) as [text'|e];
      [destruct (api_audio env' text') as [[bytes'|]|e]|];
      cbn [trace]; rewrite <- app_assoc; cbn [List.app];
      eexists; (split; [reflexivity|]);
      repeat constructor; discriminate.
  - intros -> H0 H1 Hname. apply prayerPrompt_sentinel; [|exact Hname].
    unfold finalTheme. cbn [String.eqb].
    change (String.eqb SURPRISE "Surpreenda-me") with true. cbv iota.
    apply pickTheme_without_sentinel.
Qed.

Lemma prayer_prompt_follows_revelation_witness :
  let env := mkEnv (fun _ => Ok "texto") (fun _ => Ok (Some [x01; x00]))
                   (fun _ => Throw (Error "quota")) (1 # 2) in
  let σ := mkSys (mkAppState "02/11/2026" None None false false EmptyString false) ∅ [] in
  let σ1 := invoke (fun cl => handleGenerateRevelation cl "Ana" SURPRISE) env σ in
  ~ occurs_in SURPRISE (prayerPrompt (pickTheme (1 # 2)) "Ana").
Proof.
  intros env σ σ1.
  destruct (prayer_prompt_follows_revelation env env σ "Ana" SURPRISE "texto" x01 [x00]
              eq_refl eq_refl) as [_ H].
  apply H.
  - reflexivity.
  - unfold Qle; cbn; lia.
  - unfold Qlt; cbn; lia.
  - apply no_infix. vm_compute. reflexivity.
Defined.

End PrayerPrompt.

(** ** Sharing *)

Section Sharing.

(** X19. What a tap on a share button does. Without the content it shares
    nothing. With it, the run ends in exactly one of two ways: the native
    share sheet took the text together with one WAV file, whose bytes are 44
    header bytes followed by the bytes read from the clip, and no link is
    opened; or one WhatsApp link with the message is opened, as the last
    thing the handler does, after at most one rejected share. *)
Theorem handleShare_outcome (nav : Navigator) (reader : FileReader) (a : AppState)
        (type : string) :
  let evs := handleShare nav reader a type in
  let content :=
    if String.eqb type "prayer"
    then option_map (fun p => (prayer_text p, prayer_audio p)) (prayer a)
    else option_map (fun r => (rev_text r, rev_audio r)) (revelation a) in
  match content with
  | None => evs = []
  | Some (text, audio) =>
    let link := ShWindowOpen (whatsappUrl (shareMessage text)) "_blank" in
    (exists share data f pcm,
       evs = [ShShare data] /\
       nav_share nav = Some share /\ share data = Ok tt /\
       share_text data = shareMessage text /\ share_files data = [f] /\
       file_type f = "audio/wav" /\
       reader audio = onload (Some pcm) /\
       length (file_bytes f) = 44 + length pcm /\ dataChunk (file_bytes f) = pcm) \/
    (exists pre,
       evs = pre ++ [link] /\ length pre <= 2 /\
       Forall (fun ev => match ev with
                         | ShWindowOpen _ _ => False
                         | ShShare data =>
                           exists share e, nav_share nav = Some share /\
                                           share data = Throw e
                         | ShConsoleError => True
                         end) pre)
  end.
Proof.
  intros evs content. unfold evs, handleShare. fold content.
  destruct content as [[text audio]|]; [|reflexivity].
  cbv zeta.
  destruct (nav_share nav) as [share|] eqn:Hshare;
    [|right; exists []; split; [reflexivity|]; split; [cbn; lia | constructor]].
  pose proof (pcmToWav_outcome reader audio 24000 1 16) as Hwav.
  destruct (reader audio) as [[pcm|]|e] eqn:Hread.
  - destruct Hwav as (wav & -> & _ & Hlen & Hdata).
    destruct (nav_canShare nav) as [canShare|];
      [|right; exists []; split; [reflexivity|]; split; [cbn; lia | constructor]].
    destruct (canShare _);
      [|right; exists []; split; [reflexivity|]; split; [cbn; lia | constructor]].
    destruct (share _) as [[]|e] eqn:Hres.
    + left. do 4 eexists. split; [reflexivity|].
      split; [reflexivity|]. split; [exact Hres|]. cbn [share_text share_files].
      split; [reflexivity|]. split; [reflexivity|]. cbn [file_type file_bytes].
      split; [reflexivity|]. split; [reflexivity|]. split; assumption.
    + right. eexists [_; _]. split; [reflexivity|]. split; [cbn; lia|].
      constructor; [|constructor; [exact I | constructor]].
      exists share, e. split; [reflexivity | exact Hres].
  - rewrite Hwav. right. exists [ShConsoleError]. split; [reflexivity|].
    split; [cbn; lia|]. repeat constructor.
  - rewrite Hwav. right. exists [ShConsoleError]. split; [reflexivity|].
    split; [cbn; lia|]. repeat constructor.
Qed.

Lemma percentEncode_decodes (c : ascii) (rest : list ascii) :
  percentDecode (percentEncode c ++ rest) = option_map (cons c) (percentDecode rest).
Proof.
  assert (H : (isUnreserved c = true /\ Ascii.eqb c "%" = false) \/
              (isUnreserved c = false /\
               hexValue (hexDigit (nat_of_ascii c / 16)) = Some (nat_of_ascii c / 16) /\
               hexValue (hexDigit (nat_of_ascii c mod 16)) = Some (nat_of_ascii c mod 16) /\
               ascii_of_nat (16 * (nat_of_ascii c / 16) + nat_of_ascii c mod 16) = c)).
  { destruct c as [[] [] [] [] [] [] [] []]; vm_compute; auto. }
  unfold percentEncode.
  destruct H as [[-> Hne]|(-> & Hh & Hl & Hc)].
  - cbn [List.app percentDecode]. rewrite Hne. reflexivity.
  - cbn [List.app percentDecode]. change (Ascii.eqb "%" "%") with true. cbv iota.
    rewrite Hh, Hl, Hc. destruct (percentDecode rest); reflexivity.
Qed.

Lemma percentEncode_alphabet (c d : ascii) :
  In d (percentEncode c) ->
  isUnreserved d = true \/ d = "%"%char \/ hexValue d <> None.
Proof.
  assert (H : forallb (fun d => isUnreserved d || Ascii.eqb d "%" ||
                                match hexValue d with Some _ => true | None => false end)
                      (percentEncode c) = true).
  { destruct c as [[] [] [] [] [] [] [] []]; vm_compute; reflexivity. }
  rewrite forallb_forall in H. intros Hin. specialize (H d Hin).
  apply orb_true_iff in H as [H|H]; [apply orb_true_iff in H as [H|H]|].
  - left. exact H.
  - right. left. apply Ascii.eqb_eq. exact H.
  - right. right. destruct (hexValue d); [discriminate|discriminate].
Qed.

(** X20. The link of the fallback carries the message whole: it is
    [https://wa.me/?text=] followed by a query made of unreserved
    characters, [%] and hexadecimal digits only (no blank, line break, [&],
    [#], [=], [?], [+] or [/] of the message is left bare), and decoding
    the percent escapes of the query gives the message back, byte by byte. *)
Theorem whatsapp_link_carries_message (message : string) :
  exists query,
    list_ascii_of_string (whatsappUrl message)
    = list_ascii_of_string "https://wa.me/?text=" ++ query /\
    Forall (fun d => isUnreserved d = true \/ d = "%"%char \/ hexValue d <> None) query /\
    (forall d, In d query ->
               ~ In d (ascii_of_nat 10 :: list_ascii_of_string " &#=?+/")) /\
    percentDecode query = Some (list_ascii_of_string message).
Proof.
  exists (concat (map percentEncode (list_ascii_of_string message))).
  assert (Halpha : Forall (fun d => isUnreserved d = true \/ d = "%"%char \/ hexValue d <> None)
                          (concat (map percentEncode (list_ascii_of_string message)))).
  { apply List.Forall_forall. intros d Hin. apply in_concat in Hin as (l & Hl & Hd).
    apply in_map_iff in Hl as (c & <- & _). exact (percentEncode_alphabet c d Hd). }
  split; [|split; [exact Halpha|split]].
  - unfold whatsappUrl, encodeURIComponent.
    rewrite list_ascii_of_string_app, list_ascii_of_string_of_list_ascii. reflexivity.
  - intros d Hin Hbad. rewrite List.Forall_forall in Halpha. specialize (Halpha d Hin).
    cbn in Hbad.
    repeat (destruct Hbad as [<-|Hbad];
            [destruct Halpha as [H|[H|H]]; [discriminate H | discriminate H | apply H; reflexivity]|]).
    exact Hbad.
  - clear Halpha. induction (list_ascii_of_string message) as [|c cs IH]; [reflexivity|].
    cbn [map concat]. rewrite percentEncode_decodes, IH. reflexivity.
Qed.

End Sharing.

(** ** The time display *)

Section TimeDisplay.

Lemma parseDecimal_Number_toString (z : Z) : parseDecimal (Number_toString z) = Some z.
Proof.
  unfold parseDecimal, Number_toString.
  assert (Hnil : forall d, Z.to_int z = d -> Z.of_int d = 0%Z -> Z.to_int 0 = d).
  { intros d Hd H0. rewrite <- Hd, <- H0, <- Hd, of_to. reflexivity. }
  rewrite NilZero.isi.
  - cbn. rewrite of_to. reflexivity.
  - intros E. specialize (Hnil _ E eq_refl). discriminate Hnil.
  - intros E. specialize (Hnil _ E eq_refl). discriminate Hnil.
Qed.

(** The two numbers [formatTime] prints, for a time that is not negative. *)
Lemma formatTime_fields (time : Q) :
  (0 <= time)%Q ->
  Qfloor (time / 60) = (Qfloor time / 60)%Z /\
  Qfloor (js_rem time 60) = (Qfloor time mod 60)%Z.
Proof.
  intros Hpos.
  assert (E : (time == time / 60 * 60)%Q) by field.
  pose proof (Qfloor_le (time / 60)) as Hlo. pose proof (Qlt_floor (time / 60)) as Hhi.
  pose proof (Qfloor_le time) as Hlo2. pose proof (Qlt_floor time) as Hhi2.
  set (x := (time / 60)%Q) in *. set (m := Qfloor x) in *. set (T := Qfloor time) in *.
  rewrite inject_Z_plus in Hhi, Hhi2. change (inject_Z 1) with 1%Q in Hhi, Hhi2.
  assert (Ha : (inject_Z (60 * m) < inject_Z (T + 1))%Q).
  { rewrite inject_Z_mult, inject_Z_plus. change (inject_Z 60) with 60%Q.
    change (inject_Z 1) with 1%Q. lra. }
  assert (Hb : (inject_Z T < inject_Z (60 * (m + 1)))%Q).
  { rewrite inject_Z_mult, inject_Z_plus. change (inject_Z 60) with 60%Q.
    change (inject_Z 1) with 1%Q. lra. }
  rewrite <- Zlt_Qlt in Ha, Hb.
  assert (Hdiv : (T / 60)%Z = m).
  { symmetry. apply (Z.div_unique T 60 m (T - 60 * m)); lia. }
  split; [symmetry; exact Hdiv|].
  unfold js_rem, Qtrunc. fold x.
  assert (Hx : Qle_bool 0 x = true) by (apply Qle_bool_iff; lra).
  rewrite Hx. fold m.
  apply Qfloor_between.
  rewrite Z.mod_eq, Hdiv by lia.
  unfold Z.sub. rewrite !inject_Z_plus, !inject_Z_opp, !inject_Z_mult.
  change (inject_Z 60) with 60%Q. change (inject_Z 1) with 1%Q.
  split; lra.
Qed.

Lemma seconds_field (s : Z) :
  (0 <= s < 60)%Z ->
  String.length (padStart 2 "0" (Number_toString s)) = 2 /\
  parseDecimal (padStart 2 "0" (Number_toString s)) = Some s.
Proof.
  intros Hs.
  assert (H : forallb (fun n =>
                let str := padStart 2 "0" (Number_toString (Z.of_nat n)) in
                Nat.eqb (String.length str) 2 &&
                match parseDecimal str with
                | Some z => Z.eqb z (Z.of_nat n)
                | None => false
                end) (List.seq 0 60) = true) by (vm_compute; reflexivity).
  rewrite forallb_forall in H.
  assert (Hin : In (Z.to_nat s) (List.seq 0 60)) by (apply in_seq; lia).
  specialize (H _ Hin). rewrite Z2Nat.id in H by lia. cbv zeta in H.
  apply andb_true_iff in H as [Hlen Hparse].
  split; [apply Nat.eqb_eq; exact Hlen|].
  destruct (parseDecimal _) as [z|]; [|discriminate].
  apply Z.eqb_eq in Hparse. rewrite Hparse. reflexivity.
Qed.

(** A double below an integer stays a unit in its last place below it, or a
    whole 1 when that unit is larger. *)
Lemma double_below_integer (x : Q) (n : Z) :
  isDouble x -> (0 < x)%Q -> (x < inject_Z n)%Q ->
  (x <= inject_Z n - pow2 (Z.min (exponent64 x) 0))%Q.
Proof.
  intros Hd Hpos Hlt. unfold isDouble in Hd. rewrite (fl64_pos_eq x Hpos) in Hd.
  unfold fl64_pos in Hd.
  set (a := exponent64 x) in *. set (T := roundEven (x / pow2 a)) in *.
  set (c := Z.min a 0).
  assert (Hac : (0 <= a - c)%Z) by lia. assert (Hc : (c <= 0)%Z) by lia.
  assert (Ha : (pow2 a == inject_Z (2 ^ (a - c)) * pow2 c)%Q).
  { rewrite <- pow2_inject by lia. rewrite <- pow2_add.
    replace (a - c + c)%Z with a by lia. reflexivity. }
  pose proof (integer_on_grid n c Hc) as Hn.
  pose proof (pow2_pos c) as Hp.
  assert (Hx : (x == inject_Z (T * 2 ^ (a - c)) * pow2 c)%Q).
  { rewrite <- Hd, Ha, inject_Z_mult. ring. }
  assert (Hint : (T * 2 ^ (a - c) < n * 2 ^ (- c))%Z).
  { rewrite Zlt_Qlt.
    apply (Qmult_lt_r _ _ (pow2 c) Hp). rewrite <- Hx, <- Hn. exact Hlt. }
  assert (Hint' : (inject_Z (T * 2 ^ (a - c)) <= inject_Z (n * 2 ^ (- c)) - 1)%Q).
  { assert (H : (inject_Z (n * 2 ^ (- c) - 1) == inject_Z (n * 2 ^ (- c)) - 1)%Q).
    { unfold Z.sub. rewrite inject_Z_plus. reflexivity. }
    rewrite <- H, <- Zle_Qle. lia. }
  rewrite Hx, Hn.
  set (A := inject_Z (T * 2 ^ (a - c))) in *. set (B := inject_Z (n * 2 ^ (- c))) in *.
  nra.
Qed.

Lemma quotient60_floor (time : Q) :
  isDouble time -> (0 <= time)%Q -> (time < pow2 53)%Q ->
  Qfloor (time / 60) = (Qfloor time / 60)%Z ->
  Qfloor (fl64 (time / 60)) = (Qfloor time / 60)%Z.
Proof.
  intros Hd H0 H53 Hexact.
  set (m := (Qfloor time / 60)%Z) in *.
  apply Qfloor_between in Hexact as [Hlo Hhi].
  assert (E : (time == time / 60 * 60)%Q) by field.
  set (x := (time / 60)%Q) in *.
  assert (Hp53 : (pow2 53 == 9007199254740992)%Q) by reflexivity.
  apply Qfloor_between.
  destruct (Qlt_le_dec 0 x) as [Hpos|Hneg].
  - assert (Htpos : (0 < time)%Q) by lra.
    assert (Hx53 : (x < pow2 53)%Q) by lra.
    split; [apply fl64_ge_integer; assumption|].
    assert (H32 : (pow2 48 == 281474976710656)%Q) by reflexivity.
    assert (Hx48 : (x < pow2 48)%Q) by lra.
    pose proof (Qlog2_lt x 48 Hpos Hx48) as Hlx.
    destruct (Qlt_le_dec time 30) as [Hsmall|Hbig].
    + assert (He : (exponent64 x <= -48)%Z).
      { apply exponent64_below_32; [exact Hpos | lra]. }
      pose proof (pow2_le _ _ He) as Hu.
      assert (H48 : (pow2 (-48) == 1 # 281474976710656)%Q) by reflexivity.
      assert (Hm : (0 < inject_Z (m + 1))%Q) by lra.
      change 0%Q with (inject_Z 0) in Hm. rewrite <- Zlt_Qlt in Hm.
      assert (Hm1 : (inject_Z 1 <= inject_Z (m + 1))%Q) by (rewrite <- Zle_Qle; lia).
      change (inject_Z 1) with 1%Q in Hm1.
      apply fl64_lt_integer; [exact Hpos | exact Hx53 | lra].
    + assert (Hhalf : (pow2 (-1) <= x)%Q).
      { assert (H : (pow2 (-1) == 1 # 2)%Q) by reflexivity. lra. }
      pose proof (Qlog2_ge x (-1) Hhalf) as Hlx'.
      assert (He : exponent64 x = (Qlog2 x - 52)%Z) by (unfold exponent64; lia).
      destruct (Qlog2_spec time Htpos) as [_ Hthi].
      assert (Hlog : (Qlog2 x < Qlog2 time - 4)%Z).
      { apply (Qlog2_lt x _ Hpos).
        replace (Qlog2 time - 4)%Z with ((Qlog2 time + 1) + -5)%Z by lia.
        rewrite pow2_add.
        assert (H5 : (pow2 (-5) == 1 # 32)%Q) by reflexivity.
        rewrite H5. pose proof (pow2_pos (Qlog2 time + 1)).
        set (P := pow2 (Qlog2 time + 1)) in *. lra. }
      assert (Hti : (time < inject_Z (60 * (m + 1)))%Q).
      { rewrite inject_Z_mult. change (inject_Z 60) with 60%Q. lra. }
      pose proof (double_below_integer time (60 * (m + 1)) Hd Htpos Hti) as Hgap.
      set (c := Z.min (exponent64 time) 0) in *.
      assert (Hce : (exponent64 x + 5 <= c)%Z).
      { unfold c, exponent64 in *. lia. }
      pose proof (pow2_le _ _ Hce) as Hpw. rewrite pow2_add in Hpw.
      assert (H5 : (pow2 5 == 32)%Q) by reflexivity. rewrite H5 in Hpw.
      pose proof (pow2_pos (exponent64 x)) as Hu.
      rewrite inject_Z_mult in Hgap. change (inject_Z 60) with 60%Q in Hgap.
      apply fl64_lt_integer; [exact Hpos | exact Hx53 |].
      set (u := pow2 (exponent64 x)) in *. set (g := pow2 c) in *.
      set (M := inject_Z (m + 1)) in *. lra.
  - rewrite (fl64_zero x) by lra. split; lra.
Qed.

(** X21. The time shown next to the progress bar, for a time from 0 to
    below 2^53 seconds: the whole minutes, a colon, and the seconds in
    exactly two characters. Read back as numbers the two fields are the
    quotient and the remainder of the whole seconds by 60, so the seconds
    shown are below 60 and the rounding of [time / 60] never shows a minute
    too many. *)
Theorem formatTime_minutes_seconds (time : Q) :
  isDouble time -> (0 <= time)%Q -> (time < inject_Z (2 ^ 53))%Q ->
  exists minutes seconds : string,
    formatTime time = minutes +:+ ":" +:+ seconds /\
    String.length seconds = 2 /\
    exists m s : Z,
      parseDecimal minutes = Some m /\ parseDecimal seconds = Some s /\
      (0 <= m < 2 ^ 53)%Z /\ (0 <= s < 60)%Z /\ (60 * m + s)%Z = Qfloor time.
Proof.
  intros Hd Hpos Hbig.
  destruct (formatTime_fields time Hpos) as [Hm Hs].
  assert (Hm' : Qfloor (fl64 (time / 60)) = (Qfloor time / 60)%Z).
  { apply quotient60_floor; assumption. }
  assert (HT : (0 <= Qfloor time < 2 ^ 53)%Z).
  { split.
    - change 0%Z with (Qfloor 0). apply Qfloor_resp_le. exact Hpos.
    - rewrite Zlt_Qlt. pose proof (Qfloor_le time). lra. }
  pose proof (Z.mod_pos_bound (Qfloor time) 60 ltac:(lia)) as Hmod.
  destruct (seconds_field _ Hmod) as [Hlen Hparse].
  exists (Number_toString (Qfloor time / 60)),
         (padStart 2 "0" (Number_toString (Qfloor time mod 60))).
  split; [unfold formatTime; cbv zeta; rewrite Hm', Hs; reflexivity|].
  split; [exact Hlen|].
  exists (Qfloor time / 60)%Z, (Qfloor time mod 60)%Z.
  split; [apply parseDecimal_Number_toString|]. split; [exact Hparse|].
  split; [split; [apply Z.div_pos; lia | apply Z.div_lt_upper_bound; lia]|].
  split; [exact Hmod|].
  symmetry. apply Z.div_mod. lia.
Qed.

Lemma formatTime_minutes_seconds_witness :
  formatTime (251 # 2) = "2:05" /\
  exists minutes seconds : string,
    formatTime (251 # 2) = minutes +:+ ":" +:+ seconds /\ String.length seconds = 2.
Proof.
  split; [vm_compute; reflexivity|].
  destruct (formatTime_minutes_seconds (251 # 2)) as (minutes & seconds & Hfmt & Hlen & _).
  - vm_compute. reflexivity.
  - unfold Qle; cbn; lia.
  - unfold Qlt; cbn; lia.
  - exists minutes, seconds. split; assumption.
Defined.

End TimeDisplay.

(** ** From a generated revelation to sound *)

Section Autoplay.

(** What a clip load keeps of a player, by the outcome of the decode. *)
Lemma loadAudio_fields (s : Player) (clip : Blob) :
  let s' := loadAudio (Some clip) s in
  isPlaying s' = isPlaying s /\ length (nodes s') = length (nodes s) /\
  match decodePcmData (new_Uint8Array (blob_bytes clip)) AudioCTX 24000 1 with
  | Ok buf =>
    audioBufferRef s' = Some buf /\ duration s' = ab_duration buf /\ currentTime s' = 0%Q
  | Throw _ =>
    audioBufferRef s' = audioBufferRef s /\ duration s' = duration s /\
    currentTime s' = currentTime s
  end.
Proof.
  assert (Hclean : isPlaying (effectCleanup s) = isPlaying s /\
                   length (nodes (effectCleanup s)) = length (nodes s) /\
                   audioBufferRef (effectCleanup s) = audioBufferRef s /\
                   duration (effectCleanup s) = duration s /\
                   currentTime (effectCleanup s) = currentTime s).
  { unfold effectCleanup.
    destruct (sourceRef s); [destruct (nodes s !! _); [destruct (nd_started _)|]|];
      cbn [isPlaying nodes audioBufferRef duration currentTime];
      rewrite ?length_alter; auto. }
  destruct Hclean as (H1 & H2 & H3 & H4 & H5).
  cbv zeta. unfold loadAudio, processAudio.
  destruct (decodePcmData _ _ _ _) as [buf|e];
    destruct (audioBlob s); cbn [isPlaying nodes audioBufferRef duration currentTime
                                 setAudioBlob]; auto.
Qed.

(** What a run of the effect keeps of a player. *)
Lemma runEffect_fields (b : option Blob) (s : Player) :
  let s' := runEffect b s in
  isPlaying s' = isPlaying s /\ length (nodes s') = length (nodes s) /\
  audioBufferRef s' = audioBufferRef s /\ duration s' = duration s /\
  currentTime s' = currentTime s.
Proof.
  cbv zeta. unfold runEffect, effectCleanup.
  destruct (audioBlob s);
    [destruct (sourceRef s); [destruct (nodes s !! _); [destruct (nd_started _)|]|]|];
    cbn [setAudioBlob isPlaying nodes audioBufferRef duration currentTime];
    rewrite ?length_alter; auto.
Qed.

(** X22. From the answer of the speech model to sound, on a player that is
    not playing, when text, speech and the write succeed and the speech is a
    whole number [N >= 1] of 16-bit samples. The decode of the clip and the
    write to the store run side by side, and the autoplay effect follows the
    write. When the decode completes first, the effect starts one source on
    the decoded clip at offset 0, with [duration] [N / 24000]. When the
    effect runs first, [play] finds the buffer as it was: on a player that
    had none nothing starts, then or when the decode completes, and on a
    player that had one the earlier buffer is started. In each case the
    flag is cleared and the effect does nothing when it runs again. *)
Theorem generated_revelation_autoplays (env : Env) (σ : Sys) (name theme text : string)
        (b : byte) (bs : list byte) (t now : Q) (p : Player) :
  let today := todayString (appState σ) in
  let finalTheme :=
    if String.eqb theme "Surpreenda-me" then pickTheme (Math_random env) else theme in
  let clip := mkBlob (b :: bs) "audio/pcm" in
  let rev := mkRevelation today text clip name finalTheme in
  api_text env (revelationPrompt name finalTheme) = Ok text ->
  api_audio env text = Ok (Some (b :: bs)) ->
  idb_put env rev = Ok tt ->
  Nat.even (length (b :: bs)) = true ->
  (Z.of_nat (length (b :: bs) / 2) < 2 ^ 32)%Z ->
  reachable t p -> isPlaying p = false ->
  let σ' := invoke (fun cl => handleGenerateRevelation cl name theme) env σ in
  let waiting := runEffect (revelationClip (appState σ')) p in
  let decoded_first := autoplayEffect now (appState σ') (processAudio clip waiting) in
  let effect_first := autoplayEffect now (appState σ') waiting in
  exists buf,
    decodePcmData (new_Uint8Array (b :: bs)) AudioCTX 24000 1 = Ok buf /\
    (playRevelationOnLoad (fst decoded_first) = false /\
     revelation (fst decoded_first) = Some rev /\
     isPlaying (snd decoded_first) = true /\ currentTime (snd decoded_first) = 0%Q /\
     duration (snd decoded_first)
     = (inject_Z (Z.of_nat (length (b :: bs) / 2)) / 24000)%Q /\
     (startTimeRef (snd decoded_first) == now)%Q /\
     sourceRef (snd decoded_first) = Some (length (nodes p)) /\
     nodes (snd decoded_first) !! length (nodes p)
     = Some (mkSourceNode buf 0 (duration (snd decoded_first)) true false true false) /\
     forall later,
       autoplayEffect later (fst decoded_first) (snd decoded_first) = decoded_first) /\
    (playRevelationOnLoad (fst effect_first) = false /\
     revelation (fst effect_first) = Some rev /\
     (forall later,
        autoplayEffect later (fst effect_first) (processAudio clip (snd effect_first))
        = (fst effect_first, processAudio clip (snd effect_first))) /\
     match audioBufferRef p with
     | None =>
       snd effect_first = waiting /\
       isPlaying (processAudio clip (snd effect_first)) = false /\
       audioBufferRef (processAudio clip (snd effect_first)) = Some buf /\
       length (nodes (processAudio clip (snd effect_first))) = length (nodes p)
     | Some old =>
       isPlaying (snd effect_first) = true /\
       nodes (snd effect_first) !! length (nodes p)
       = Some (mkSourceNode old (currentTime p) (duration p) true false true false)
     end).
Proof.
  intros today finalTheme clip rev Htext Haudio Hput Heven Hsmall Hreach Hidle
         σ' waiting decoded_first effect_first.
  assert (Hrun : appState σ' =
                 mkAppState today (Some rev) None false (isLoadingPrayer (appState σ))
                            EmptyString true).
  { unfold σ'. rewrite handleGenerateRevelation_run. cbv zeta.
    fold finalTheme. rewrite Htext, Haudio. fold today clip rev. rewrite Hput. reflexivity. }
  destruct (decode_mono_ok (b :: bs) Heven ltac:(cbn; lia) Hsmall)
    as (buf & Hdec & Hlen & Hrate).
  exists buf. split; [exact Hdec|].
  assert (Hwaiting : waiting = runEffect (Some clip) p)
    by (unfold waiting; rewrite Hrun; reflexivity).
  destruct (runEffect_fields (Some clip) p) as (Hplaying & Hnodes & Hbuf & Hdur & Hct).
  rewrite <- Hwaiting in Hplaying, Hnodes, Hbuf, Hdur, Hct.
  pose proof (wf_time_lo t p (reachable_wf t p Hreach)) as Hpos.
  set (a' := mkAppState today (Some rev) None false (isLoadingPrayer (appState σ))
                        EmptyString false).
  assert (Hauto : forall q, autoplayEffect now (appState σ') q = (a', play now q)).
  { intros q. unfold autoplayEffect. rewrite Hrun. reflexivity. }
  assert (Hagain : forall later q, autoplayEffect later a' q = (a', q)).
  { intros later q. reflexivity. }
  split.
  - (* the decode completes before the autoplay effect runs *)
    assert (Hloaded : processAudio clip waiting =
              mkPlayer (isPlaying waiting) (ab_duration buf) 0 (Some buf)
                       (sourceRef waiting) (timerRef waiting) (startTimeRef waiting)
                       (audioBlob waiting) (nodes waiting) (intervals waiting)).
    { unfold processAudio. cbn [blob_bytes clip]. rewrite Hdec. reflexivity. }
    unfold decoded_first. rewrite Hauto, Hloaded.
    rewrite (play_idle now _ buf);
      [| reflexivity | cbn [isPlaying]; rewrite Hplaying; exact Hidle
       | cbn [currentTime]; apply Qle_refl].
    cbn [fst snd playRevelationOnLoad revelation isPlaying currentTime duration
         startTimeRef sourceRef nodes a'].
    split; [reflexivity|]. split; [reflexivity|]. split; [reflexivity|].
    split; [reflexivity|].
    split; [unfold ab_duration; rewrite Hlen, Hrate; reflexivity|].
    split; [ring|].
    split; [rewrite Hnodes; reflexivity|].
    split; [rewrite <- Hnodes, lookup_app_r, Nat.sub_diag by lia; reflexivity|].
    intros later. reflexivity.
  - (* the autoplay effect runs before the decode completes *)
    unfold effect_first. rewrite Hauto. cbn [fst snd].
    split; [reflexivity|]. split; [reflexivity|].
    split; [intros later; apply Hagain|].
    destruct (audioBufferRef p) as [old|] eqn:Hold.
    + rewrite (play_idle now waiting old Hbuf);
        [| rewrite Hplaying; exact Hidle | rewrite Hct; exact Hpos].
      cbn [isPlaying nodes]. split; [reflexivity|].
      rewrite <- Hnodes, lookup_app_r, Nat.sub_diag, Hct, Hdur by lia. reflexivity.
    + assert (Hnoop : play now waiting = waiting) by (unfold play; rewrite Hbuf; reflexivity).
      rewrite Hnoop. split; [reflexivity|].
      unfold processAudio. cbn [blob_bytes clip]. rewrite Hdec.
      cbn [isPlaying audioBufferRef nodes].
      split; [rewrite Hplaying; exact Hidle|]. split; [reflexivity | exact Hnodes].
Qed.

Lemma generated_revelation_autoplays_witness :
  let env := mkEnv (fun _ => Ok "texto") (fun _ => Ok (Some [x00; x40; x00; xc0]))
                   (fun _ => Ok tt) 0 in
  let σ := mkSys (mkAppState "02/11/2026" None None false false EmptyString false) ∅ [] in
  let σ' := invoke (fun cl => handleGenerateRevelation cl "Ana" "Amor") env σ in
  let clip := mkBlob [x00; x40; x00; xc0] "audio/pcm" in
  let waiting := runEffect (revelationClip (appState σ')) initialPlayer in
  let decoded_first := autoplayEffect 7 (appState σ') (processAudio clip waiting) in
  let effect_first := autoplayEffect 7 (appState σ') waiting in
  (isPlaying (snd decoded_first) = true /\ duration (snd decoded_first) = (2 / 24000)%Q /\
   playRevelationOnLoad (fst decoded_first) = false) /\
  (isPlaying (processAudio clip (snd effect_first)) = false /\
   playRevelationOnLoad (fst effect_first) = false).
Proof.
  intros env σ σ' clip waiting decoded_first effect_first.
  destruct (generated_revelation_autoplays env σ "Ana" "Amor" "texto" x00 [x40; x00; xc0]
              0 7 initialPlayer eq_refl eq_refl eq_refl eq_refl)
    as (buf & _ & (Hflag & _ & Hplaying & _ & Hdur & _) & (Hflag2 & _ & _ & Hnone)).
  - cbn. lia.
  - apply reach_init.
  - reflexivity.
  - split; [split; [exact Hplaying|]; split; [exact Hdur | exact Hflag]|].
    split; [exact (proj1 (proj2 Hnone)) | exact Hflag2].
Defined.

(** X23. Speech that is not a whole number of samples is stored all the
    same: the request ends without an error message, with the record in the
    state and in the store. The player cannot decode the clip and keeps what
    it had: on a player without an earlier clip the autoplay starts nothing
    and [duration] stays 0; on a player that holds an earlier clip's buffer
    the autoplay starts that earlier buffer, from where it stood. Either way
    the flag is cleared. *)
Theorem undecodable_speech_keeps_previous_clip (env : Env) (σ : Sys)
        (name theme text : string) (b : byte) (bs : list byte) (t now : Q) (p : Player) :
  let today := todayString (appState σ) in
  let finalTheme :=
    if String.eqb theme "Surpreenda-me" then pickTheme (Math_random env) else theme in
  let clip := mkBlob (b :: bs) "audio/pcm" in
  let rev := mkRevelation today text clip name finalTheme in
  api_text env (revelationPrompt name finalTheme) = Ok text ->
  api_audio env text = Ok (Some (b :: bs)) ->
  idb_put env rev = Ok tt ->
  Nat.even (length (b :: bs)) = false ->
  reachable t p -> isPlaying p = false ->
  let σ' := invoke (fun cl => handleGenerateRevelation cl name theme) env σ in
  let p1 := loadAudio (revelationClip (appState σ')) p in
  let r := autoplayEffect now (appState σ') p1 in
  (revelation (appState σ') = Some rev /\ store σ' !! today = Some rev /\
   error (appState σ') = EmptyString) /\
  playRevelationOnLoad (fst r) = false /\
  duration (snd r) = duration p /\ currentTime (snd r) = currentTime p /\
  match audioBufferRef p with
  | None => snd r = p1 /\ isPlaying (snd r) = false /\ length (nodes (snd r)) = length (nodes p)
  | Some old =>
    isPlaying (snd r) = true /\
    nodes (snd r) !! length (nodes p)
    = Some (mkSourceNode old (currentTime p) (duration p) true false true false)
  end.
Proof.
  intros today finalTheme clip rev Htext Haudio Hput Hodd Hreach Hidle σ' p1 r.
  assert (Hrun : σ' = mkSys (mkAppState today (Some rev) None false
                                        (isLoadingPrayer (appState σ)) EmptyString true)
                            (<[today := rev]> (store σ))
                            (trace σ')).
  { unfold σ'. rewrite handleGenerateRevelation_run. cbv zeta.
    fold finalTheme. rewrite Htext, Haudio. fold today clip rev. rewrite Hput. reflexivity. }
  split.
  { rewrite Hrun. cbn [appState store revelation error].
    split; [reflexivity|]. split; [apply lookup_insert_eq | reflexivity]. }
  destruct (decode_mono_malformed (b :: bs) (or_introl Hodd)) as [e Hdec].
  assert (Hp1 : p1 = loadAudio (Some clip) p) by (unfold p1; rewrite Hrun; reflexivity).
  destruct (loadAudio_fields p clip) as (Hplaying & Hnodes & Hload).
  cbn [blob_bytes clip] in Hload. rewrite Hdec in Hload. destruct Hload as (Hbuf & Hdur & Hct).
  rewrite <- Hp1 in Hplaying, Hnodes, Hbuf, Hdur, Hct.
  assert (Hr : r = (mkAppState today (Some rev) None false (isLoadingPrayer (appState σ))
                               EmptyString false,
                    play now p1)).
  { unfold r, autoplayEffect. rewrite Hrun. reflexivity. }
  rewrite Hr. cbn [fst snd playRevelationOnLoad]. split; [reflexivity|].
  pose proof (wf_time_lo t p (reachable_wf t p Hreach)) as Hpos.
  destruct (audioBufferRef p) as [old|] eqn:Hold.
  - rewrite (play_idle now p1 old Hbuf); [| rewrite Hplaying; exact Hidle | rewrite Hct; exact Hpos].
    cbn [duration currentTime isPlaying nodes].
    split; [exact Hdur|]. split; [exact Hct|]. split; [reflexivity|].
    rewrite <- Hnodes, lookup_app_r, Nat.sub_diag, Hct, Hdur by lia. reflexivity.
  - assert (Hnoop : play now p1 = p1) by (unfold play; rewrite Hbuf; reflexivity).
    rewrite Hnoop. split; [exact Hdur|]. split; [exact Hct|].
    split; [reflexivity|]. split; [rewrite Hplaying; exact Hidle | exact Hnodes].
Qed.

Lemma undecodable_speech_keeps_previous_clip_witness :
  let env := mkEnv (fun _ => Ok "texto") (fun _ => Ok (Some [x00; x40; x00]))
                   (fun _ => Ok tt) 0 in
  let σ := mkSys (mkAppState "02/11/2026" None None false false EmptyString false) ∅ [] in
  let σ' := invoke (fun cl => handleGenerateRevelation cl "Ana" "Amor") env σ in
  let r := autoplayEffect 7 (appState σ')
                          (loadAudio (revelationClip (appState σ')) initialPlayer) in
  error (appState σ') = EmptyString /\ isPlaying (snd r) = false.
Proof.
  intros env σ σ' r.
  destruct (undecodable_speech_keeps_previous_clip env σ "Ana" "Amor" "texto" x00 [x40; x00]
              0 7 initialPlayer eq_refl eq_refl eq_refl eq_refl)
    as ((_ & _ & Herr) & _ & _ & _ & Hnone).
  - apply reach_init.
  - reflexivity.
  - split; [exact Herr|]. exact (proj1 (proj2 Hnone)).
Defined.

End Autoplay.
